(** * Prioritized Experience Replay of [src/per.py]: a shallow embedding

    The replay buffer [PER] (push / sample / update_priorities / len),
    the beta schedule [beta_by_frame] and the training step
    [optimize_model] are transcribed as Rocq functions.

    Conventions of the embedding:
    - Arithmetic on floats is idealised as arithmetic on real numbers
      [R]; a computation that leaves the finite reals (numpy's [inf]
      and [nan]) ends in the outcome [NonFinite]. The explicit cast of
      the importance weights to [np.float32] is kept: it rounds to the
      binary32 grid ([float32]).
    - Python exceptions are the outcome [Raise e].
    - [np.random.choice] draws by inverse transform sampling: it takes
      uniform variates of [[0, 1)] from the generator and looks each
      one up in the cumulative probabilities. The functions take the
      generator's output as an argument [random_sample], the k-th
      variate of the call being [random_sample k].
    - The value networks [policy_net] and [target_net] are external;
      they are parameters of the training step. *)

From Stdlib Require Import Reals Lra Lia ZArith.
From stdpp Require Import base list.

Set Default Proof Using "Type".

(** ** Outcomes of a Python call *)

Inductive exn : Set :=
  | IndexError
  | ValueError
  | TypeError
  | ZeroDivisionError
  | RuntimeError.

Inductive result (A : Type) : Type :=
  | Ok (a : A)
  | Raise (e : exn)
  | NonFinite.
Arguments Ok {A} a.
Arguments Raise {A} e.
Arguments NonFinite {A}.

#[global] Instance result_ret : MRet result := fun A a => Ok a.
#[global] Instance result_bind : MBind result := fun A B f m =>
  match m with
  | Ok a => f a
  | Raise e => Raise e
  | NonFinite => NonFinite
  end.

(** [for x in xs: f x], collecting the results. *)
Fixpoint mapR {A B : Type} (f : A -> result B) (xs : list A) : result (list B) :=
  match xs with
  | [] => Ok []
  | x :: xs' => y ← f x; ys ← mapR f xs'; Ok (y :: ys)
  end.

(** [xs[i]] for a Python list or a 1-d array and a non-negative index. *)
Definition get {A : Type} (xs : list A) (i : nat) : result A :=
  match xs !! i with
  | Some x => Ok x
  | None => Raise IndexError
  end.

(** [xs[i] = v] for a non-negative index. *)
Definition set {A : Type} (xs : list A) (i : nat) (v : A) : result (list A) :=
  if decide (i < length xs) then Ok (<[i:=v]> xs) else Raise IndexError.

(** numpy's index normalisation: a negative index counts from the end. *)
Definition np_index (n : nat) (idx : Z) : result nat :=
  if decide (0 <= idx < Z.of_nat n)%Z then Ok (Z.to_nat idx)
  else if decide (- Z.of_nat n <= idx < 0)%Z then Ok (Z.to_nat (idx + Z.of_nat n))
  else Raise IndexError.

(** [arr[idx] = v] for a numpy array and an integer index. *)
Definition np_set (arr : list R) (idx : Z) (v : R) : result (list R) :=
  i ← np_index (length arr) idx; Ok (<[i:=v]> arr).

(** Comparisons of reals are decided classically. *)
#[global] Instance R_eq_dec : EqDecision R := Req_dec_T.
#[global] Instance Rlt_decision (x y : R) : Decision (x < y)%R := Rlt_dec x y.
#[global] Instance Rle_decision (x y : R) : Decision (x <= y)%R := Rle_dec x y.

(** [arr.max()]: numpy raises ValueError on an empty array. *)
Definition Rmax_list (x : R) (xs : list R) : R := foldr Rmax x xs.

Definition np_max (arr : list R) : result R :=
  match arr with
  | [] => Raise ValueError
  | x :: xs => Ok (Rmax_list x xs)
  end.

(** [arr.sum()] *)
Definition np_sum (arr : list R) : R := foldr Rplus 0%R arr.

(** ** The replay buffer *)

(** A frame-difference image; the shape is not needed here. *)
Definition Tensor : Type := list R.

Record Transition : Type := mkTransition {
  state : Tensor;
  action : nat;
  reward : R;
  next_state : option Tensor;   (* None marks a terminal transition *)
  done : bool
}.

Record PER : Type := mkPER {
  prob_alpha : R;
  capacity : nat;
  memory : list Transition;
  pos : nat;
  priorities : list R
}.

(** [PER.__init__] *)
Definition init (capacity : nat) (prob_alpha : R) : PER :=
  {| prob_alpha := prob_alpha;
     capacity := capacity;
     memory := [];
     pos := 0;
     priorities := replicate capacity 0%R |}.

(** [PER.__len__] *)
Definition len (self : PER) : nat := length (memory self).

(** [PER.push] *)
Definition push (self : PER) (t : Transition) : result PER :=
  max_prio ← (if decide (memory self = []) then Ok 1%R
              else np_max (priorities self));
  memory' ← (if decide (length (memory self) < capacity self)
             then Ok (memory self ++ [t])
             else set (memory self) (pos self) t);
  priorities' ← set (priorities self) (pos self) max_prio;
  pos' ← (if decide (capacity self = 0) then Raise ZeroDivisionError
          else Ok ((pos self + 1) mod capacity self));
  Ok {| prob_alpha := prob_alpha self;
        capacity := capacity self;
        memory := memory';
        pos := pos';
        priorities := priorities' |}.

(** A run of [push] calls, left to right. *)
Fixpoint pushes (self : PER) (ts : list Transition) : result PER :=
  match ts with
  | [] => Ok self
  | t :: ts' => self' ← push self t; pushes self' ts'
  end.

(** [PER.update_priorities]: the loop over [zip(batch_indices,
    batch_priorities)]; each payload is a row whose first element is
    written. *)
Fixpoint update_loop (priorities : list R) (pairs : list (Z * list R))
  : result (list R) :=
  match pairs with
  | [] => Ok priorities
  | (idx, prio) :: rest =>
      v ← get prio 0;
      priorities' ← np_set priorities idx v;
      update_loop priorities' rest
  end.

Definition update_priorities (self : PER) (batch_indices : list Z)
    (batch_priorities : list (list R)) : result PER :=
  priorities' ← update_loop (priorities self) (zip batch_indices batch_priorities);
  Ok {| prob_alpha := prob_alpha self;
        capacity := capacity self;
        memory := memory self;
        pos := pos self;
        priorities := priorities' |}.

(** ** numpy arithmetic on arrays of reals *)

(** The integer an exponent denotes, when it denotes one. *)
Definition integral (a : R) : option Z :=
  if decide (IZR (Int_part a) = a) then Some (Int_part a) else None.

(** [x ** a] on floats; [None] when the result is [inf] or [nan]. *)
Definition npow (x a : R) : option R :=
  if decide (0 < x)%R then Some (Rpower x a)
  else if decide (x = 0%R) then
    (if decide (0 < a)%R then Some 0%R
     else if decide (a = 0%R) then Some 1%R
     else None)
  else
    match integral a with
    | Some z => Some (powerRZ x z)
    | None => None
    end.

(** [arr ** a] *)
Definition np_pow (arr : list R) (a : R) : result (list R) :=
  mapR (fun x => match npow x a with
                 | Some y => Ok y
                 | None => NonFinite
                 end) arr.

(** [arr / d]: dividing by zero gives [inf] or [nan] entries. *)
Definition np_div (arr : list R) (d : R) : result (list R) :=
  if decide (d = 0%R) then
    (if decide (arr = []) then Ok [] else NonFinite)
  else Ok (map (fun x => (x / d)%R) arr).

(** [arr.cumsum()] *)
Fixpoint cumsum_from (acc : R) (arr : list R) : list R :=
  match arr with
  | [] => []
  | x :: xs => (acc + x)%R :: cumsum_from (acc + x) xs
  end.

Definition np_cumsum (arr : list R) : list R := cumsum_from 0 arr.

(** [arr.searchsorted(v, side='right')] on a sorted array: the first
    position whose entry exceeds [v], the length if there is none. *)
Fixpoint searchsorted_right (arr : list R) (v : R) : nat :=
  match arr with
  | [] => 0
  | c :: cs => if decide (v < c)%R then 0 else S (searchsorted_right cs v)
  end.

(** [np.random.choice(a, size, p=p)], with replacement. numpy raises
    ValueError when [a] is not positive, when [p] has another length
    than [a], holds a [nan] or a negative entry, or does not sum to
    one; every non-finite [p] falls under one of these. Then it draws:
    [cdf = p.cumsum(); cdf /= cdf[-1]], [size] uniform variates from
    the generator, and [cdf.searchsorted(variates, side='right')]. *)
Definition np_random_choice (a size : nat) (p : result (list R))
    (random_sample : nat -> R) : result (list nat) :=
  if decide (a = 0 ∧ size ≠ 0) then Raise ValueError
  else
    match p with
    | Raise e => Raise e
    | NonFinite => Raise ValueError
    | Ok p =>
        if decide (length p ≠ a) then Raise ValueError
        else if decide (Exists (fun x => (x < 0)%R) p) then Raise ValueError
        else if decide (np_sum p = 1%R) then
          match last (np_cumsum p) with
          | None => Raise IndexError
          | Some total =>
              cdf ← np_div (np_cumsum p) total;
              let uniform_samples := map random_sample (seq 0 size) in
              Ok (map (searchsorted_right cdf) uniform_samples)
          end
        else Raise ValueError
    end.

(** Lists of [size] indices below [a], each of non-zero probability. *)
Definition choice_outcome (a size : nat) (p : list R) (draws : list nat) : Prop :=
  length draws = size ∧
  Forall (fun i => i < a ∧ ∃ pi, p !! i = Some pi ∧ (0 < pi)%R) draws.

(** ** The cast to float32 *)

(** The nearest integer, ties to the even one. *)
Definition round_half_even (y : R) : Z :=
  let f := Zfloor y in
  if decide (y - IZR f < 1 / 2)%R then f
  else if decide (1 / 2 < y - IZR f)%R then (f + 1)%Z
  else if Z.even f then f else (f + 1)%Z.

(** The binary32 grid at [x] is the multiples of [2^e]: 24 significant
    bits, and never finer than the subnormal spacing [2^-149]. *)
Definition float32_exponent (x : R) : Z :=
  Z.max (-149) (Zfloor (ln (Rabs x) / ln 2) - 23).

(** Round to nearest, ties to even, with the exponent unbounded above. *)
Definition round32 (x : R) : R :=
  if decide (x = 0%R) then 0%R
  else
    let e := float32_exponent x in
    (IZR (round_half_even (x * powerRZ 2 (- e))) * powerRZ 2 e)%R.

(** [np.float32(x)]: the nearest binary32 number; what rounds to
    [2^128] or beyond becomes [inf]. *)
Definition float32 (x : R) : result R :=
  let y := round32 x in
  if decide (Rabs y < powerRZ 2 128)%R then Ok y else NonFinite.

(** [np.array(arr, dtype=np.float32)] *)
Definition np_array_float32 (arr : list R) : result (list R) :=
  mapR float32 arr.

(** [torch.cat] of tensors that each hold one row: the batch of these
    rows; an empty list of tensors is an error. *)
Definition torch_cat {A : Type} (xs : list A) : result (list A) :=
  match xs with
  | [] => Raise RuntimeError
  | _ => Ok xs
  end.

(** ** Sampling *)

Definition BATCH_SIZE : nat := 32.
#[global] Arguments BATCH_SIZE : simpl never.
Definition GAMMA : R := 0.8%R.

Record Batch : Type := mkBatch {
  states : list Tensor;
  actions : list nat;
  rewards : list R;
  next_states : list (option Tensor);
  dones : list bool;
  indices : list nat;
  weights : list R
}.

(** The slice of the priority store [sample] reads. *)
Definition sample_prios (self : PER) : list R :=
  if decide (length (memory self) = capacity self) then priorities self
  else take (pos self) (priorities self).

(** Lines 76-77: [probs = prios ** alpha; probs /= probs.sum()] *)
Definition sample_probs (self : PER) : result (list R) :=
  probs ← np_pow (sample_prios self) (prob_alpha self);
  np_div probs (np_sum probs).

(** Lines 80-83: the importance weights of the drawn indices, cast to
    float32. *)
Definition sample_weights (total : nat) (probs : list R) (beta : R)
    (indices : list nat) : result (list R) :=
  picked ← mapR (get probs) indices;
  weights ← np_pow (map (fun p => (INR total * p)%R) picked) (- beta);
  m ← np_max weights;
  weights ← np_div weights m;
  np_array_float32 weights.

(** [PER.sample] *)
Definition sample (self : PER) (beta : R) (random_sample : nat -> R)
  : result Batch :=
  let probs := sample_probs self in
  indices ← np_random_choice (length (memory self)) BATCH_SIZE probs
              random_sample;
  probs ← probs;
  let total := length (memory self) in
  weights ← sample_weights total probs beta indices;
  transitions ← mapR (get (memory self)) indices;
  _ ← (if decide (transitions = []) then Raise TypeError else Ok ());
  states ← torch_cat (map state transitions);
  actions ← torch_cat (map action transitions);
  rewards ← torch_cat (map reward transitions);
  Ok {| states := states;
        actions := actions;
        rewards := rewards;
        next_states := map next_state transitions;
        dones := map done transitions;
        indices := indices;
        weights := weights |}.

(** ** The beta schedule *)

Definition beta_start : R := 0.4%R.
Definition beta_frames : Z := 1000.

Definition beta_by_frame (frame_idx : Z) : R :=
  Rmin 1 (beta_start + IZR frame_idx * (1 - beta_start) / IZR beta_frames).

(** ** torch operations of the training step *)

(** The value networks: a batch of states to one row of action values
    per state. *)
Definition Net : Type := list Tensor -> list (list R).

(** [q_values.gather(1, action)] for an index column [action]. *)
Definition gather (q_values : list (list R)) (action : list nat)
  : result (list R) :=
  if decide (length q_values < length action) then Raise RuntimeError
  else mapR (fun '(row, a) => match row !! a with
                              | Some v => Ok v
                              | None => Raise RuntimeError
                              end) (zip q_values action).

(** [t.max(1)[0]]: the maximum of every row. *)
Definition max1 (t : list (list R)) : result (list R) :=
  mapR (fun row => match row with
                   | [] => Raise IndexError
                   | x :: xs => Ok (Rmax_list x xs)
                   end) t.

(** Writing [vals], in order, into the slots of [xs] where [mask] holds. *)
Fixpoint masked_fill (xs : list R) (mask : list bool) (vals : list R) : list R :=
  match xs, mask with
  | x :: xs', true :: mask' =>
      match vals with
      | v :: vals' => v :: masked_fill xs' mask' vals'
      | [] => x :: masked_fill xs' mask' []
      end
  | x :: xs', false :: mask' => x :: masked_fill xs' mask' vals
  | _, _ => xs
  end.

(** [xs[mask] = vals]: the mask has the shape of [xs]; [vals] has one
    entry per selected slot, or is a single entry that is broadcast. *)
Definition masked_assign (xs : list R) (mask : list bool) (vals : list R)
  : result (list R) :=
  if decide (length mask ≠ length xs) then Raise IndexError
  else
    let k := length (filter (fun b => b = true) mask) in
    if decide (length vals = k) then Ok (masked_fill xs mask vals)
    else match vals with
         | [v] => Ok (masked_fill xs mask (replicate k v))
         | _ => Raise RuntimeError
         end.

(** An elementwise operation on two tensors along one dimension, with
    torch's broadcasting of a dimension of size one. *)
Definition broadcast2 (f : R -> R -> R) (xs ys : list R) : result (list R) :=
  if decide (length xs = length ys) then Ok (zip_with f xs ys)
  else match xs, ys with
       | [x], _ => Ok (map (f x) ys)
       | _, [y] => Ok (map (fun x => f x y) xs)
       | _, _ => Raise RuntimeError
       end.

(** A column of shape (n,1) times a vector of shape (m,): shape (n,m). *)
Definition column_times_vector (col vec : list R) : list (list R) :=
  map (fun c => map (fun w => (c * w)%R) vec) col.

(** [t.mean()] of a matrix; the mean of no entries is [nan]. *)
Definition mean (t : list (list R)) : result R :=
  let entries := concat t in
  if decide (entries = []) then NonFinite
  else Ok (np_sum entries / INR (length entries))%R.

(** ** The training step *)

(** [s is not None] *)
Definition is_not_None {A : Type} (s : option A) : bool :=
  match s with
  | Some _ => true
  | None => false
  end.

(** [[s for s in next_state if s is not None]] *)
Definition present (next_state : list (option Tensor)) : list Tensor :=
  omap (fun s : option Tensor => s) next_state.

(** Lines 241-242: the batch handed to the target network. *)
Definition non_final_next_states (next_state : list (option Tensor))
  : result (list Tensor) :=
  torch_cat (present next_state).

(** Lines 239-251: the bootstrap targets [expected_q_value]. *)
Definition expected_q_values (target_net : Net) (reward : list R)
    (next_state : list (option Tensor)) : result (list R) :=
  let non_final_mask := map is_not_None next_state in
  non_final ← non_final_next_states next_state;
  let next_q_values := replicate BATCH_SIZE 0%R in
  best ← max1 (target_net non_final);
  next_q_values ← masked_assign next_q_values non_final_mask best;
  broadcast2 Rplus (map (fun q => (q * GAMMA)%R) next_q_values) reward.

(** Lines 244-246: the value of the action taken, [q_value]. *)
Definition taken_q_values (policy_net : Net) (state : list Tensor)
    (action : list nat) : result (list R) :=
  gather (policy_net state) action.

(** Line 253, before the mean: [loss], a matrix by broadcasting. *)
Definition loss_matrix (q_value expected_q_value weights : list R)
  : result (list (list R)) :=
  diff ← broadcast2 Rminus q_value expected_q_value;
  Ok (column_times_vector (map (fun d => (d * d)%R) diff) weights).

(** Line 254: [prios = loss.detach() + 1e-5]. The sum is taken over
    the reals; torch adds in float32, where the constant is the nearest
    float32 to [1e-5], slightly below it. *)
Definition loss_prios (loss : list (list R)) : list (list R) :=
  map (map (fun l => (l + 1e-5)%R)) loss.

(** Lines 236-255: what the step computes from the sampled batch: the
    priorities handed to [update_priorities] and the scalar loss. *)
Definition training_signal (policy_net target_net : Net) (batch : Batch)
  : result (list (list R) * R) :=
  non_final ← non_final_next_states (next_states batch);
  q_value ← taken_q_values policy_net (states batch) (actions batch);
  expected_q_value ← expected_q_values target_net (rewards batch) (next_states batch);
  loss ← loss_matrix q_value expected_q_value (weights batch);
  let prios := loss_prios loss in
  loss ← mean loss;
  Ok (prios, loss).

(** [optimize_model]: the buffer after the step and the returned loss
    ([None] for the early return). The optimizer's update of
    [policy_net] is outside this embedding. *)
Definition optimize_model (policy_net target_net : Net) (per_memory : PER)
    (beta : R) (random_sample : nat -> R) : result (PER * option R) :=
  if decide (len per_memory < BATCH_SIZE) then Ok (per_memory, None)
  else
    batch ← sample per_memory beta random_sample;
    '(prios, loss) ← training_signal policy_net target_net batch;
    per_memory' ← update_priorities per_memory
                    (map Z.of_nat (indices batch)) prios;
    Ok (per_memory', Some loss).

(** ** Invariants and the push/update protocol *)

(** The transitions held, oldest first: the ring read from the cursor. *)
Definition chron (self : PER) : list Transition :=
  drop (pos self) (memory self) ++ take (pos self) (memory self).

(** Shape of a buffer: [size <= capacity], the cursor is in range, and
    before the first wrap-around the cursor is the size. *)
Definition wf (self : PER) : Prop :=
  0 < capacity self ∧
  length (priorities self) = capacity self ∧
  pos self < capacity self ∧
  length (memory self) ≤ capacity self ∧
  (length (memory self) < capacity self -> pos self = length (memory self)).

(** The meaningful region of the priority store: its first [size] slots. *)
Definition meaningful (self : PER) : list R :=
  take (length (memory self)) (priorities self).

Definition positive_priorities (self : PER) : Prop :=
  Forall (fun p => (0 < p)%R) (meaningful self).

(** What the generator hands out: variates of [[0, 1)]. *)
Definition uniform (random_sample : nat -> R) : Prop :=
  ∀ k, (0 <= random_sample k < 1)%R.

(** The slot a variate [u] selects under the probabilities [p]. *)
Definition chosen (p : list R) (u : R) : nat :=
  searchsorted_right (np_cumsum p) u.

(** The slots the variates of one call select on this buffer. *)
Definition drawn (self : PER) (random_sample : nat -> R) : list nat :=
  match sample_probs self with
  | Ok p => map (fun k => chosen p (random_sample k)) (seq 0 BATCH_SIZE)
  | _ => []
  end.

(** The batches of indices that have non-zero probability on this
    buffer. *)
Definition admissible (self : PER) (draws : list nat) : Prop :=
  ∃ probs, sample_probs self = Ok probs ∧
           choice_outcome (length (memory self)) BATCH_SIZE probs draws.

(** Buffers the program can build: a fresh buffer, then pushes and
    training steps in any order, with any networks, any beta and any
    output of the generator. *)
Inductive reachable : PER -> Prop :=
  | reach_init (c : nat) (alpha : R) :
      0 < c -> reachable (init c alpha)
  | reach_push (b b' : PER) (t : Transition) :
      reachable b -> push b t = Ok b' -> reachable b'
  | reach_train (b b' : PER) (policy_net target_net : Net) (beta : R)
      (random_sample : nat -> R) (loss : option R) :
      reachable b ->
      uniform random_sample ->
      optimize_model policy_net target_net b beta random_sample
        = Ok (b', loss) ->
      reachable b'.

(** ** The distribution and the weights, as the specification words them *)

(** The categorical distribution over the stored slots: each priority
    raised to the power alpha, normalised to sum one. *)
Definition distribution (prios : list R) (alpha : R) : list R :=
  let raw := map (fun x => Rpower x alpha) prios in
  map (fun q => (q / np_sum raw)%R) raw.

(** The raw importance weight of slot [i]: [(size * probs[i]) ** -beta]. *)
Definition raw_weight (size : nat) (probs : list R) (beta : R) (i : nat) : R :=
  Rpower (INR size * nth i probs 0%R) (- beta).

(** ** Example data *)

(** A terminal transition and a non-terminal one. *)
Definition t_final : Transition :=
  {| state := [0%R]; action := 0; reward := 1%R;
     next_state := None; done := true |}.

Definition t_step : Transition :=
  {| state := [0%R]; action := 0; reward := 0%R;
     next_state := Some [1%R]; done := false |}.

(** Five transitions told apart by their action. *)
Definition marked (k : nat) : Transition :=
  {| state := [0%R]; action := k; reward := 0%R;
     next_state := Some [0%R]; done := false |}.

(** A full buffer of two transitions. *)
Definition two_slots : PER :=
  {| prob_alpha := 0.6%R; capacity := 2; memory := [t_step; t_final];
     pos := 0; priorities := [1%R; 1%R] |}.

(** A full buffer of 32 non-terminal transitions, as after 32 pushes. *)
Definition full_buffer : PER :=
  {| prob_alpha := 0.6%R; capacity := 32; memory := replicate 32 t_step;
     pos := 0; priorities := replicate 32 1%R |}.

(** The same buffer built with [prob_alpha = 0]. *)
Definition uniform_buffer : PER :=
  {| prob_alpha := 0%R; capacity := 32; memory := replicate 32 t_step;
     pos := 0; priorities := replicate 32 1%R |}.

(** The same buffer after slot 0 was given priority 4. *)
Definition skewed_buffer : PER :=
  {| prob_alpha := 0.6%R; capacity := 32; memory := replicate 32 t_step;
     pos := 0; priorities := 4%R :: replicate 31 1%R |}.

(** A buffer of capacity 2 after its first push. *)
Definition one_pushed : PER :=
  {| prob_alpha := 0.6%R; capacity := 2; memory := [t_step];
     pos := 1; priorities := [1%R; 0%R] |}.

(** Networks with one action: a policy that values it 1 everywhere and
    a target that values it 0 everywhere. *)
Definition unit_policy : Net := fun xs => map (fun _ => [1%R]) xs.
Definition zero_target : Net := fun xs => map (fun _ => [0%R]) xs.

(** Draws on [skewed_buffer]: slot 0 first, then slot 1 throughout. *)
Definition skewed_draws : list nat := 0 :: replicate 31 1.

(** A generator that hands out 0 throughout: it selects the first slot
    of non-zero probability every time. *)
Definition first_slot : nat -> R := fun _ => 0%R.

(** A generator whose variates select [skewed_draws] on
    [skewed_buffer], where slot 0 has probability about 0.069 and the
    other slots about 0.030 each. *)
Definition skewed_sample : nat -> R :=
  fun k => match k with 0 => 0%R | _ => 0.08%R end.

(** ** Layer sizes of the network *)

(** [conv2d_size_out] of [DQN.__init__]; Python's [//] rounds down, as
    [Z.div] does. *)
Definition conv2d_size_out (size kernel_size stride : Z) : result Z :=
  if decide (stride = 0%Z) then Raise ZeroDivisionError
  else Ok ((size - (kernel_size - 1) - 1) / stride + 1)%Z.

(** The three stacked calls with the defaults [kernel_size = 5],
    [stride = 2]. *)
Definition conv_stack (size : Z) : result Z :=
  s1 ← conv2d_size_out size 5 2;
  s2 ← conv2d_size_out s1 5 2;
  conv2d_size_out s2 5 2.

(** Lines 126-128: [linear_input_size = convw * convh * 32] *)
Definition linear_input_size (h w : Z) : result Z :=
  convw ← conv_stack w;
  convh ← conv_stack h;
  Ok (convw * convh * 32)%Z.

(** ** Action selection *)

Definition EPS_START : R := 0.9%R.
Definition EPS_END : R := 0.05%R.
Definition EPS_DECAY : Z := 200.

(** Lines 198-199: the exploration threshold. *)
Definition eps_threshold (steps_done : Z) : R :=
  (EPS_END + (EPS_START - EPS_END)
             * exp (-1 * IZR steps_done / IZR EPS_DECAY))%R.

(** The index [t.max(1)[1]] reports for a row: the first position of
    its largest entry. [best] at [besti] is the largest entry seen so
    far and [i] the position of the head of [xs]. *)
Fixpoint argmax_from (best : R) (besti i : nat) (xs : list R) : nat :=
  match xs with
  | [] => besti
  | x :: xs' =>
      if decide (best < x)%R then argmax_from x i (S i) xs'
      else argmax_from best besti (S i) xs'
  end.

Definition argmax (row : list R) : result nat :=
  match row with
  | [] => Raise IndexError
  | x :: xs => Ok (argmax_from x 0 1 xs)
  end.

(** [select_action]: [sample] is what [random.random()] drew and
    [randrange] what [random.randrange(n_actions)] would draw. Returns
    the action and the advanced global [steps_done]. *)
Definition select_action (policy_net : Net) (n_actions : nat) (state : Tensor)
    (steps_done : Z) (sample : R) (randrange : nat) : result (nat * Z) :=
  let eps := eps_threshold steps_done in
  let steps_done' := (steps_done + 1)%Z in
  if decide (eps < sample)%R then
    best ← mapR argmax (policy_net [state]);
    match best with
    | [a] => Ok (a, steps_done')
    | _ => Raise RuntimeError
    end
  else if decide (n_actions = 0) then Raise ValueError
  else Ok (randrange, steps_done').

(** ** One iteration of the training loop *)

(** Lines 293-300 of [modele]: store the transition, then train with
    the scheduled beta. *)
Definition store_and_learn (policy_net target_net : Net) (per_memory : PER)
    (t : Transition) (steps_done : Z) (random_sample : nat -> R)
  : result (PER * option R) :=
  per_memory' ← push per_memory t;
  optimize_model policy_net target_net per_memory'
    (beta_by_frame steps_done) random_sample.

(** What one iteration brings: the observed transition, the step
    counter, the generator's output during its training step, and the
    networks as the optimizer left them. *)
Record Iteration : Type := mkIteration {
  it_transition : Transition;
  it_steps_done : Z;
  it_random_sample : nat -> R;
  it_policy_net : Net;
  it_target_net : Net
}.

(** Iterations in a row, with the loss each one returned. *)
Fixpoint store_and_learn_all (per_memory : PER) (its : list Iteration)
  : result (PER * list (option R)) :=
  match its with
  | [] => Ok (per_memory, [])
  | it :: rest =>
      '(per_memory', loss) ←
        store_and_learn (it_policy_net it) (it_target_net it) per_memory
          (it_transition it) (it_steps_done it) (it_random_sample it);
      '(per_memory'', losses) ← store_and_learn_all per_memory' rest;
      Ok (per_memory'', loss :: losses)
  end.

(** ** The running average of [plot_durations] *)

(** Lines 220-222: [durations_t.unfold(0, 100, 1).mean(1)] behind 99
    zeros; nothing below 100 episodes. *)
Definition window_means (durations : list R) : list R :=
  map (fun i => (np_sum (take 100 (drop i durations)) / 100)%R)
      (seq 0 (length durations - 99)).

Definition plotted_means (durations : list R) : option (list R) :=
  if decide (100 ≤ length durations)
  then Some (replicate 99 0%R ++ window_means durations)
  else None.

(** The priority store of a buffer that was only pushed into: ones
    where transitions sit, zeros behind. *)
Definition seeded_store (size c : nat) : list R :=
  replicate size 1%R ++ replicate (c - size) 0%R.

(** * Proofs *)

(** ** Outcome monad *)

Lemma bind_Ok {A B : Type} (m : result A) (f : A -> result B) (b : B) :
  (m ≫= f) = Ok b ↔ ∃ a, m = Ok a ∧ f a = Ok b.
Proof.
  destruct m as [a| |]; simpl; split.
  - eauto.
  - intros (a' & [= <-] & H). exact H.
  - discriminate.
  - intros (? & ? & _). discriminate.
  - discriminate.
  - intros (? & ? & _). discriminate.
Qed.

Lemma Ok_inj {A : Type} (a a' : A) : Ok a = Ok a' -> a = a'.
Proof. intros H. by injection H. Qed.

Lemma mapR_Ok_length {A B : Type} (f : A -> result B) xs ys :
  mapR f xs = Ok ys -> length ys = length xs.
Proof.
  revert ys. induction xs as [|x xs IH]; intros ys; simpl.
  - intros [= <-]. reflexivity.
  - intros H. apply bind_Ok in H as (y & _ & H).
    apply bind_Ok in H as (ys' & Hys & [= <-]).
    simpl. f_equal. eauto.
Qed.


Lemma mapR_total {A B : Type} (f : A -> result B) (g : A -> B) xs :
  Forall (fun x => f x = Ok (g x)) xs -> mapR f xs = Ok (map g xs).
Proof.
  induction 1 as [|x xs Hx _ IH]; simpl; [reflexivity|].
  rewrite Hx. simpl. rewrite IH. reflexivity.
Qed.

(** ** push *)

Lemma push_Ok (b : PER) (t : Transition) :
  wf b ->
  ∃ max_prio,
    (if decide (memory b = []) then Ok 1%R else np_max (priorities b))
      = Ok max_prio ∧
    push b t =
      Ok {| prob_alpha := prob_alpha b;
            capacity := capacity b;
            memory := (if decide (length (memory b) < capacity b)
                       then memory b ++ [t]
                       else <[pos b := t]> (memory b));
            pos := (pos b + 1) mod capacity b;
            priorities := <[pos b := max_prio]> (priorities b) |}.
Proof.
  intros (Hc & Hp & Hpos & Hlen & Hpre).
  assert (∃ m, (if decide (memory b = []) then Ok 1%R
                else np_max (priorities b)) = Ok m) as [m Hm].
  { destruct (decide (memory b = [])); [eauto|].
    destruct (priorities b) as [|x xs] eqn:E; simpl in *; [lia|eauto]. }
  exists m. split; [exact Hm|].
  unfold push, set. rewrite Hm. simpl.
  repeat (case_decide; simpl); try lia; reflexivity.
Qed.

(** Overwriting the slot at the cursor of a full ring and advancing the
    cursor drops the oldest element and appends the new one. *)
Lemma ring_overwrite {A : Type} (mem : list A) (p : nat) (t : A) :
  p < length mem ->
  drop ((p + 1) mod length mem) (<[p:=t]> mem)
    ++ take ((p + 1) mod length mem) (<[p:=t]> mem)
  = drop 1 (drop p mem ++ take p mem) ++ [t].
Proof.
  intros Hp.
  destruct (lookup_lt_is_Some_2 mem p Hp) as [x Hx].
  rewrite insert_take_drop by exact Hp.
  rewrite (drop_S _ _ _ Hx). simpl. rewrite drop_0.
  assert (HA : length (take p mem) = p) by (rewrite length_take; lia).
  assert (HB : length (drop (S p) mem) = length mem - S p) by apply length_drop.
  set (front := take p mem) in *. set (back := drop (S p) mem) in *.
  destruct (decide (p + 1 < length mem)) as [Hlt|Hge].
  - rewrite Nat.mod_small by exact Hlt.
    rewrite (cons_middle t front back), app_assoc.
    rewrite drop_app_length', take_app_length'
      by (rewrite length_app; simpl; lia).
    rewrite app_assoc. reflexivity.
  - replace (p + 1) with (length mem) by lia.
    rewrite Nat.Div0.mod_same. rewrite drop_0. simpl. rewrite app_nil_r.
    destruct back as [|? ?]; [|simpl in HB; lia].
    reflexivity.
Qed.

Lemma push_shape (b b' : PER) (t : Transition) :
  wf b -> push b t = Ok b' ->
  wf b' ∧
  capacity b' = capacity b ∧
  prob_alpha b' = prob_alpha b ∧
  pos b' = (pos b + 1) mod capacity b ∧
  len b' = Nat.min (len b + 1) (capacity b) ∧
  chron b' = drop (len b + 1 - capacity b) (chron b ++ [t]).
Proof.
  intros Hwf Hpush.
  destruct (push_Ok b t Hwf) as (m & _ & Heq).
  rewrite Heq in Hpush. injection Hpush as <-.
  destruct Hwf as (Hc & Hp & Hpos & Hlen & Hpre).
  unfold wf, len, chron. simpl.
  rewrite length_insert.
  assert (Hmod : (pos b + 1) mod capacity b < capacity b)
    by (apply Nat.mod_upper_bound; lia).
  destruct (decide (length (memory b) < capacity b)) as [Hlt|Hge].
  - rewrite length_app. simpl. specialize (Hpre Hlt).
    repeat split; try lia.
    { intros H. rewrite Nat.mod_small by lia. lia. }
    replace (length (memory b) + 1 - capacity b) with 0 by lia.
    rewrite drop_0, Hpre, (drop_ge (memory b)), (take_ge (memory b)) by lia.
    simpl.
    destruct (decide (length (memory b) + 1 < capacity b)).
    + rewrite Nat.mod_small by lia.
      rewrite drop_ge, take_ge by (rewrite length_app; simpl; lia).
      reflexivity.
    + replace (length (memory b) + 1) with (capacity b) by lia.
      rewrite Nat.Div0.mod_same, drop_0. simpl. apply app_nil_r.
  - assert (Hfull : length (memory b) = capacity b) by lia.
    rewrite length_insert.
    repeat split; try lia.
    replace (length (memory b) + 1 - capacity b) with 1 by lia.
    rewrite <- Hfull. rewrite ring_overwrite by lia.
    symmetry. apply drop_app_le.
    rewrite length_app, length_drop, length_take. lia.
Qed.

Lemma init_wf (c : nat) (alpha : R) : 0 < c -> wf (init c alpha).
Proof.
  intros Hc. unfold wf, init. simpl. rewrite length_replicate.
  repeat split; lia.
Qed.

Lemma pushes_shape (ts : list Transition) (b : PER) :
  wf b ->
  ∃ b', pushes b ts = Ok b' ∧
    wf b' ∧
    capacity b' = capacity b ∧
    prob_alpha b' = prob_alpha b ∧
    pos b' = (pos b + length ts) mod capacity b ∧
    len b' = Nat.min (len b + length ts) (capacity b) ∧
    chron b' = drop (len b + length ts - capacity b) (chron b ++ ts).
Proof.
  revert b. induction ts as [|t ts IH]; intros b Hwf.
  - exists b. pose proof Hwf as (? & ? & ? & ? & ?). unfold len.
    cbn [pushes length]. rewrite !Nat.add_0_r, app_nil_r.
    rewrite Nat.mod_small by lia.
    replace (length (memory b) - capacity b) with 0 by lia.
    rewrite drop_0. split_and!; try done. lia.
  - destruct (push_Ok b t Hwf) as (m & _ & Hpush).
    destruct (push_shape b _ t Hwf Hpush) as (Hwf1 & Hc1 & Ha1 & Hp1 & Hl1 & Hch1).
    destruct (IH _ Hwf1) as (b' & Hrun & Hwf' & Hc' & Ha' & Hp' & Hl' & Hch').
    exists b'. simpl. rewrite Hpush. simpl.
    split; [exact Hrun|]. split; [exact Hwf'|].
    rewrite Hc', Ha', Hp', Hl', Hch', Hc1, Hp1, Hl1, Hch1.
    destruct Hwf as (Hc & _ & _ & Hlen & _). unfold len in *.
    repeat split.
    + rewrite Nat.Div0.add_mod_idemp_l. f_equal. lia.
    + lia.
    + rewrite (cons_middle t (chron b) ts), app_assoc.
      destruct (decide (length (memory b) + 1 ≤ capacity b)).
      * replace (length (memory b) + 1 - capacity b) with 0 by lia.
        rewrite drop_0. f_equal. simpl. lia.
      * replace (length (memory b) + 1 - capacity b) with 1 by lia.
        rewrite <- (drop_app_le (chron b ++ [t]) ts 1)
          by (rewrite length_app; simpl; lia).
        rewrite drop_drop. f_equal. simpl. lia.
Qed.

(** In a full ring the slot [k] places after the cursor holds the
    [k]-th oldest transition. *)
Lemma chron_lookup (b : PER) (k : nat) :
  wf b -> len b = capacity b -> k < capacity b ->
  memory b !! ((pos b + k) mod capacity b) = chron b !! k.
Proof.
  intros (Hc & _ & Hpos & _ & _) Hfull Hk. unfold len, chron in *.
  destruct (decide (pos b + k < capacity b)) as [Hlt|Hge].
  - rewrite Nat.mod_small by exact Hlt.
    rewrite lookup_app_l by (rewrite length_drop; lia).
    rewrite lookup_drop. reflexivity.
  - replace ((pos b + k) mod capacity b) with (pos b + k - capacity b).
    + rewrite lookup_app_r by (rewrite length_drop; lia).
      rewrite length_drop, lookup_take_lt by lia. f_equal. lia.
    + apply Nat.mod_unique with 1; lia.
Qed.

(** Up to [capacity] pushes the buffer holds the pushed list itself. *)
Lemma pushes_init_small (c : nat) (alpha : R) (ts : list Transition) (b : PER) :
  0 < c -> length ts ≤ c -> pushes (init c alpha) ts = Ok b -> memory b = ts.
Proof.
  intros Hc Hle Hb.
  destruct (pushes_shape ts (init c alpha) (init_wf c alpha Hc))
    as (b' & Hrun & Hwf & Hcap & _ & Hpos & Hlen & Hchron).
  rewrite Hb in Hrun. injection Hrun as <-.
  simpl in Hcap, Hpos, Hlen, Hchron.
  destruct Hwf as (_ & _ & _ & _ & Hpre).
  replace (length ts - c) with 0 in Hchron by lia.
  rewrite drop_0 in Hchron. rewrite <- Hchron. unfold chron.
  destruct (decide (length ts = c)) as [Heq|Hne].
  - rewrite Hpos, Heq, Nat.Div0.mod_same, drop_0. simpl. by rewrite app_nil_r.
  - unfold len in *. rewrite Hcap in Hpre.
    rewrite Hpre, drop_ge, take_ge by lia. reflexivity.
Qed.

(** C1. Pushing [ts] into a fresh buffer of capacity [c > 0] succeeds;
    [len] is [min (length ts) c]; the write cursor is
    [length ts mod c], inside [0, c); the buffer holds exactly the last
    [c] pushed transitions ([chron], and [memory] up to rotation); up to
    [c] pushes [memory] is the pushed list itself; later each pushed
    transition [j] of the last [c] sits in slot [j mod c], and the slot
    at the cursor holds the oldest of them, the next to be overwritten. *)
Theorem push_fifo (c : nat) (alpha : R) (ts : list Transition) :
  0 < c ->
  ∃ b, pushes (init c alpha) ts = Ok b ∧
    len b = Nat.min (length ts) c ∧
    pos b = length ts mod c ∧
    pos b < c ∧
    chron b = drop (length ts - c) ts ∧
    memory b ≡ₚ drop (length ts - c) ts ∧
    (length ts ≤ c -> memory b = ts) ∧
    (c ≤ length ts ->
       memory b !! pos b = ts !! (length ts - c) ∧
       ∀ j, length ts - c ≤ j < length ts -> memory b !! (j mod c) = ts !! j).
Proof.
  intros Hc.
  destruct (pushes_shape ts (init c alpha) (init_wf c alpha Hc))
    as (b & Hrun & Hwf & Hcap & _ & Hpos & Hlen & Hchron).
  simpl in Hcap, Hpos, Hlen, Hchron.
  exists b. split; [exact Hrun|]. split; [exact Hlen|].
  split; [exact Hpos|].
  assert (Hlt : pos b < c) by (rewrite Hpos; apply Nat.mod_upper_bound; lia).
  split; [exact Hlt|]. split; [exact Hchron|].
  assert (Hperm : memory b ≡ₚ chron b).
  { unfold chron. rewrite Permutation_app_comm, take_drop. reflexivity. }
  split; [rewrite Hperm, Hchron; reflexivity|].
  split.
  - intros Hle. by apply (pushes_init_small c alpha).
  - intros Hge.
    assert (Hfull : len b = capacity b) by lia.
    assert (Hslot : ∀ k, k < c ->
              memory b !! ((pos b + k) mod c) = ts !! (length ts - c + k)).
    { intros k Hk. pose proof (chron_lookup b k Hwf Hfull) as Hk'.
      rewrite Hcap, Hchron, lookup_drop in Hk'. apply Hk', Hk. }
    split.
    + pose proof (Hslot 0 Hc) as H0.
      rewrite !Nat.add_0_r, Nat.mod_small in H0 by lia. exact H0.
    + intros j Hj.
      pose proof (Hslot (j - (length ts - c)) ltac:(lia)) as Hj'.
      replace (length ts - c + (j - (length ts - c))) with j in Hj' by lia.
      rewrite <- Hj'. f_equal.
      rewrite Hpos, Nat.Div0.add_mod_idemp_l.
      replace (length ts + (j - (length ts - c))) with (j + 1 * c) by lia.
      rewrite Nat.Div0.mod_add. reflexivity.
Qed.

(** ** Maximum and sum of an array *)

Lemma Rmax_list_elem (x : R) (xs : list R) : Rmax_list x xs ∈ x :: xs.
Proof.
  induction xs as [|y xs IH]; simpl.
  - apply list_elem_of_here.
  - fold (Rmax_list x xs). apply Rmax_case.
    + apply list_elem_of_further, list_elem_of_here.
    + apply elem_of_cons in IH as [IH|IH].
      * rewrite IH. apply list_elem_of_here.
      * do 2 apply list_elem_of_further. exact IH.
Qed.

Lemma Rmax_list_upper (x : R) (xs : list R) :
  Forall (fun y => (y <= Rmax_list x xs)%R) (x :: xs).
Proof.
  induction xs as [|y xs IH]; simpl.
  - constructor; [lra|constructor].
  - apply Forall_cons in IH as [Hx Hxs].
    pose proof (Rmax_l y (foldr Rmax x xs)).
    pose proof (Rmax_r y (foldr Rmax x xs)).
    unfold Rmax_list in *.
    constructor; [lra|]. constructor; [lra|].
    eapply Forall_impl; [exact Hxs|]. simpl. intros. lra.
Qed.

Lemma np_max_spec (arr : list R) (m : R) :
  np_max arr = Ok m -> m ∈ arr ∧ Forall (fun y => (y <= m)%R) arr.
Proof.
  destruct arr as [|x xs]; simpl; [discriminate|].
  intros [= <-]. split; [apply Rmax_list_elem|apply Rmax_list_upper].
Qed.

(** C2. On a well-formed buffer [push] succeeds, and the priority it
    writes into the slot at the cursor is 1.0 when the buffer holds no
    transition, and otherwise the maximum of the priority store as it
    was before the push: an entry of the store that bounds all of them. *)
Theorem push_priority (b : PER) (t : Transition) :
  wf b ->
  ∃ b' v, push b t = Ok b' ∧
    priorities b' !! pos b = Some v ∧
    (memory b = [] -> v = 1%R) ∧
    (memory b ≠ [] ->
       np_max (priorities b) = Ok v ∧
       v ∈ priorities b ∧
       Forall (fun p => (p <= v)%R) (priorities b)).
Proof.
  intros Hwf. destruct (push_Ok b t Hwf) as (v & Hv & Hpush).
  eexists _, v. split; [exact Hpush|]. simpl.
  destruct Hwf as (_ & Hp & Hpos & _ & _).
  split; [apply list_lookup_insert_eq; lia|].
  destruct (decide (memory b = [])) as [He|Hne].
  - split; [intros _; congruence|]. intros Hc. contradiction.
  - split; [intros Hc; contradiction|]. intros _.
    split; [exact Hv|]. apply np_max_spec, Hv.
Qed.

(** ** update_priorities *)

Lemma np_index_Ok (n : nat) (idx : Z) (i : nat) :
  np_index n idx = Ok i -> i < n.
Proof.
  unfold np_index. repeat case_decide; intros [= <-]; lia.
Qed.

Lemma np_index_nat (n i : nat) : i < n -> np_index n (Z.of_nat i) = Ok i.
Proof.
  intros Hi. unfold np_index. rewrite decide_True by lia.
  by rewrite Nat2Z.id.
Qed.

(** A loop that returns keeps the length of the store, and keeps any
    property of a prefix that the written values have. *)
Lemma update_loop_keeps (P : R -> Prop) (pairs : list (Z * list R))
    (p p' : list R) :
  update_loop p pairs = Ok p' ->
  Forall (fun pair => ∀ v, pair.2 !! 0 = Some v -> P v) pairs ->
  length p' = length p ∧ ∀ n, Forall P (take n p) -> Forall P (take n p').
Proof.
  revert p. induction pairs as [|[idx row] pairs IH]; intros p; simpl.
  - intros [= <-] _. split; [reflexivity|auto].
  - intros Hrun Hvals. apply Forall_cons in Hvals as [Hv Hvals].
    apply bind_Ok in Hrun as (v & Hget & Hrun).
    apply bind_Ok in Hrun as (p1 & Hset & Hrun).
    unfold get in Hget. destruct (row !! 0) as [v'|] eqn:Hrow; [|discriminate].
    injection Hget as ->.
    unfold np_set in Hset. apply bind_Ok in Hset as (i & Hi & [= <-]).
    destruct (IH _ Hrun Hvals) as (Hlen & Hkeep).
    rewrite length_insert in Hlen. split; [exact Hlen|].
    intros n Hn. apply Hkeep. rewrite take_insert.
    case_decide; [|exact Hn]. apply Forall_insert; [exact Hn|].
    apply Hv. exact Hrow.
Qed.

(** The loop returns when every paired index is in range and every
    paired payload has a first element. *)
Lemma update_loop_Ok (pairs : list (Z * list R)) (p : list R) :
  Forall (fun pair => (- Z.of_nat (length p) <= pair.1 < Z.of_nat (length p))%Z
                      ∧ pair.2 ≠ []) pairs ->
  ∃ p', update_loop p pairs = Ok p'.
Proof.
  revert p. induction pairs as [|[idx row] pairs IH]; intros p Hall; simpl.
  - eauto.
  - apply Forall_cons in Hall as [[Hidx Hrow] Hall]. simpl in Hidx, Hrow.
    destruct row as [|v row]; [contradiction|]. simpl.
    assert (∃ i, np_index (length p) idx = Ok i) as [i Hi].
    { unfold np_index. repeat case_decide; eauto. lia. }
    unfold np_set. rewrite Hi. simpl. apply IH.
    rewrite length_insert. exact Hall.
Qed.

Lemma update_priorities_zip (b : PER) (idxs : list Z) (prios : list (list R))
    (n1 n2 : nat) :
  Nat.min (length idxs) (length prios) ≤ n1 ->
  Nat.min (length idxs) (length prios) ≤ n2 ->
  update_priorities b (take n1 idxs) (take n2 prios)
  = update_priorities b idxs prios.
Proof.
  intros H1 H2. unfold update_priorities.
  rewrite zip_with_take_both' by assumption. reflexivity.
Qed.

(** C6, as the code has it. [update_priorities] pairs indices and
    payloads with [zip]: with sequences of different lengths it handles
    the pairs up to the shorter length and ignores the rest, and it
    returns normally whenever those pairs are writable (index in range,
    payload with a first element). A length mismatch raises nothing. *)
Theorem update_priorities_mismatch (b : PER) (idxs : list Z)
    (prios : list (list R)) :
  let n := Nat.min (length idxs) (length prios) in
  update_priorities b idxs prios
    = update_priorities b (take n idxs) (take n prios) ∧
  (Forall (fun i => (- Z.of_nat (length (priorities b)) <= i
                     < Z.of_nat (length (priorities b)))%Z) (take n idxs) ->
   Forall (fun row => row ≠ []) (take n prios) ->
   ∃ b', update_priorities b idxs prios = Ok b').
Proof.
  intros n. split.
  - symmetry. apply update_priorities_zip; reflexivity.
  - intros Hidx Hrow.
    rewrite <- (update_priorities_zip b idxs prios n n) by reflexivity.
    unfold update_priorities.
    destruct (update_loop_Ok (zip (take n idxs) (take n prios)) (priorities b))
      as [p' Hp'].
    + apply Forall_forall. intros [i row] Hin.
      apply elem_of_zip_l in Hin as Hi. apply elem_of_zip_r in Hin as Hr.
      rewrite Forall_forall in Hidx. rewrite Forall_forall in Hrow.
      simpl. split; auto.
    + rewrite Hp'. simpl. eauto.
Qed.

(** C6, the claim as stated fails: two indices and one payload. The call
    returns normally, having written the first pair only. *)
Lemma update_priorities_mismatch_returns :
  length [0%Z; 1%Z] ≠ length [[5%R]] ∧
  update_priorities two_slots [0%Z; 1%Z] [[5%R]]
  = Ok {| prob_alpha := 0.6%R; capacity := 2; memory := [t_step; t_final];
          pos := 0; priorities := [5%R; 1%R] |}.
Proof.
  split; [simpl; lia|]. reflexivity.
Qed.

Lemma update_priorities_mismatch_witness :
  ∃ b', update_priorities two_slots [0%Z; 1%Z] [[5%R]] = Ok b'.
Proof.
  apply (update_priorities_mismatch two_slots [0%Z; 1%Z] [[5%R]]).
  - simpl. repeat constructor; lia.
  - simpl. repeat constructor. discriminate.
Defined.

(** ** Powers, sums and the sampling distribution *)

Lemma map_fmap {A B : Type} (f : A -> B) (l : list A) : map f l = f <$> l.
Proof. reflexivity. Qed.

Lemma lookup_map {A B : Type} (f : A -> B) (l : list A) (i : nat) :
  map f l !! i = f <$> l !! i.
Proof. apply list_lookup_fmap. Qed.

Lemma Rpower_pos (x a : R) : (0 < Rpower x a)%R.
Proof. apply exp_pos. Qed.

Lemma npow_pos (x a : R) : (0 < x)%R -> npow x a = Some (Rpower x a).
Proof. intros Hx. unfold npow. by rewrite decide_True. Qed.

Lemma np_pow_pos (arr : list R) (a : R) :
  Forall (fun x => (0 < x)%R) arr ->
  np_pow arr a = Ok (map (fun x => Rpower x a) arr).
Proof.
  intros Hpos. unfold np_pow. apply mapR_total.
  eapply Forall_impl; [exact Hpos|]. intros x Hx. simpl.
  by rewrite npow_pos.
Qed.

Lemma np_sum_pos (arr : list R) :
  arr ≠ [] -> Forall (fun x => (0 < x)%R) arr -> (0 < np_sum arr)%R.
Proof.
  intros Hne Hpos. destruct Hpos as [|x xs Hx Hxs]; [contradiction|].
  clear Hne. simpl.
  assert (0 <= np_sum xs)%R; [|lra].
  induction Hxs as [|y ys Hy _ IH]; simpl; lra.
Qed.

Lemma np_sum_app (xs ys : list R) :
  np_sum (xs ++ ys) = (np_sum xs + np_sum ys)%R.
Proof.
  induction xs as [|x xs IH]; simpl; [ring|]. rewrite IH. ring.
Qed.

Lemma np_sum_nonneg (arr : list R) :
  Forall (fun x => (0 <= x)%R) arr -> (0 <= np_sum arr)%R.
Proof. induction 1 as [|x xs Hx _ IH]; simpl; lra. Qed.

Lemma np_sum_take_S (arr : list R) (i : nat) (x : R) :
  arr !! i = Some x ->
  np_sum (take (S i) arr) = (np_sum (take i arr) + x)%R.
Proof.
  intros Hx. rewrite (take_S_r _ _ _ Hx), np_sum_app. simpl. ring.
Qed.

Lemma np_sum_take_le (arr : list R) (i : nat) :
  Forall (fun x => (0 <= x)%R) arr -> (np_sum (take i arr) <= np_sum arr)%R.
Proof.
  intros Hpos. rewrite <- (take_drop i arr) at 2. rewrite np_sum_app.
  assert (0 <= np_sum (drop i arr))%R; [|lra].
  apply np_sum_nonneg. by apply Forall_drop.
Qed.

Lemma np_sum_div (arr : list R) (d : R) :
  np_sum (map (fun x => (x / d)%R) arr) = (np_sum arr / d)%R.
Proof.
  induction arr as [|x xs IH]; simpl.
  - unfold Rdiv. ring.
  - rewrite IH. unfold Rdiv. ring.
Qed.

Lemma sample_prios_wf (b : PER) : wf b -> sample_prios b = meaningful b.
Proof.
  intros (_ & Hp & _ & Hlen & Hpre). unfold sample_prios, meaningful.
  case_decide as Hfull.
  - rewrite take_ge by lia. reflexivity.
  - rewrite Hpre by lia. reflexivity.
Qed.

Lemma meaningful_length (b : PER) : wf b -> length (meaningful b) = len b.
Proof.
  intros (_ & Hp & _ & Hlen & _). unfold meaningful, len.
  rewrite length_take. lia.
Qed.

(** The normalised powers of positive priorities form a distribution. *)
Lemma distribution_spec (prios : list R) (alpha : R) :
  prios ≠ [] -> Forall (fun x => (0 < x)%R) prios ->
  length (distribution prios alpha) = length prios ∧
  Forall (fun p => (0 < p)%R) (distribution prios alpha) ∧
  np_sum (distribution prios alpha) = 1%R ∧
  (0 < np_sum (map (fun x => Rpower x alpha) prios))%R.
Proof.
  intros Hne Hpos. unfold distribution.
  set (raw := map (fun x => Rpower x alpha) prios).
  assert (Hraw : Forall (fun x => (0 < x)%R) raw).
  { unfold raw. rewrite map_fmap. apply Forall_fmap.
    eapply Forall_impl; [exact Hpos|]. intros x _. apply Rpower_pos. }
  assert (Hsum : (0 < np_sum raw)%R).
  { apply np_sum_pos; [|exact Hraw]. unfold raw.
    destruct prios; [contradiction|discriminate]. }
  split; [unfold raw; by rewrite !map_fmap, !length_fmap|].
  split; [|split; [|exact Hsum]].
  - rewrite map_fmap. apply Forall_fmap.
    eapply Forall_impl; [exact Hraw|]. intros x Hx. simpl.
    by apply Rdiv_lt_0_compat.
  - rewrite np_sum_div. field. lra.
Qed.

Lemma sample_probs_Ok (b : PER) :
  wf b -> positive_priorities b -> 0 < len b ->
  sample_probs b = Ok (distribution (meaningful b) (prob_alpha b)).
Proof.
  intros Hwf Hpos Hlen. unfold sample_probs.
  rewrite sample_prios_wf by exact Hwf.
  rewrite np_pow_pos by exact Hpos. simpl.
  assert (Hne : meaningful b ≠ []).
  { intros He. apply meaningful_length in Hwf. rewrite He in Hwf.
    simpl in Hwf. lia. }
  destruct (distribution_spec (meaningful b) (prob_alpha b) Hne Hpos)
    as (_ & _ & _ & Hsum).
  unfold np_div. rewrite decide_False by lra. reflexivity.
Qed.

(** ** Inverse transform sampling *)

Lemma last_cumsum_from (acc : R) (p : list R) :
  p ≠ [] -> last (cumsum_from acc p) = Some (acc + np_sum p)%R.
Proof.
  revert acc. induction p as [|x p IH]; intros acc Hne; [done|].
  destruct p as [|y p].
  - simpl. f_equal. ring.
  - change (cumsum_from acc (x :: y :: p))
      with ((acc + x)%R :: cumsum_from (acc + x) (y :: p)).
    rewrite last_cons, IH by done. simpl. f_equal. ring.
Qed.

Lemma np_div_one (arr : list R) : np_div arr 1 = Ok arr.
Proof.
  unfold np_div. rewrite decide_False by lra. f_equal.
  induction arr as [|x xs IH]; simpl; [reflexivity|].
  rewrite IH. f_equal. field.
Qed.

(** A variate below the total selects a slot: the one whose interval
    of cumulative probability holds it. *)
Lemma searchsorted_cumsum (p : list R) (acc u : R) :
  Forall (fun x => (0 <= x)%R) p ->
  (acc <= u < acc + np_sum p)%R ->
  searchsorted_right (cumsum_from acc p) u < length p ∧
  (acc + np_sum (take (searchsorted_right (cumsum_from acc p) u) p) <= u
   < acc + np_sum (take (S (searchsorted_right (cumsum_from acc p) u)) p))%R.
Proof.
  intros Hpos. revert acc.
  induction Hpos as [|x p Hx _ IH]; intros acc [Hlo Hhi].
  - simpl in Hhi. lra.
  - cbn [cumsum_from searchsorted_right]. case_decide as Hu.
    + split; [simpl; lia|]. simpl. lra.
    + destruct (IH (acc + x)%R) as [Hi [Hl Hh]].
      { simpl in Hhi. lra. }
      split; [simpl; lia|]. rewrite !firstn_cons. simpl. lra.
Qed.

Lemma searchsorted_unique (p : list R) (acc u : R) (i : nat) :
  Forall (fun x => (0 <= x)%R) p -> i < length p ->
  (acc + np_sum (take i p) <= u < acc + np_sum (take (S i) p))%R ->
  searchsorted_right (cumsum_from acc p) u = i.
Proof.
  intros Hpos. revert acc i.
  induction Hpos as [|x p Hx Hp IH]; intros acc i Hi [Hlo Hhi].
  - simpl in Hi. lia.
  - cbn [cumsum_from searchsorted_right]. destruct i as [|i].
    + rewrite decide_True; [reflexivity|].
      simpl in Hhi. lra.
    + rewrite !firstn_cons in *. simpl in Hlo, Hhi.
      pose proof (np_sum_nonneg (take i p) (Forall_take _ _ _ Hp)) as Hs.
      rewrite decide_False by lra. f_equal.
      apply IH; [simpl in Hi; lia|]. lra.
Qed.

Lemma chosen_iff (p : list R) (u : R) (i : nat) :
  Forall (fun x => (0 <= x)%R) p -> np_sum p = 1%R -> (0 <= u < 1)%R ->
  chosen p u = i ↔
  i < length p ∧ (np_sum (take i p) <= u < np_sum (take (S i) p))%R.
Proof.
  intros Hpos Hsum Hu. unfold chosen, np_cumsum. split.
  - intros <-.
    destruct (searchsorted_cumsum p 0 u Hpos) as [Hi Hint]; [lra|].
    split; [exact Hi|]. lra.
  - intros [Hi Hint]. apply searchsorted_unique; [assumption..|]. lra.
Qed.

(** The slot a variate selects has non-zero probability. *)
Lemma chosen_possible (p : list R) (u : R) :
  Forall (fun x => (0 <= x)%R) p -> np_sum p = 1%R -> (0 <= u < 1)%R ->
  chosen p u < length p ∧ ∃ pi, p !! chosen p u = Some pi ∧ (0 < pi)%R.
Proof.
  intros Hpos Hsum Hu.
  destruct (proj1 (chosen_iff p u _ Hpos Hsum Hu) eq_refl) as [Hi Hint].
  split; [exact Hi|].
  destruct (lookup_lt_is_Some_2 p _ Hi) as [pi Hpi].
  exists pi. split; [exact Hpi|].
  rewrite (np_sum_take_S _ _ _ Hpi) in Hint. lra.
Qed.

Lemma np_random_choice_Ok (a size : nat) (p : list R)
    (random_sample : nat -> R) :
  0 < a -> length p = a -> Forall (fun x => (0 < x)%R) p ->
  np_sum p = 1%R ->
  np_random_choice a size (Ok p) random_sample
  = Ok (map (fun k => chosen p (random_sample k)) (seq 0 size)).
Proof.
  intros Ha Hlen Hpos Hsum. unfold np_random_choice.
  rewrite decide_False by lia.
  rewrite decide_False by lia.
  rewrite decide_False.
  - rewrite decide_True by exact Hsum.
    unfold np_cumsum. rewrite last_cumsum_from.
    2: { intros ->. simpl in Hlen. lia. }
    rewrite Rplus_0_l, Hsum, np_div_one. cbn [mbind result_bind].
    by rewrite map_map.
  - intros Hex. apply Exists_exists in Hex as (x & Hx & Hneg).
    rewrite Forall_forall in Hpos. specialize (Hpos x Hx). lra.
Qed.

(** ** Indexing with the drawn indices *)

Lemma get_Some {A : Type} (xs : list A) (i : nat) (x : A) :
  xs !! i = Some x -> get xs i = Ok x.
Proof. intros H. unfold get. by rewrite H. Qed.

Lemma mapR_get_Ok {A : Type} (xs : list A) (idxs : list nat) :
  Forall (fun i => i < length xs) idxs ->
  ∃ ys, mapR (get xs) idxs = Ok ys ∧
        Forall2 (fun i y => xs !! i = Some y) idxs ys.
Proof.
  induction 1 as [|i idxs Hi _ (ys & Hys & Hall)]; cbn [mapR].
  - exists []. split; [reflexivity|constructor].
  - apply lookup_lt_is_Some_2 in Hi as [y Hy].
    exists (y :: ys). rewrite (get_Some _ _ _ Hy), Hys.
    split; [reflexivity|]. by constructor.
Qed.

Lemma mapR_get_nth (xs : list R) (idxs : list nat) :
  Forall (fun i => i < length xs) idxs ->
  mapR (get xs) idxs = Ok (map (fun i => nth i xs 0%R) idxs).
Proof.
  intros Hall. apply mapR_total.
  eapply Forall_impl; [exact Hall|]. intros i Hi. simpl.
  apply lookup_lt_is_Some_2 in Hi as [y Hy].
  rewrite (get_Some _ _ _ Hy). f_equal. symmetry.
  by apply nth_lookup_Some.
Qed.

(** ** Rounding to float32 *)

Lemma round_half_even_near (y : R) :
  (IZR (Zfloor y) <= IZR (round_half_even y) <= IZR (Zfloor y) + 1)%R.
Proof.
  unfold round_half_even.
  repeat case_decide; try destruct (Z.even _); rewrite ?plus_IZR; lra.
Qed.

Lemma round_half_even_le (y : R) (n : Z) :
  (y <= IZR n)%R -> (round_half_even y <= n)%Z.
Proof.
  intros Hy. pose proof (Zfloor_bound y) as [Hlo Hhi].
  destruct (Req_dec y (IZR n)) as [->|Hne].
  - unfold round_half_even. rewrite ZfloorZ.
    rewrite decide_True by lra. lia.
  - assert (Hlt : (IZR (Zfloor y) < IZR n)%R) by lra.
    apply lt_IZR in Hlt.
    apply le_IZR. pose proof (round_half_even_near y) as [_ Hup].
    assert (IZR (Zfloor y) + 1 <= IZR n)%R; [|lra].
    rewrite <- plus_IZR. apply IZR_le. lia.
Qed.

Lemma round_half_even_ge (y : R) (n : Z) :
  (IZR n <= y)%R -> (n <= round_half_even y)%Z.
Proof.
  intros Hy. apply Zfloor_lub in Hy.
  pose proof (round_half_even_near y) as [Hlo _]. apply le_IZR in Hlo. lia.
Qed.

Lemma round_half_even_IZR (n : Z) : round_half_even (IZR n) = n.
Proof.
  apply Z.le_antisymm.
  - apply round_half_even_le. lra.
  - apply round_half_even_ge. lra.
Qed.

Lemma round_half_even_mono (y y' : R) :
  (y <= y')%R -> (round_half_even y <= round_half_even y')%Z.
Proof.
  intros Hle. pose proof (Zfloor_le y y' Hle) as Hf.
  destruct (Z.eq_dec (Zfloor y) (Zfloor y')) as [Heq|Hne].
  - unfold round_half_even. rewrite <- Heq.
    repeat case_decide; try destruct (Z.even _); try lia; lra.
  - pose proof (round_half_even_near y) as [_ Hup].
    pose proof (round_half_even_near y') as [Hlo _].
    apply le_IZR.
    assert (IZR (Zfloor y) + 1 <= IZR (Zfloor y'))%R; [|lra].
    rewrite <- plus_IZR. apply IZR_le. lia.
Qed.



(** Powers of two *)

Lemma ln2_pos : (0 < ln 2)%R.
Proof. pose proof ln_lt_2. lra. Qed.

Lemma pow2_pos (e : Z) : (0 < powerRZ 2 e)%R.
Proof. apply powerRZ_lt. lra. Qed.

Lemma pow2_exp (e : Z) : powerRZ 2 e = exp (IZR e * ln 2).
Proof. rewrite powerRZ_Rpower by lra. reflexivity. Qed.

Lemma pow2_le (e e' : Z) : (e <= e')%Z -> (powerRZ 2 e <= powerRZ 2 e')%R.
Proof.
  intros Hle. rewrite !pow2_exp.
  destruct (Z.eq_dec e e') as [->|Hne]; [lra|].
  left. apply exp_increasing. apply Rmult_lt_compat_r; [exact ln2_pos|].
  apply IZR_lt. lia.
Qed.

Lemma pow2_lt (e e' : Z) : (e < e')%Z -> (powerRZ 2 e < powerRZ 2 e')%R.
Proof.
  intros Hlt. rewrite !pow2_exp.
  apply exp_increasing. apply Rmult_lt_compat_r; [exact ln2_pos|].
  by apply IZR_lt.
Qed.

Lemma pow2_add (e e' : Z) :
  powerRZ 2 (e + e') = (powerRZ 2 e * powerRZ 2 e')%R.
Proof. apply powerRZ_add. lra. Qed.

Lemma pow2_cancel (e : Z) : (powerRZ 2 e * powerRZ 2 (- e))%R = 1%R.
Proof. rewrite <- pow2_add, Z.add_opp_diag_r. reflexivity. Qed.

Lemma pow2_IZR (n : Z) : (0 <= n)%Z -> powerRZ 2 n = IZR (2 ^ n).
Proof.
  intros Hn. rewrite <- (Z2Nat.id n Hn) at 2.
  rewrite <- pow_IZR. destruct n as [|p|p]; [reflexivity| |lia].
  simpl. reflexivity.
Qed.

(** The binade of a positive real. *)
Lemma binade_bounds (x : R) :
  (0 < x)%R ->
  let k := Zfloor (ln x / ln 2) in
  (powerRZ 2 k <= x < powerRZ 2 (k + 1))%R.
Proof.
  intros Hx k. pose proof (Zfloor_bound (ln x / ln 2)) as [Hlo Hhi].
  fold k in Hlo, Hhi. pose proof ln2_pos as H2.
  rewrite !pow2_exp, plus_IZR.
  assert (Hq : (ln x = ln x / ln 2 * ln 2)%R) by (field; lra).
  assert (Hl : (exp (IZR k * ln 2) <= exp (ln x))%R).
  { destruct (Req_dec (IZR k) (ln x / ln 2)) as [Heq|Hne].
    - rewrite Heq, <- Hq. lra.
    - left. apply exp_increasing. rewrite Hq.
      apply Rmult_lt_compat_r; [exact H2|lra]. }
  assert (Hu : (exp (ln x) < exp ((IZR k + 1) * ln 2))%R).
  { apply exp_increasing. rewrite Hq.
    apply Rmult_lt_compat_r; [exact H2|lra]. }
  rewrite exp_ln in Hl, Hu by exact Hx. by split.
Qed.

Lemma binade_unique (x : R) (k : Z) :
  (powerRZ 2 k <= x < powerRZ 2 (k + 1))%R -> Zfloor (ln x / ln 2) = k.
Proof.
  intros [Hlo Hhi]. pose proof (pow2_pos k) as Hk.
  assert (Hx : (0 < x)%R) by lra.
  pose proof (binade_bounds x Hx) as [Hlo' Hhi'].
  set (k' := Zfloor (ln x / ln 2)) in *.
  destruct (Z.lt_trichotomy k' k) as [Hlt|[Heq|Hgt]]; [|exact Heq|].
  - pose proof (pow2_le (k' + 1) k ltac:(lia)). lra.
  - pose proof (pow2_le (k + 1) k' ltac:(lia)). lra.
Qed.

Lemma float32_exponent_mono (x y : R) :
  (0 < x <= y)%R -> (float32_exponent x <= float32_exponent y)%Z.
Proof.
  intros [Hx Hxy]. unfold float32_exponent.
  rewrite !Rabs_pos_eq by lra.
  assert (Zfloor (ln x / ln 2) <= Zfloor (ln y / ln 2))%Z; [|lia].
  apply Zfloor_le. pose proof ln2_pos. unfold Rdiv.
  apply Rmult_le_compat_r; [left; by apply Rinv_0_lt_compat|].
  destruct (Req_dec x y) as [->|Hne]; [lra|].
  left. apply ln_increasing; lra.
Qed.

(** Where a positive real lies relative to its grid. *)
Lemma float32_exponent_upper (x : R) :
  (0 < x)%R -> (x < powerRZ 2 (float32_exponent x + 24))%R.
Proof.
  intros Hx. pose proof (binade_bounds x Hx) as [_ Hhi].
  unfold float32_exponent. rewrite Rabs_pos_eq by lra.
  eapply Rlt_le_trans; [exact Hhi|]. apply pow2_le. lia.
Qed.

Lemma float32_exponent_normal (x : R) :
  (0 < x)%R -> (-149 < float32_exponent x)%Z ->
  (powerRZ 2 (float32_exponent x + 23) <= x)%R.
Proof.
  intros Hx. pose proof (binade_bounds x Hx) as [Hlo _].
  unfold float32_exponent. rewrite Rabs_pos_eq by lra. intros He.
  eapply Rle_trans; [|exact Hlo]. apply pow2_le. lia.
Qed.

Lemma round32_pos (x : R) :
  (0 < x)%R ->
  round32 x
  = (IZR (round_half_even (x * powerRZ 2 (- float32_exponent x)))
     * powerRZ 2 (float32_exponent x))%R.
Proof. intros Hx. unfold round32. rewrite decide_False by lra. reflexivity. Qed.

Lemma round32_0 : round32 0 = 0%R.
Proof. unfold round32. by rewrite decide_True. Qed.

Lemma scaled_le (x : R) (e n : Z) :
  (x <= powerRZ 2 (e + n))%R -> (0 <= n)%Z ->
  (x * powerRZ 2 (- e) <= IZR (2 ^ n))%R.
Proof.
  intros Hx Hn. rewrite <- pow2_IZR by exact Hn.
  replace (powerRZ 2 n) with (powerRZ 2 (e + n) * powerRZ 2 (- e))%R.
  - apply Rmult_le_compat_r; [left; apply pow2_pos|exact Hx].
  - rewrite <- pow2_add. f_equal. lia.
Qed.

Lemma scaled_ge (x : R) (e n : Z) :
  (powerRZ 2 (e + n) <= x)%R -> (0 <= n)%Z ->
  (IZR (2 ^ n) <= x * powerRZ 2 (- e))%R.
Proof.
  intros Hx Hn. rewrite <- pow2_IZR by exact Hn.
  replace (powerRZ 2 n) with (powerRZ 2 (e + n) * powerRZ 2 (- e))%R.
  - apply Rmult_le_compat_r; [left; apply pow2_pos|exact Hx].
  - rewrite <- pow2_add. f_equal. lia.
Qed.

Lemma round32_nonneg (x : R) : (0 <= x)%R -> (0 <= round32 x)%R.
Proof.
  intros [Hx|<-]; [|rewrite round32_0; lra].
  rewrite round32_pos by exact Hx.
  apply Rmult_le_pos; [|left; apply pow2_pos].
  apply IZR_le, round_half_even_ge. simpl.
  apply Rmult_le_pos; [lra|left; apply pow2_pos].
Qed.

Lemma round32_upper (x : R) :
  (0 < x)%R -> (round32 x <= powerRZ 2 (float32_exponent x + 24))%R.
Proof.
  intros Hx. rewrite round32_pos by exact Hx.
  rewrite pow2_add, Rmult_comm. rewrite (pow2_IZR 24) by lia.
  apply Rmult_le_compat_l; [left; apply pow2_pos|].
  apply IZR_le, round_half_even_le, scaled_le; [|lia].
  left. by apply float32_exponent_upper.
Qed.

Lemma round32_lower (x : R) :
  (0 < x)%R -> (-149 < float32_exponent x)%Z ->
  (powerRZ 2 (float32_exponent x + 23) <= round32 x)%R.
Proof.
  intros Hx He. rewrite round32_pos by exact Hx.
  rewrite pow2_add, Rmult_comm. rewrite (pow2_IZR 23) by lia.
  apply Rmult_le_compat_r; [left; apply pow2_pos|].
  apply IZR_le, round_half_even_ge, scaled_ge; [|lia].
  by apply float32_exponent_normal.
Qed.

(** Rounding is monotone. *)
Lemma round32_mono (x y : R) :
  (0 <= x <= y)%R -> (round32 x <= round32 y)%R.
Proof.
  intros [[Hx|<-] Hxy]; [|rewrite round32_0; by apply round32_nonneg].
  assert (Hy : (0 < y)%R) by lra.
  pose proof (float32_exponent_mono x y (conj Hx Hxy)) as He.
  destruct (Z.eq_dec (float32_exponent x) (float32_exponent y)) as [Heq|Hne].
  - rewrite !round32_pos by assumption. rewrite Heq.
    apply Rmult_le_compat_r; [left; apply pow2_pos|].
    apply IZR_le, round_half_even_mono.
    apply Rmult_le_compat_r; [left; apply pow2_pos|exact Hxy].
  - eapply Rle_trans; [by apply round32_upper|].
    eapply Rle_trans; [|apply round32_lower; [exact Hy|]].
    + apply pow2_le. lia.
    + unfold float32_exponent in *. lia.
Qed.

(** Numbers of the grid are kept. *)
Lemma round32_grid (m e : Z) :
  (2 ^ 23 <= m < 2 ^ 24)%Z -> (-149 <= e)%Z ->
  round32 (IZR m * powerRZ 2 e) = (IZR m * powerRZ 2 e)%R.
Proof.
  intros [Hlo Hhi] He. pose proof (pow2_pos e) as Hpe.
  assert (Hm : (0 < IZR m)%R) by (apply IZR_lt; lia).
  assert (Hx : (0 < IZR m * powerRZ 2 e)%R) by by apply Rmult_lt_0_compat.
  assert (Hexp : float32_exponent (IZR m * powerRZ 2 e) = e).
  { unfold float32_exponent. rewrite Rabs_pos_eq by lra.
    rewrite (binade_unique _ (e + 23)); [lia|].
    rewrite <- Z.add_assoc. rewrite !(pow2_add e), !(Rmult_comm (powerRZ 2 e)).
    rewrite (pow2_IZR 23), (pow2_IZR (23 + 1)) by lia. split.
    - apply Rmult_le_compat_r; [lra|]. by apply IZR_le.
    - apply Rmult_lt_compat_r; [lra|]. by apply IZR_lt. }
  rewrite round32_pos by exact Hx. rewrite Hexp.
  rewrite Rmult_assoc, pow2_cancel, Rmult_1_r, round_half_even_IZR.
  reflexivity.
Qed.

Lemma round32_1 : round32 1 = 1%R.
Proof.
  pose proof (round32_grid (2 ^ 23) (-23) ltac:(lia) ltac:(lia)) as H.
  rewrite <- (pow2_IZR 23) in H by lia.
  rewrite pow2_cancel in H. exact H.
Qed.

(** The unit interval is kept. *)
Lemma round32_unit (x : R) : (0 <= x <= 1)%R -> (0 <= round32 x <= 1)%R.
Proof.
  intros [Hx Hx1]. split; [by apply round32_nonneg|].
  rewrite <- round32_1. by apply round32_mono.
Qed.



Lemma float32_unit (x : R) : (0 <= x <= 1)%R -> float32 x = Ok (round32 x).
Proof.
  intros Hx. pose proof (round32_unit x Hx) as [Hlo Hhi].
  unfold float32. rewrite decide_True; [reflexivity|].
  rewrite Rabs_pos_eq by exact Hlo.
  pose proof (pow2_lt 0 128 ltac:(lia)) as Hp. rewrite powerRZ_O in Hp. lra.
Qed.

(** ** Importance weights *)

Lemma np_max_is (arr : list R) (m : R) :
  m ∈ arr -> Forall (fun y => (y <= m)%R) arr -> np_max arr = Ok m.
Proof.
  intros Hin Hub. destruct arr as [|w ws]; [by apply elem_of_nil in Hin|].
  simpl. f_equal.
  pose proof (Rmax_list_elem w ws) as Hel.
  pose proof (Rmax_list_upper w ws) as Hup.
  rewrite Forall_forall in Hub. rewrite Forall_forall in Hup.
  specialize (Hub _ Hel). specialize (Hup _ Hin). simpl in *. lra.
Qed.

(** Dividing positive numbers by their maximum: all land in (0, 1] and
    the largest is exactly 1. *)
Lemma normalised_by_max (raws : list R) (m : R) :
  np_max raws = Ok m -> Forall (fun x => (0 < x)%R) raws ->
  (0 < m)%R ∧
  np_div raws m = Ok (map (fun x => (x / m)%R) raws) ∧
  Forall (fun w => (0 < w <= 1)%R) (map (fun x => (x / m)%R) raws) ∧
  np_max (map (fun x => (x / m)%R) raws) = Ok 1%R.
Proof.
  intros Hmax Hpos. apply np_max_spec in Hmax as Hm. destruct Hm as [Hin Hub].
  assert (Hm : (0 < m)%R).
  { rewrite Forall_forall in Hpos. by apply Hpos. }
  split; [exact Hm|].
  split; [unfold np_div; by rewrite decide_False by lra|].
  assert (Hw : Forall (fun w => (0 < w <= 1)%R) (map (fun x => (x / m)%R) raws)).
  { rewrite map_fmap. apply Forall_fmap.
    rewrite Forall_forall in Hpos. rewrite Forall_forall in Hub.
    apply Forall_forall. intros x Hx. simpl.
    specialize (Hpos x Hx). specialize (Hub x Hx). split.
    - by apply Rdiv_lt_0_compat.
    - replace 1%R with (m / m)%R by (field; lra). unfold Rdiv.
      apply Rmult_le_compat_r; [left; by apply Rinv_0_lt_compat|lra]. }
  split; [exact Hw|].
  apply np_max_is.
  - rewrite map_fmap. apply list_elem_of_fmap. exists m.
    split; [field; lra|exact Hin].
  - eapply Forall_impl; [exact Hw|]. simpl. intros w Hw'. lra.
Qed.

(** The cast keeps weights of the unit interval there, and keeps a
    largest weight of 1 at exactly 1. *)
Lemma np_array_float32_unit (ws : list R) :
  Forall (fun w => (0 <= w <= 1)%R) ws ->
  np_array_float32 ws = Ok (map round32 ws) ∧
  Forall (fun w => (0 <= w <= 1)%R) (map round32 ws) ∧
  (np_max ws = Ok 1%R -> np_max (map round32 ws) = Ok 1%R).
Proof.
  intros Hws. split; [|split].
  - unfold np_array_float32. apply mapR_total.
    eapply Forall_impl; [exact Hws|]. intros w Hw. by apply float32_unit.
  - rewrite map_fmap. apply Forall_fmap.
    eapply Forall_impl; [exact Hws|]. intros w Hw. by apply round32_unit.
  - intros Hmax. apply np_max_spec in Hmax as [Hin _]. apply np_max_is.
    + rewrite map_fmap. apply list_elem_of_fmap. exists 1%R.
      split; [by rewrite round32_1|exact Hin].
    + rewrite map_fmap. apply Forall_fmap.
      eapply Forall_impl; [exact Hws|]. intros w Hw. simpl.
      by apply round32_unit.
Qed.

Lemma sample_weights_Ok (total : nat) (probs : list R) (beta : R)
    (draws : list nat) :
  0 < total -> draws ≠ [] ->
  Forall (fun i => ∃ pi, probs !! i = Some pi ∧ (0 < pi)%R) draws ->
  ∃ m, np_max (map (raw_weight total probs beta) draws) = Ok m ∧
    (0 < m)%R ∧
    sample_weights total probs beta draws
      = Ok (map (fun i => round32 (raw_weight total probs beta i / m)) draws) ∧
    Forall (fun w => (0 <= w <= 1)%R)
      (map (fun i => round32 (raw_weight total probs beta i / m)) draws) ∧
    np_max (map (fun i => round32 (raw_weight total probs beta i / m)) draws)
      = Ok 1%R.
Proof.
  intros Htotal Hne Hdraws.
  set (raws := map (raw_weight total probs beta) draws).
  assert (Hraws : Forall (fun x => (0 < x)%R) raws).
  { unfold raws. rewrite map_fmap. apply Forall_fmap, Forall_forall.
    intros i _. apply Rpower_pos. }
  assert (∃ m, np_max raws = Ok m) as [m Hm].
  { unfold raws. destruct draws; [contradiction|]. simpl. eauto. }
  destruct (normalised_by_max raws m Hm Hraws) as (Hpos & Hdiv & Hw & Hone).
  exists m. split; [exact Hm|]. split; [exact Hpos|].
  assert (Hunit : Forall (fun w => (0 <= w <= 1)%R)
                    (map (fun x => (x / m)%R) raws)).
  { eapply Forall_impl; [exact Hw|]. simpl. intros w Hw'. lra. }
  destruct (np_array_float32_unit _ Hunit) as (Hcast & Hw32 & Hone32).
  assert (Hmm : map round32 (map (fun x => (x / m)%R) raws)
                = map (fun i => round32 (raw_weight total probs beta i / m))
                    draws).
  { unfold raws. by rewrite !map_map. }
  rewrite <- Hmm. split; [|split; [exact Hw32|by apply Hone32]].
  unfold sample_weights. rewrite mapR_get_nth; last first.
  { eapply Forall_impl; [exact Hdraws|]. intros i (pi & Hpi & _).
    by apply lookup_lt_Some in Hpi. }
  cbn [mbind result_bind]. rewrite map_map. rewrite np_pow_pos; last first.
  { apply Forall_fmap. eapply Forall_impl; [exact Hdraws|].
    intros i (pi & Hpi & Hpos'). simpl.
    rewrite (nth_lookup_Some _ _ _ _ Hpi).
    apply Rmult_lt_0_compat; [|exact Hpos'].
    apply lt_0_INR. lia. }
  cbn [mbind result_bind]. rewrite map_map. fold (raw_weight total probs beta).
  fold raws. rewrite Hm. cbn [mbind result_bind]. rewrite Hdiv.
  cbn [mbind result_bind]. exact Hcast.
Qed.

(** ** sample *)

Lemma torch_cat_Ok {A : Type} (xs : list A) : xs ≠ [] -> torch_cat xs = Ok xs.
Proof. destruct xs; [contradiction|reflexivity]. Qed.

Lemma meaningful_nonempty (b : PER) : wf b -> 0 < len b -> meaningful b ≠ [].
Proof.
  intros Hwf Hlen He. apply meaningful_length in Hwf. rewrite He in Hwf.
  simpl in Hwf. lia.
Qed.

Lemma admissible_inv (b : PER) (draws : list nat) :
  wf b -> positive_priorities b -> 0 < len b -> admissible b draws ->
  choice_outcome (len b) BATCH_SIZE
    (distribution (meaningful b) (prob_alpha b)) draws.
Proof.
  intros Hwf Hpos Hlen (probs & Hprobs & Hout).
  rewrite sample_probs_Ok in Hprobs by assumption.
  injection Hprobs as <-. exact Hout.
Qed.

(** The probabilities of a well-formed buffer with positive priorities,
    as [chosen] needs them. *)
Lemma distribution_chosen (b : PER) :
  wf b -> positive_priorities b -> 0 < len b ->
  let probs := distribution (meaningful b) (prob_alpha b) in
  length probs = len b ∧
  Forall (fun p => (0 < p)%R) probs ∧
  Forall (fun p => (0 <= p)%R) probs ∧
  np_sum probs = 1%R.
Proof.
  intros Hwf Hpos Hlen probs.
  destruct (distribution_spec (meaningful b) (prob_alpha b)
              (meaningful_nonempty b Hwf Hlen) Hpos)
    as (Hplen & Hppos & Hpsum & _).
  fold probs in Hplen, Hppos, Hpsum.
  rewrite meaningful_length in Hplen by exact Hwf.
  split; [exact Hplen|]. split; [exact Hppos|]. split; [|exact Hpsum].
  eapply Forall_impl; [exact Hppos|]. simpl. intros x Hx. lra.
Qed.

Lemma drawn_Ok (b : PER) (random_sample : nat -> R) :
  wf b -> positive_priorities b -> 0 < len b ->
  drawn b random_sample
  = map (fun k => chosen (distribution (meaningful b) (prob_alpha b))
                    (random_sample k)) (seq 0 BATCH_SIZE).
Proof. intros Hwf Hpos Hlen. unfold drawn. by rewrite sample_probs_Ok. Qed.

(** What the variates of a generator select is a batch of indices of
    non-zero probability. *)
Lemma drawn_admissible (b : PER) (random_sample : nat -> R) :
  wf b -> positive_priorities b -> 0 < len b -> uniform random_sample ->
  admissible b (drawn b random_sample).
Proof.
  intros Hwf Hpos Hlen Hu.
  exists (distribution (meaningful b) (prob_alpha b)).
  split; [by apply sample_probs_Ok|].
  destruct (distribution_chosen b Hwf Hpos Hlen) as (Hplen & _ & Hp0 & Hpsum).
  rewrite drawn_Ok by assumption.
  split; [by rewrite length_map, length_seq|].
  apply Forall_forall. intros i Hi.
  rewrite map_fmap in Hi. apply list_elem_of_fmap in Hi as (k & -> & _).
  destruct (chosen_possible _ (random_sample k) Hp0 Hpsum (Hu k))
    as [Hlt Hex].
  split; [|exact Hex]. unfold len in Hplen. lia.
Qed.

(** Every batch of indices of non-zero probability is selected by the
    variates of some generator. *)
Lemma admissible_drawn (b : PER) (draws : list nat) :
  wf b -> positive_priorities b -> 0 < len b -> admissible b draws ->
  ∃ random_sample, uniform random_sample ∧ drawn b random_sample = draws.
Proof.
  intros Hwf Hpos Hlen Hadm.
  pose proof (admissible_inv b draws Hwf Hpos Hlen Hadm) as [Hn Hdraws].
  destruct (distribution_chosen b Hwf Hpos Hlen) as (Hplen & _ & Hp0 & Hpsum).
  set (probs := distribution (meaningful b) (prob_alpha b)) in *.
  set (u := fun k => match draws !! k with
                     | Some i => np_sum (take i probs)
                     | None => 0%R
                     end).
  assert (Hsel : ∀ k i, draws !! k = Some i ->
            i < length probs ∧
            (np_sum (take i probs) <= u k < np_sum (take (S i) probs))%R).
  { intros k i Hk. unfold u. rewrite Hk.
    destruct (Forall_lookup_1 _ _ _ _ Hdraws Hk) as (Hi & pi & Hpi & Hpipos).
    split; [lia|]. rewrite (np_sum_take_S _ _ _ Hpi). lra. }
  exists u. split.
  - intros k. destruct (draws !! k) as [i|] eqn:Hk.
    + destruct (Hsel k i Hk) as [_ [Hlo Hhi]].
      pose proof (np_sum_nonneg (take i probs) (Forall_take _ _ _ Hp0)).
      pose proof (np_sum_take_le probs (S i) Hp0). lra.
    + unfold u. rewrite Hk. lra.
  - rewrite drawn_Ok by assumption. fold probs.
    apply list_eq. intros k. rewrite lookup_map.
    destruct (draws !! k) as [i|] eqn:Hk.
    + rewrite lookup_seq_lt by (apply lookup_lt_Some in Hk; lia). simpl.
      f_equal. apply chosen_iff; try assumption.
      * destruct (Hsel k i Hk) as [_ [Hlo Hhi]].
        pose proof (np_sum_nonneg (take i probs) (Forall_take _ _ _ Hp0)).
        pose proof (np_sum_take_le probs (S i) Hp0). lra.
      * by apply Hsel.
    + rewrite lookup_seq_ge by (apply lookup_ge_None in Hk; lia).
      reflexivity.
Qed.

(** On a well-formed buffer with positive priorities, [sample] returns
    for every output of the generator, with the batch spelled out;
    [draws] are the slots the variates select. *)
Lemma sample_Ok (b : PER) (beta : R) (random_sample : nat -> R)
    (draws : list nat) :
  wf b -> positive_priorities b -> 0 < len b -> admissible b draws ->
  drawn b random_sample = draws ->
  let probs := distribution (meaningful b) (prob_alpha b) in
  ∃ ts m,
    Forall2 (fun i t => memory b !! i = Some t) draws ts ∧
    np_max (map (raw_weight (len b) probs beta) draws) = Ok m ∧
    (0 < m)%R ∧
    Forall (fun w => (0 <= w <= 1)%R)
      (map (fun i => round32 (raw_weight (len b) probs beta i / m)) draws) ∧
    np_max (map (fun i => round32 (raw_weight (len b) probs beta i / m)) draws)
      = Ok 1%R ∧
    sample b beta random_sample =
      Ok {| states := map state ts;
            actions := map action ts;
            rewards := map reward ts;
            next_states := map next_state ts;
            dones := map done ts;
            indices := draws;
            weights := map (fun i => round32 (raw_weight (len b) probs beta i
                                               / m)) draws |}.
Proof.
  intros Hwf Hpos Hlen Hadm Hd probs.
  pose proof (admissible_inv b draws Hwf Hpos Hlen Hadm) as [Hsize Hdraws].
  fold probs in Hdraws.
  destruct (distribution_chosen b Hwf Hpos Hlen) as (Hplen & Hppos & _ & Hpsum).
  fold probs in Hplen, Hppos, Hpsum.
  assert (Hdne : draws ≠ []).
  { intros ->. simpl in Hsize. unfold BATCH_SIZE in Hsize. lia. }
  destruct (sample_weights_Ok (len b) probs beta draws Hlen Hdne)
    as (m & Hm & Hmpos & Hweights & Hw & Hone).
  { eapply Forall_impl; [exact Hdraws|]. intros i [_ Hi]. exact Hi. }
  destruct (mapR_get_Ok (memory b) draws) as (ts & Hts & Hall).
  { eapply Forall_impl; [exact Hdraws|]. intros i [Hi _]. exact Hi. }
  exists ts, m. do 5 (split; [assumption|]).
  assert (Htne : ts ≠ []).
  { intros ->. apply Forall2_length in Hall. simpl in Hall.
    destruct draws; [contradiction|discriminate]. }
  rewrite drawn_Ok in Hd by assumption. fold probs in Hd.
  unfold sample. rewrite sample_probs_Ok by assumption. fold probs.
  unfold len in *.
  rewrite np_random_choice_Ok by assumption. rewrite Hd.
  cbn [mbind result_bind].
  rewrite Hweights. cbn [mbind result_bind]. rewrite Hts.
  cbn [mbind result_bind].
  rewrite decide_False by exact Htne. cbn [mbind result_bind].
  rewrite !torch_cat_Ok by (destruct ts; [contradiction|discriminate]).
  reflexivity.
Qed.

Lemma admissible_replicate (b : PER) (i : nat) :
  wf b -> positive_priorities b -> i < len b ->
  admissible b (replicate BATCH_SIZE i).
Proof.
  intros Hwf Hpos Hi.
  exists (distribution (meaningful b) (prob_alpha b)).
  split; [apply sample_probs_Ok; [assumption..|lia]|].
  destruct (distribution_chosen b Hwf Hpos ltac:(lia)) as (Hplen & Hppos & _).
  split; [apply length_replicate|].
  apply Forall_replicate. split; [exact Hi|].
  destruct (lookup_lt_is_Some_2 (distribution (meaningful b) (prob_alpha b)) i)
    as [pi Hpi]; [lia|].
  exists pi. split; [exact Hpi|].
  by eapply Forall_lookup_1.
Qed.

Lemma map_const {A B : Type} (c : B) (l : list A) :
  map (fun _ => c) l = replicate (length l) c.
Proof. induction l as [|x l IH]; simpl; [reflexivity|]. by rewrite IH. Qed.

(** Variates of 0 select the first slot throughout. *)
Lemma drawn_first_slot (b : PER) :
  wf b -> positive_priorities b -> 0 < len b ->
  uniform first_slot ∧ drawn b first_slot = replicate BATCH_SIZE 0.
Proof.
  intros Hwf Hpos Hlen.
  assert (Hu : uniform first_slot) by (intros k; unfold first_slot; lra).
  split; [exact Hu|].
  destruct (distribution_chosen b Hwf Hpos Hlen) as (Hplen & Hppos & Hp0 & Hpsum).
  rewrite drawn_Ok by assumption. unfold first_slot.
  rewrite map_const, length_seq. f_equal.
  apply chosen_iff; [assumption|assumption|lra|].
  split; [lia|].
  destruct (lookup_lt_is_Some_2 (distribution (meaningful b) (prob_alpha b)) 0)
    as [p0 Hp]; [lia|].
  rewrite (np_sum_take_S _ _ _ Hp). simpl.
  pose proof (Forall_lookup_1 _ _ _ _ Hppos Hp) as Hp0pos. simpl in Hp0pos.
  lra.
Qed.


(** ** Uniform sampling for alpha = 0 *)

Lemma np_sum_replicate (n : nat) (x : R) :
  np_sum (replicate n x) = (INR n * x)%R.
Proof.
  induction n as [|n IH].
  - simpl. ring.
  - rewrite S_INR. simpl. rewrite IH. ring.
Qed.

Lemma distribution_uniform (prios : list R) :
  Forall (fun x => (0 < x)%R) prios ->
  distribution prios 0 = replicate (length prios) (1 / INR (length prios))%R.
Proof.
  intros Hpos. unfold distribution.
  assert (Hraw : map (fun x => Rpower x 0) prios = replicate (length prios) 1%R).
  { induction Hpos as [|x xs Hx _ IH]; simpl; [reflexivity|].
    rewrite IH, Rpower_O by exact Hx. reflexivity. }
  rewrite Hraw, np_sum_replicate, Rmult_1_r.
  rewrite map_fmap, fmap_replicate. reflexivity.
Qed.

(** C4. The probabilities [sample] hands to [np.random.choice] are the
    meaningful priorities (the first [size] entries of the store), each
    raised to the power alpha and divided by the sum of these powers:
    one positive probability per stored slot, summing to one. [sample]
    draws from that distribution: position [k] of the batch holds slot
    [i] exactly when the k-th uniform variate falls into the interval
    from the probabilities of the slots before [i] to those up to [i],
    an interval whose length is the probability of slot [i]. So every
    batch of slots of non-zero probability comes out for some output of
    the generator. With alpha = 0 every slot has probability
    [1 / size]. *)
Theorem sample_distribution (b : PER) :
  wf b -> positive_priorities b -> 0 < len b ->
  let prios := take (len b) (priorities b) in
  let probs := distribution prios (prob_alpha b) in
  sample_probs b = Ok probs ∧
  length probs = len b ∧
  np_sum probs = 1%R ∧
  (∀ i x, prios !! i = Some x ->
     probs !! i
     = Some (Rpower x (prob_alpha b)
             / np_sum (map (fun y => Rpower y (prob_alpha b)) prios))%R) ∧
  (∀ beta random_sample, uniform random_sample ->
     ∃ batch, sample b beta random_sample = Ok batch ∧
       ∀ k i, k < BATCH_SIZE ->
         indices batch !! k = Some i ↔
         i < len b ∧
         (np_sum (take i probs) <= random_sample k
          < np_sum (take i probs) + nth i probs 0)%R) ∧
  (∀ draws, choice_outcome (len b) BATCH_SIZE probs draws ->
     ∃ random_sample, uniform random_sample ∧
       ∀ beta, ∃ batch, sample b beta random_sample = Ok batch ∧
                        indices batch = draws) ∧
  (prob_alpha b = 0%R -> probs = replicate (len b) (1 / INR (len b))%R).
Proof.
  intros Hwf Hpos Hlen prios probs.
  change prios with (meaningful b) in *.
  destruct (distribution_chosen b Hwf Hpos Hlen) as (Hplen & Hppos & Hp0 & Hpsum).
  fold probs in Hplen, Hppos, Hp0, Hpsum.
  pose proof (sample_probs_Ok b Hwf Hpos Hlen) as Hprobs. fold probs in Hprobs.
  split; [exact Hprobs|].
  split; [exact Hplen|].
  split; [exact Hpsum|].
  split.
  { intros i x Hx. unfold probs, distribution.
    rewrite !map_fmap, !list_lookup_fmap, Hx. reflexivity. }
  split.
  { intros beta random_sample Hu.
    pose proof (drawn_admissible b random_sample Hwf Hpos Hlen Hu) as Hadm.
    destruct (sample_Ok b beta random_sample _ Hwf Hpos Hlen Hadm eq_refl)
      as (ts & m & _ & _ & _ & _ & _ & Hsample).
    eexists. split; [exact Hsample|]. cbn [indices].
    intros k i Hk. rewrite drawn_Ok by assumption. fold probs.
    rewrite lookup_map, lookup_seq_lt by exact Hk. simpl.
    split.
    - intros [= <-].
      destruct (proj1 (chosen_iff probs (random_sample k) _ Hp0 Hpsum (Hu k))
                  eq_refl) as [Hi Hint].
      split; [lia|].
      destruct (lookup_lt_is_Some_2 probs _ Hi) as [pi Hpi].
      rewrite (nth_lookup_Some _ _ _ _ Hpi).
      by rewrite <- (np_sum_take_S _ _ _ Hpi).
    - intros [Hi Hint]. f_equal.
      apply chosen_iff; [assumption|assumption|apply Hu|]. split; [lia|].
      destruct (lookup_lt_is_Some_2 probs i) as [pi Hpi]; [lia|].
      rewrite (nth_lookup_Some _ _ _ _ Hpi) in Hint.
      by rewrite (np_sum_take_S _ _ _ Hpi). }
  split.
  { intros draws Hout.
    assert (Hadm : admissible b draws) by (exists probs; by split).
    destruct (admissible_drawn b draws Hwf Hpos Hlen Hadm)
      as (random_sample & Hu & Hd).
    exists random_sample. split; [exact Hu|]. intros beta.
    destruct (sample_Ok b beta random_sample draws Hwf Hpos Hlen Hadm Hd)
      as (ts & m & _ & _ & _ & _ & _ & Hsample).
    eexists. split; [exact Hsample|]. reflexivity. }
  intros Halpha. unfold probs. rewrite Halpha.
  rewrite distribution_uniform by exact Hpos.
  by rewrite meaningful_length.
Qed.

(** ** The priorities a training step hands back *)

Lemma training_signal_Ok (policy_net target_net : Net) (batch : Batch)
    (prios : list (list R)) (loss : R) :
  training_signal policy_net target_net batch = Ok (prios, loss) ->
  ∃ q e diff,
    taken_q_values policy_net (states batch) (actions batch) = Ok q ∧
    expected_q_values target_net (rewards batch) (next_states batch) = Ok e ∧
    broadcast2 Rminus q e = Ok diff ∧
    prios = loss_prios (column_times_vector (map (fun d => (d * d)%R) diff)
                          (weights batch)).
Proof.
  unfold training_signal. intros H.
  apply bind_Ok in H as (nf & _ & H).
  apply bind_Ok in H as (q & Hq & H).
  apply bind_Ok in H as (e & He & H).
  apply bind_Ok in H as (l & Hl & H).
  apply bind_Ok in H as (l' & _ & H).
  injection H as <- <-.
  unfold loss_matrix in Hl. apply bind_Ok in Hl as (diff & Hdiff & [= <-]).
  exists q, e, diff. by repeat split.
Qed.

Lemma loss_prios_lookup (diff ws : list R) (i : nat) (d : R) :
  diff !! i = Some d ->
  loss_prios (column_times_vector (map (fun d => (d * d)%R) diff) ws) !! i
  = Some (map (fun w => (d * d * w + 1e-5)%R) ws).
Proof.
  intros Hd. unfold loss_prios, column_times_vector.
  rewrite !lookup_map, Hd. simpl. rewrite map_map. reflexivity.
Qed.

Lemma loss_prios_positive (diff ws : list R) :
  Forall (fun w => (0 <= w)%R) ws ->
  Forall (fun row => ∀ v, row !! 0 = Some v -> (0 < v)%R)
    (loss_prios (column_times_vector (map (fun d => (d * d)%R) diff) ws)).
Proof.
  intros Hws. apply Forall_lookup. intros i row Hrow v Hv.
  assert (is_Some (diff !! i)) as [d Hd].
  { apply lookup_lt_is_Some. apply lookup_lt_Some in Hrow.
    unfold loss_prios, column_times_vector in Hrow.
    by rewrite !length_map in Hrow. }
  rewrite (loss_prios_lookup diff ws i d Hd) in Hrow. injection Hrow as <-.
  rewrite lookup_map in Hv.
  destruct (ws !! 0) as [w|] eqn:Hw; [|discriminate].
  injection Hv as <-.
  pose proof (Forall_lookup_1 _ _ _ _ Hws Hw) as Hw0. simpl in Hw0.
  assert (0 <= d * d)%R by nra. nra.
Qed.

(** ** The invariant of reachable buffers *)

Lemma positive_insert (p : list R) (n n' i : nat) (m : R) :
  Forall (fun x => (0 < x)%R) (take n p) -> (0 < m)%R ->
  (∀ j, j < n' -> j ≠ i -> j < n) ->
  Forall (fun x => (0 < x)%R) (take n' (<[i:=m]> p)).
Proof.
  intros Hpos Hm Hidx. apply Forall_lookup. intros j x Hx.
  assert (Hj : j < n').
  { apply lookup_lt_Some in Hx. rewrite length_take in Hx. lia. }
  rewrite lookup_take_lt in Hx by exact Hj.
  rewrite list_lookup_insert in Hx. case_decide as Hc.
  - by injection Hx as <-.
  - destruct (decide (j = i)) as [->|Hne].
    + apply lookup_lt_Some in Hx. lia.
    + apply (Forall_lookup_1 _ _ j x Hpos).
      rewrite lookup_take_lt by (apply Hidx; assumption). exact Hx.
Qed.

Lemma push_positive (b b' : PER) (t : Transition) :
  wf b -> positive_priorities b -> push b t = Ok b' ->
  positive_priorities b'.
Proof.
  intros Hwf Hpos Hpush.
  destruct (push_Ok b t Hwf) as (m & Hm & Heq).
  rewrite Heq in Hpush. injection Hpush as <-.
  pose proof Hwf as (Hc & Hp & Hcur & Hlen & Hpre).
  unfold positive_priorities, meaningful in *. simpl.
  assert (Hmpos : (0 < m)%R).
  { destruct (decide (memory b = [])) as [He|Hne].
    - injection Hm as <-. lra.
    - apply np_max_spec in Hm as [_ Hub].
      destruct (memory b) as [|t0 mem] eqn:E; [contradiction|].
      destruct (priorities b) as [|p0 ps] eqn:Ep; [simpl in Hp; lia|].
      simpl in Hpos. apply Forall_cons in Hpos as [Hp0 _].
      apply Forall_cons in Hub as [Hub _]. lra. }
  apply positive_insert with (length (memory b)); [exact Hpos|exact Hmpos|].
  intros j Hj Hne. case_decide as Hfull.
  - rewrite length_app in Hj. simpl in Hj. specialize (Hpre Hfull). lia.
  - rewrite length_insert in Hj. exact Hj.
Qed.

Lemma optimize_model_inv (policy_net target_net : Net) (b b' : PER)
    (beta : R) (random_sample : nat -> R) (loss : option R) :
  wf b -> positive_priorities b -> uniform random_sample ->
  optimize_model policy_net target_net b beta random_sample = Ok (b', loss) ->
  wf b' ∧ positive_priorities b' ∧
  memory b' = memory b ∧ pos b' = pos b ∧ capacity b' = capacity b.
Proof.
  intros Hwf Hpos Hu Hrun. unfold optimize_model in Hrun.
  case_decide as Hsmall.
  { simplify_eq. split; [exact Hwf|]. split; [exact Hpos|]. done. }
  assert (Hsize : BATCH_SIZE ≤ len b) by lia.
  assert (Hlen : 0 < len b) by (unfold BATCH_SIZE in Hsize; lia).
  pose proof (drawn_admissible b random_sample Hwf Hpos Hlen Hu) as Hadm.
  set (draws := drawn b random_sample) in *.
  destruct (sample_Ok b beta random_sample draws Hwf Hpos Hlen Hadm eq_refl)
    as (ts & m & _ & _ & _ & Hw & _ & Hsample).
  rewrite Hsample in Hrun. cbn [mbind result_bind] in Hrun.
  apply bind_Ok in Hrun as ([prios l] & Hsig & Hrun).
  apply bind_Ok in Hrun as (b1 & Hupd & [= <- <-]).
  apply training_signal_Ok in Hsig as (q & e & diff & _ & _ & _ & Hprios).
  simpl in Hprios.
  unfold update_priorities in Hupd.
  apply bind_Ok in Hupd as (p' & Hloop & [= <-]).
  eapply (update_loop_keeps (fun v => (0 < v)%R)) in Hloop as [Hlen' Hkeep].
  - unfold wf, positive_priorities, meaningful in *. simpl.
    rewrite Hlen'. split; [exact Hwf|]. split; [|done].
    apply Hkeep, Hpos.
  - apply Forall_forall. intros [idx row] Hin. simpl.
    apply elem_of_zip_r in Hin. subst prios.
    pose proof (loss_prios_positive diff
      (map (fun i => round32 (raw_weight (len b)
                        (distribution (meaningful b) (prob_alpha b)) beta i
                      / m)) draws)) as Hrows.
    assert (Hw0 : Forall (fun w => (0 <= w)%R)
              (map (fun i => round32 (raw_weight (len b)
                                (distribution (meaningful b) (prob_alpha b))
                                beta i / m)) draws)).
    { eapply Forall_impl; [exact Hw|]. simpl. intros w Hw0. lra. }
    specialize (Hrows Hw0). rewrite Forall_forall in Hrows.
    apply Hrows. exact Hin.
Qed.

Lemma reachable_inv (b : PER) :
  reachable b -> wf b ∧ positive_priorities b.
Proof.
  induction 1 as [c alpha Hc|b b' t _ [Hwf Hpos] Hpush
                 |b b' pn tn beta rng loss _ [Hwf Hpos] Hu Hrun].
  - split; [by apply init_wf|]. unfold positive_priorities, meaningful.
    simpl. constructor.
  - split; [by apply (push_shape b b' t)|by apply (push_positive b b' t)].
  - destruct (optimize_model_inv pn tn b b' beta rng loss Hwf Hpos Hu Hrun)
      as (? & ? & _). by split.
Qed.

Lemma pushes_reachable (ts : list Transition) (b b' : PER) :
  reachable b -> pushes b ts = Ok b' -> reachable b'.
Proof.
  revert b. induction ts as [|t ts IH]; intros b Hb; simpl.
  - by intros [= <-].
  - intros H. apply bind_Ok in H as (b1 & Hpush & Hrun).
    apply (IH b1); [|exact Hrun]. by apply (reach_push b b1 t).
Qed.

(** C7. Every buffer the program can build, by pushes and training
    steps from a fresh buffer, has only strictly positive priorities in
    its meaningful region; so whenever it holds a transition the
    normaliser of [sample] is positive and the sampling probabilities
    are defined, positive and sum to one. *)
Theorem priorities_stay_positive (b : PER) :
  reachable b ->
  Forall (fun p => (0 < p)%R) (take (len b) (priorities b)) ∧
  (0 < len b ->
     (0 < np_sum (map (fun x => Rpower x (prob_alpha b))
                    (take (len b) (priorities b))))%R ∧
     ∃ probs, sample_probs b = Ok probs ∧
              length probs = len b ∧
              Forall (fun p => (0 < p)%R) probs ∧
              np_sum probs = 1%R).
Proof.
  intros Hreach. apply reachable_inv in Hreach as [Hwf Hpos].
  split; [exact Hpos|]. intros Hlen.
  assert (Hne : meaningful b ≠ []).
  { intros He. apply meaningful_length in Hwf as Hl. rewrite He in Hl.
    simpl in Hl. lia. }
  destruct (distribution_spec (meaningful b) (prob_alpha b) Hne Hpos)
    as (Hplen & Hppos & Hpsum & Hnorm).
  split; [exact Hnorm|].
  exists (distribution (meaningful b) (prob_alpha b)).
  split; [by apply sample_probs_Ok|].
  split; [by rewrite Hplen, meaningful_length|]. by split.
Qed.

(** ** The beta schedule *)

Lemma beta_by_frame_ramp (s : Z) :
  beta_by_frame s = Rmin 1 (0.4 + IZR s * 0.6 / 1000)%R.
Proof.
  unfold beta_by_frame, beta_start, beta_frames. f_equal. lra.
Qed.

(** C8. [beta_by_frame] is [min(1.0, beta_start + step * (1.0 -
    beta_start) / beta_frames)] with [beta_start = 0.4] and
    [beta_frames = 1000]; it is 0.4 at step 0, 0.7 at step 500 and 1.0 at
    step [beta_frames]; it never decreases as the step grows; and it is
    1.0 at every step from [beta_frames] on. *)
Theorem beta_schedule :
  (∀ s, beta_by_frame s
        = Rmin 1 (beta_start + IZR s * (1 - beta_start) / IZR beta_frames)) ∧
  beta_start = 0.4%R ∧
  beta_frames = 1000%Z ∧
  beta_by_frame 0 = 0.4%R ∧
  beta_by_frame 500 = 0.7%R ∧
  beta_by_frame beta_frames = 1%R ∧
  (∀ s s', (s <= s')%Z -> (beta_by_frame s <= beta_by_frame s')%R) ∧
  (∀ s, (beta_frames <= s)%Z -> beta_by_frame s = 1%R).
Proof.
  split; [reflexivity|]. split; [reflexivity|]. split; [reflexivity|].
  split; [|split; [|split; [|split]]].
  - rewrite beta_by_frame_ramp. unfold Rmin. destruct (Rle_dec _ _); lra.
  - rewrite beta_by_frame_ramp. unfold Rmin. destruct (Rle_dec _ _); lra.
  - unfold beta_frames. rewrite beta_by_frame_ramp. unfold Rmin.
    destruct (Rle_dec _ _); lra.
  - intros s s' Hle. rewrite !beta_by_frame_ramp. apply IZR_le in Hle.
    unfold Rmin. repeat destruct (Rle_dec _ _); lra.
  - intros s Hs. rewrite beta_by_frame_ramp. unfold beta_frames in Hs.
    apply IZR_le in Hs. unfold Rmin. destruct (Rle_dec _ _); lra.
Qed.

Lemma beta_schedule_witness :
  (beta_by_frame 0 <= beta_by_frame 500)%R ∧ beta_by_frame 2000 = 1%R.
Proof.
  destruct beta_schedule as (_ & _ & _ & _ & _ & _ & Hmono & Hclamp).
  split.
  - apply Hmono. lia.
  - apply Hclamp. unfold beta_frames. lia.
Defined.

(** ** Bootstrap targets *)

Lemma mask_count (ns : list (option Tensor)) :
  length (filter (fun b => b = true) (map is_not_None ns)) = length (present ns).
Proof.
  induction ns as [|[s|] ns IH]; [reflexivity| |exact IH].
  cbn [map is_not_None present omap list_omap].
  rewrite filter_cons_True by reflexivity. simpl. f_equal. exact IH.
Qed.

(** The masked write puts the [k]-th value into the [k]-th non-terminal
    slot and leaves the terminal slots as they were. *)
Lemma masked_fill_lookup (P : Tensor -> R -> Prop) (ns : list (option Tensor)) :
  ∀ zs best,
    length zs = length ns -> Forall2 P (present ns) best ->
    length (masked_fill zs (map is_not_None ns) best) = length zs ∧
    ∀ i, match ns !! i with
         | Some None => masked_fill zs (map is_not_None ns) best !! i = zs !! i
         | Some (Some s) =>
             ∃ m, masked_fill zs (map is_not_None ns) best !! i = Some m ∧ P s m
         | None => True
         end.
Proof.
  induction ns as [|[s|] ns IH]; intros zs best Hlen Hall.
  - destruct zs; [|discriminate]. simpl. split; [reflexivity|]. by intros i.
  - destruct zs as [|z zs]; [discriminate|]. simpl in Hlen.
    simpl in Hall. apply Forall2_cons_inv_l in Hall as (m & best' & Hm & Hall & ->).
    simpl. destruct (IH zs best' ltac:(lia) Hall) as [Hl Hi].
    split; [by rewrite Hl|]. intros [|i]; simpl; [eauto|apply Hi].
  - destruct zs as [|z zs]; [discriminate|]. simpl in Hlen.
    simpl in Hall. simpl. destruct (IH zs best ltac:(lia) Hall) as [Hl Hi].
    split; [by rewrite Hl|]. intros [|i]; simpl; [reflexivity|apply Hi].
Qed.

Lemma max1_rowwise (f : Tensor -> list R) (xs : list Tensor) :
  (∀ s, f s ≠ []) ->
  ∃ best, max1 (map f xs) = Ok best ∧
          Forall2 (fun s m => np_max (f s) = Ok m) xs best.
Proof.
  intros Hf. induction xs as [|x xs (best & Hbest & Hall)]; simpl.
  - exists []. split; [reflexivity|constructor].
  - destruct (f x) as [|v vs] eqn:E; [by apply Hf in E|].
    exists (Rmax_list v vs :: best). unfold max1 in *. simpl.
    rewrite Hbest. simpl. split; [reflexivity|].
    constructor; [by rewrite E|exact Hall].
Qed.

Lemma masked_assign_Ok (xs : list R) (mask : list bool) (vals : list R) :
  length mask = length xs ->
  length vals = length (filter (fun b => b = true) mask) ->
  masked_assign xs mask vals = Ok (masked_fill xs mask vals).
Proof.
  intros Hm Hv. unfold masked_assign.
  case_decide; [contradiction|]. case_decide; [reflexivity|contradiction].
Qed.

Lemma broadcast2_same (f : R -> R -> R) (xs ys : list R) :
  length xs = length ys -> broadcast2 f xs ys = Ok (zip_with f xs ys).
Proof.
  intros H. unfold broadcast2. case_decide; [reflexivity|contradiction].
Qed.

(** The targets depend on the target network only through its value on
    the batch of present next states. *)
Lemma expected_q_values_ext (target_net target_net' : Net) (rs : list R)
    (ns : list (option Tensor)) :
  target_net (present ns) = target_net' (present ns) ->
  expected_q_values target_net rs ns = expected_q_values target_net' rs ns.
Proof.
  intros Heq. unfold expected_q_values, non_final_next_states, torch_cat.
  destruct (present ns) as [|x xs] eqn:E; [reflexivity|].
  simpl. by rewrite Heq.
Qed.

Lemma present_elem (ns : list (option Tensor)) (x : Tensor) :
  x ∈ present ns ↔ Some x ∈ ns.
Proof.
  unfold present. rewrite list_elem_of_omap. split.
  - intros (s & Hs & ->). exact Hs.
  - intros Hx. eauto.
Qed.

Lemma expected_q_values_Ok (target_net : Net) (f : Tensor -> list R)
    (rs : list R) (ns : list (option Tensor)) :
  length ns = BATCH_SIZE -> length rs = BATCH_SIZE ->
  (∀ xs, target_net xs = map f xs) -> (∀ s, f s ≠ []) ->
  present ns ≠ [] ->
  ∃ e, expected_q_values target_net rs ns = Ok e ∧
    length e = BATCH_SIZE ∧
    ∀ i r, rs !! i = Some r ->
      match ns !! i with
      | Some None => e !! i = Some (0 * GAMMA + r)%R
      | Some (Some s) =>
          ∃ m, np_max (f s) = Ok m ∧ e !! i = Some (m * GAMMA + r)%R
      | None => True
      end.
Proof.
  intros Hns Hrs Hnet Hf Hne.
  unfold expected_q_values, non_final_next_states.
  rewrite torch_cat_Ok by exact Hne. cbn [mbind result_bind]. rewrite Hnet.
  destruct (max1_rowwise f (present ns) Hf) as (best & Hbest & Hall).
  rewrite Hbest. cbn [mbind result_bind].
  destruct (masked_fill_lookup (fun s m => np_max (f s) = Ok m) ns
              (replicate BATCH_SIZE 0%R) best) as [Hl Hi].
  { by rewrite length_replicate. }
  { exact Hall. }
  rewrite length_replicate in Hl.
  rewrite masked_assign_Ok.
  2: { rewrite length_map, length_replicate. lia. }
  2: { rewrite mask_count. symmetry. by apply Forall2_length in Hall. }
  cbn [mbind result_bind]. rewrite broadcast2_same by (rewrite length_map; lia).
  eexists. split; [reflexivity|].
  split; [rewrite length_zip_with, length_map; lia|].
  intros i r Hr. specialize (Hi i). rewrite lookup_zip_with, lookup_map, Hr.
  destruct (ns !! i) as [[s|]|] eqn:Hn; [| |exact I].
  - destruct Hi as (m & Hm & Hmax). exists m. split; [exact Hmax|].
    by rewrite Hm.
  - rewrite Hi. rewrite (proj2 (lookup_replicate BATCH_SIZE 0%R 0%R i)).
    + reflexivity.
    + split; [reflexivity|]. apply lookup_lt_Some in Hn. lia.
Qed.

Lemma Forall2_map_lookup {A B C : Type} (R : A -> B -> Prop) (g : B -> C)
    (xs : list A) (ys : list B) (i : nat) (x : A) :
  Forall2 R xs ys -> xs !! i = Some x ->
  ∃ y, R x y ∧ map g ys !! i = Some (g y).
Proof.
  intros Hall Hx.
  destruct (Forall2_lookup_l _ _ _ _ _ Hall Hx) as (y & Hy & HR).
  exists y. split; [exact HR|]. by rewrite lookup_map, Hy.
Qed.

(** C9. In a training step on a batch that [sample] returns, with a
    target network that values each state of its batch by [f]:
    - row [i] of the batch carries the reward and the next state of the
      transition drawn at position [i];
    - the batch handed to the target network is the list of the next
      states that are present, in order, so no terminal entry is in it,
      and the targets depend on the target network through its value on
      that batch only;
    - when the targets are computed, the target of a terminal row is its
      reward alone, and the target of a non-terminal row is its reward
      plus [GAMMA] times the largest action value of its next state;
    - the targets are computed whenever some row is non-terminal. *)
Theorem bootstrap_targets (b : PER) (beta : R) (random_sample : nat -> R)
    (target_net : Net) (f : Tensor -> list R) :
  wf b -> positive_priorities b -> BATCH_SIZE ≤ len b ->
  uniform random_sample ->
  (∀ xs, target_net xs = map f xs) -> (∀ s, f s ≠ []) ->
  ∃ batch, sample b beta random_sample = Ok batch ∧
    (∀ i idx t, indices batch !! i = Some idx -> memory b !! idx = Some t ->
       rewards batch !! i = Some (reward t) ∧
       next_states batch !! i = Some (next_state t)) ∧
    (∀ xs, non_final_next_states (next_states batch) = Ok xs ->
       xs = present (next_states batch) ∧
       ∀ x, x ∈ xs ↔ Some x ∈ next_states batch) ∧
    (∀ target_net' : Net,
       target_net' (present (next_states batch))
         = target_net (present (next_states batch)) ->
       expected_q_values target_net' (rewards batch) (next_states batch)
       = expected_q_values target_net (rewards batch) (next_states batch)) ∧
    (∀ e, expected_q_values target_net (rewards batch) (next_states batch)
            = Ok e ->
       length e = BATCH_SIZE ∧
       ∀ i r, rewards batch !! i = Some r ->
         (next_states batch !! i = Some None -> e !! i = Some r) ∧
         (∀ s, next_states batch !! i = Some (Some s) ->
            ∃ m, np_max (f s) = Ok m ∧ e !! i = Some (r + GAMMA * m)%R)) ∧
    ((∃ s, Some s ∈ next_states batch) ->
       ∃ e, expected_q_values target_net (rewards batch) (next_states batch)
              = Ok e).
Proof.
  intros Hwf Hpos Hsize Hu Hnet Hf.
  assert (Hlen : 0 < len b) by (unfold BATCH_SIZE in Hsize; lia).
  pose proof (drawn_admissible b random_sample Hwf Hpos Hlen Hu) as Hadm.
  set (draws := drawn b random_sample) in *.
  destruct (sample_Ok b beta random_sample draws Hwf Hpos Hlen Hadm eq_refl)
    as (ts & m & Hts & _ & _ & _ & _ & Hsample).
  pose proof (admissible_inv b draws Hwf Hpos Hlen Hadm) as [Hn _].
  eexists. split; [exact Hsample|].
  cbn [states actions rewards next_states weights indices].
  assert (Hlts : length ts = BATCH_SIZE).
  { apply Forall2_length in Hts. lia. }
  assert (Htotal : present (map next_state ts) ≠ [] ->
    ∃ e, expected_q_values target_net (map reward ts) (map next_state ts) = Ok e ∧
      length e = BATCH_SIZE ∧
      ∀ i r, map reward ts !! i = Some r ->
        match map next_state ts !! i with
        | Some None => e !! i = Some (0 * GAMMA + r)%R
        | Some (Some s) =>
            ∃ m, np_max (f s) = Ok m ∧ e !! i = Some (m * GAMMA + r)%R
        | None => True
        end).
  { intros Hne. apply expected_q_values_Ok; try assumption.
    - by rewrite length_map.
    - by rewrite length_map. }
  split; [|split; [|split; [|split]]].
  - intros i idx t Hi Ht.
    destruct (Forall2_lookup_l _ _ _ _ _ Hts Hi) as (t' & Ht' & Hm).
    rewrite Ht in Hm. injection Hm as <-.
    by rewrite !lookup_map, Ht'.
  - intros xs Hxs. unfold non_final_next_states, torch_cat in Hxs.
    destruct (present (map next_state ts)) as [|x0 xs0] eqn:E; [discriminate|].
    injection Hxs as <-. split; [reflexivity|].
    intros x. rewrite <- E. apply present_elem.
  - intros tn' Heq. by apply expected_q_values_ext.
  - intros e He.
    assert (Hne : present (map next_state ts) ≠ []).
    { intros Hnil. unfold expected_q_values, non_final_next_states in He.
      rewrite Hnil in He. discriminate. }
    destruct (Htotal Hne) as (e' & He' & Hle & Hrows).
    rewrite He in He'. injection He' as <-.
    split; [exact Hle|]. intros i r Hr. specialize (Hrows i r Hr).
    split.
    + intros Hnone. rewrite Hnone in Hrows. rewrite Hrows. f_equal. lra.
    + intros s Hs. rewrite Hs in Hrows. destruct Hrows as (mx & Hmx & Hei).
      exists mx. split; [exact Hmx|]. rewrite Hei. f_equal. lra.
  - intros (s & Hs). apply present_elem in Hs.
    destruct Htotal as (e & He & _); [|eauto].
    intros Hnil. rewrite Hnil in Hs. by apply elem_of_nil in Hs.
Qed.

(** ** The whole training step *)

Lemma gather_rowwise (g : Tensor -> list R) (sts : list Tensor)
    (acts : list nat) :
  Forall2 (fun s a => a < length (g s)) sts acts ->
  ∃ q, gather (map g sts) acts = Ok q ∧ length q = length acts.
Proof.
  intros Hall. unfold gather.
  rewrite decide_False
    by (rewrite length_map; apply Forall2_length in Hall; lia).
  induction Hall as [|s a sts acts Ha _ (q & Hq & Hl)]; simpl.
  - by exists [].
  - apply lookup_lt_is_Some_2 in Ha as [v Hv].
    exists (v :: q). rewrite Hv. cbn [mbind result_bind].
    change (zip_with pair (map g sts) acts) with (zip (map g sts) acts).
    rewrite Hq. simpl. by rewrite Hl.
Qed.

Lemma mean_Ok (t : list (list R)) :
  concat t ≠ [] -> ∃ l, mean t = Ok l.
Proof.
  intros Hne. unfold mean. rewrite decide_False by exact Hne. eauto.
Qed.

Lemma training_signal_total (policy_net target_net : Net)
    (g f : Tensor -> list R) (batch : Batch) :
  length (rewards batch) = BATCH_SIZE ->
  length (next_states batch) = BATCH_SIZE ->
  length (weights batch) = BATCH_SIZE ->
  length (actions batch) = BATCH_SIZE ->
  (∀ xs, policy_net xs = map g xs) ->
  (∀ xs, target_net xs = map f xs) ->
  (∀ s, f s ≠ []) ->
  Forall2 (fun s a => a < length (g s)) (states batch) (actions batch) ->
  present (next_states batch) ≠ [] ->
  ∃ prios loss, training_signal policy_net target_net batch = Ok (prios, loss) ∧
    length prios = BATCH_SIZE ∧ Forall (fun row => row ≠ []) prios.
Proof.
  intros Hr Hn Hw Ha Hpn Htn Hf Hact Hne.
  destruct (gather_rowwise g _ _ Hact) as (q & Hq & Hlq).
  destruct (expected_q_values_Ok target_net f _ _ Hn Hr Htn Hf Hne)
    as (e & He & Hle & _).
  unfold training_signal, non_final_next_states, taken_q_values.
  rewrite torch_cat_Ok by exact Hne. cbn [mbind result_bind].
  rewrite Hpn, Hq. cbn [mbind result_bind]. rewrite He.
  cbn [mbind result_bind]. unfold loss_matrix.
  rewrite broadcast2_same by lia. cbn [mbind result_bind].
  set (loss := column_times_vector _ _).
  assert (Hll : length loss = BATCH_SIZE).
  { unfold loss, column_times_vector.
    rewrite !length_map, length_zip_with. lia. }
  assert (Hrows : Forall (fun row => length row = BATCH_SIZE) loss).
  { unfold loss, column_times_vector. apply Forall_forall. intros row Hrow.
    rewrite map_fmap in Hrow. apply list_elem_of_fmap in Hrow as (c & -> & _).
    by rewrite length_map. }
  destruct (mean_Ok loss) as [l Hl].
  { destruct loss as [|row rows]; [discriminate|].
    apply Forall_cons in Hrows as [Hrow _].
    destruct row; [discriminate|]. simpl. discriminate. }
  rewrite Hl. cbn [mbind result_bind].
  eexists _, _. split; [reflexivity|].
  unfold loss_prios. split; [by rewrite length_map|].
  rewrite map_fmap. apply Forall_fmap.
  eapply Forall_impl; [exact Hrows|]. intros row Hrow. simpl.
  destruct row; [discriminate|]. discriminate.
Qed.

(** The step returns on batches with a non-terminal row when both
    networks value every state of a batch on its own and every stored
    action has a value. *)
Lemma optimize_model_total (policy_net target_net : Net)
    (g f : Tensor -> list R) (b : PER) (beta : R)
    (random_sample : nat -> R) (draws : list nat) :
  wf b -> positive_priorities b -> BATCH_SIZE ≤ len b -> admissible b draws ->
  drawn b random_sample = draws ->
  (∀ xs, policy_net xs = map g xs) ->
  (∀ xs, target_net xs = map f xs) ->
  (∀ s, f s ≠ []) ->
  Forall (fun t => action t < length (g (state t))) (memory b) ->
  (∃ idx t s, idx ∈ draws ∧ memory b !! idx = Some t ∧ next_state t = Some s) ->
  ∃ b' loss,
    optimize_model policy_net target_net b beta random_sample
    = Ok (b', Some loss).
Proof.
  intros Hwf Hpos Hsize Hadm Hd Hpn Htn Hf Hact (idx & t & s & Hidx & Ht & Hs).
  assert (Hlen : 0 < len b) by (unfold BATCH_SIZE in Hsize; lia).
  destruct (sample_Ok b beta random_sample draws Hwf Hpos Hlen Hadm Hd)
    as (ts & m & Hts & _ & _ & _ & _ & Hsample).
  pose proof (admissible_inv b draws Hwf Hpos Hlen Hadm) as [Hn Hdraws].
  assert (Hlts : length ts = BATCH_SIZE).
  { apply Forall2_length in Hts. lia. }
  set (batch := {| states := map state ts; actions := map action ts;
                   rewards := map reward ts;
                   next_states := map next_state ts; dones := map done ts;
                   indices := draws;
                   weights := map _ draws |}) in Hsample.
  destruct (training_signal_total policy_net target_net g f batch)
    as (prios & loss & Hsig & Hlp & Hrows); try assumption;
    try (simpl; by rewrite length_map).
  { simpl. apply Forall2_fmap. apply Forall_Forall2_diag.
    apply Forall_forall. intros t' Ht'.
    apply list_elem_of_lookup in Ht' as [i Hi].
    destruct (Forall2_lookup_r _ _ _ _ _ Hts Hi) as (j & _ & Hj).
    rewrite Forall_forall in Hact. apply Hact.
    apply list_elem_of_lookup. eauto. }
  { simpl. apply list_elem_of_lookup in Hidx as [i Hi].
    destruct (Forall2_lookup_l _ _ _ _ _ Hts Hi) as (t' & Ht' & Hm).
    rewrite Ht in Hm. injection Hm as <-.
    intros Hnil.
    assert (Hin : s ∈ present (map next_state ts)).
    { apply present_elem. rewrite <- Hs.
      apply list_elem_of_lookup. exists i. by rewrite lookup_map, Ht'. }
    rewrite Hnil in Hin. by apply elem_of_nil in Hin. }
  unfold optimize_model. rewrite decide_False by lia.
  rewrite Hsample. cbn [mbind result_bind]. rewrite Hsig.
  cbn [mbind result_bind]. unfold update_priorities.
  destruct (update_loop_Ok (zip (map Z.of_nat (indices batch)) prios)
              (priorities b)) as [p' Hp'].
  - apply Forall_forall. intros [i row] Hin.
    apply elem_of_zip_l in Hin as Hi. apply elem_of_zip_r in Hin as Hr.
    rewrite Forall_forall in Hrows. simpl. split; [|by apply Hrows].
    simpl in Hi. rewrite map_fmap in Hi.
    apply list_elem_of_fmap in Hi as (k & -> & Hk).
    rewrite Forall_forall in Hdraws. destruct (Hdraws k Hk) as [Hk' _].
    destruct Hwf as (_ & Hp & _ & Hcap & _). unfold len in *. lia.
  - rewrite Hp'. cbn [mbind result_bind]. eauto.
Qed.

Lemma gather_length (qv : list (list R)) (acts : list nat) (q : list R) :
  gather qv acts = Ok q -> length q = length acts.
Proof.
  unfold gather. case_decide as Hlt; [discriminate|]. intros Hq.
  apply mapR_Ok_length in Hq. rewrite length_zip_with in Hq. lia.
Qed.

Lemma masked_fill_length (xs : list R) (mask : list bool) (vals : list R) :
  length (masked_fill xs mask vals) = length xs.
Proof.
  revert mask vals. induction xs as [|x xs IH]; intros mask vals.
  - by destruct mask as [|[|] ?].
  - destruct mask as [|[|] mask]; [reflexivity| |].
    + destruct vals; simpl; by rewrite IH.
    + simpl. by rewrite IH.
Qed.

Lemma expected_q_values_length (target_net : Net) (rs : list R)
    (ns : list (option Tensor)) (e : list R) :
  length rs = BATCH_SIZE ->
  expected_q_values target_net rs ns = Ok e -> length e = BATCH_SIZE.
Proof.
  intros Hrs He. unfold expected_q_values in He.
  apply bind_Ok in He as (nf & _ & He).
  apply bind_Ok in He as (best & _ & He).
  apply bind_Ok in He as (nq & Hnq & He).
  assert (Hl : length nq = BATCH_SIZE).
  { unfold masked_assign in Hnq. case_decide; [discriminate|].
    case_decide.
    - apply Ok_inj in Hnq. rewrite <- Hnq, masked_fill_length.
      apply length_replicate.
    - destruct best as [|v [|? ?]]; try discriminate.
      apply Ok_inj in Hnq. rewrite <- Hnq, masked_fill_length.
      apply length_replicate. }
  rewrite broadcast2_same in He by (rewrite length_map; lia).
  injection He as <-. rewrite length_zip_with, length_map. lia.
Qed.

(** What a step that returns has handed to [update_priorities]. *)
Lemma optimize_model_prios (policy_net target_net : Net) (b b' : PER)
    (beta : R) (random_sample : nat -> R) (draws : list nat)
    (loss : option R) :
  wf b -> positive_priorities b -> BATCH_SIZE ≤ len b -> admissible b draws ->
  drawn b random_sample = draws ->
  optimize_model policy_net target_net b beta random_sample = Ok (b', loss) ->
  ∃ batch q e prios l,
    sample b beta random_sample = Ok batch ∧
    loss = Some l ∧
    taken_q_values policy_net (states batch) (actions batch) = Ok q ∧
    expected_q_values target_net (rewards batch) (next_states batch) = Ok e ∧
    length q = BATCH_SIZE ∧ length e = BATCH_SIZE ∧
    training_signal policy_net target_net batch = Ok (prios, l) ∧
    update_priorities b (map Z.of_nat (indices batch)) prios = Ok b' ∧
    ∀ i qi ei, q !! i = Some qi -> e !! i = Some ei ->
      prios !! i
      = Some (map (fun w => ((qi - ei) * (qi - ei) * w + 1e-5)%R)
                (weights batch)).
Proof.
  intros Hwf Hpos Hsize Hadm Hd Hrun.
  assert (Hlen : 0 < len b) by (unfold BATCH_SIZE in Hsize; lia).
  destruct (sample_Ok b beta random_sample draws Hwf Hpos Hlen Hadm Hd)
    as (ts & m & Hts & _ & _ & _ & _ & Hsample).
  pose proof (admissible_inv b draws Hwf Hpos Hlen Hadm) as [Hn _].
  assert (Hlts : length ts = BATCH_SIZE).
  { apply Forall2_length in Hts. lia. }
  unfold optimize_model in Hrun. rewrite decide_False in Hrun by lia.
  rewrite Hsample in Hrun. cbn [mbind result_bind] in Hrun.
  apply bind_Ok in Hrun as ([prios l] & Hsig & Hrun).
  apply bind_Ok in Hrun as (b1 & Hupd & Hret).
  injection Hret as <- <-.
  pose proof Hsig as Hsig'.
  apply training_signal_Ok in Hsig' as (q & e & diff & Hq & He & Hdiff & Hprios).
  cbn [states actions rewards next_states weights indices] in *.
  assert (Hlq : length q = BATCH_SIZE).
  { unfold taken_q_values in Hq. apply gather_length in Hq.
    by rewrite Hq, length_map. }
  assert (Hle : length e = BATCH_SIZE).
  { eapply expected_q_values_length; [|exact He]. by rewrite length_map. }
  rewrite broadcast2_same in Hdiff by lia. injection Hdiff as <-.
  eexists _, q, e, prios, l. split; [exact Hsample|].
  cbn [states actions rewards next_states weights indices].
  do 7 (split; [done|]).
  intros i qi ei Hqi Hei. rewrite Hprios.
  erewrite loss_prios_lookup; [reflexivity|].
  by rewrite lookup_zip_with, Hqi, Hei.
Qed.


(** ** A batch of terminal transitions *)

Lemma present_all_None (ts : list Transition) :
  Forall (fun t => next_state t = None) ts -> present (map next_state ts) = [].
Proof.
  induction 1 as [|t ts Ht _ IH]; [reflexivity|].
  cbn [map]. rewrite Ht. exact IH.
Qed.

Lemma optimize_model_all_terminal (policy_net target_net : Net) (b : PER)
    (beta : R) (random_sample : nat -> R) (draws : list nat) :
  wf b -> positive_priorities b -> BATCH_SIZE ≤ len b -> admissible b draws ->
  drawn b random_sample = draws ->
  (∀ idx t, idx ∈ draws -> memory b !! idx = Some t -> next_state t = None) ->
  optimize_model policy_net target_net b beta random_sample
  = Raise RuntimeError.
Proof.
  intros Hwf Hpos Hsize Hadm Hd Hterm.
  assert (Hlen : 0 < len b) by (unfold BATCH_SIZE in Hsize; lia).
  destruct (sample_Ok b beta random_sample draws Hwf Hpos Hlen Hadm Hd)
    as (ts & m & Hts & _ & _ & _ & _ & Hsample).
  unfold optimize_model. rewrite decide_False by lia.
  rewrite Hsample. cbn [mbind result_bind].
  unfold training_signal, non_final_next_states.
  cbn [states actions rewards next_states weights indices].
  rewrite present_all_None; [reflexivity|].
  apply Forall_lookup. intros i t Ht.
  destruct (Forall2_lookup_r _ _ _ _ _ Hts Ht) as (idx & Hidx & Hmem).
  apply (Hterm idx); [|exact Hmem]. by eapply list_elem_of_lookup_2.
Qed.

(** C10. After [BATCH_SIZE] pushes of terminal transitions into a fresh
    buffer that has room for them, the buffer holds [BATCH_SIZE]
    transitions, the training step samples, and whatever the networks,
    beta and the output of the generator, it raises at [torch.cat] of
    the empty list of non-terminal next states instead of returning:
    [optimize_model] is not total on the batches it can draw. *)
Theorem all_terminal_batch_raises (c : nat) (alpha : R) :
  BATCH_SIZE ≤ c ->
  ∃ b,
    pushes (init c alpha) (replicate BATCH_SIZE t_final) = Ok b ∧
    reachable b ∧
    BATCH_SIZE ≤ len b ∧
    ∀ random_sample, uniform random_sample ->
      (∃ batch, sample b 0.4%R random_sample = Ok batch ∧
                Forall (fun s => s = None) (next_states batch) ∧
                non_final_next_states (next_states batch)
                = Raise RuntimeError) ∧
      ∀ (policy_net target_net : Net) (beta : R),
        optimize_model policy_net target_net b beta random_sample
        = Raise RuntimeError.
Proof.
  intros Hcap.
  assert (Hc : 0 < c) by (unfold BATCH_SIZE in Hcap; lia).
  destruct (pushes_shape (replicate BATCH_SIZE t_final) (init c alpha)
              (init_wf c alpha Hc)) as (b & Hrun & Hwf & _).
  assert (Hmem : memory b = replicate BATCH_SIZE t_final).
  { apply (pushes_init_small c alpha); [lia| |exact Hrun].
    by rewrite length_replicate. }
  assert (Hreach : reachable b).
  { apply (pushes_reachable (replicate BATCH_SIZE t_final) (init c alpha) b);
      [|exact Hrun].
    by apply reach_init. }
  pose proof (reachable_inv b Hreach) as [_ Hpos].
  assert (Hlen : len b = BATCH_SIZE).
  { unfold len. by rewrite Hmem, length_replicate. }
  assert (Hterm : ∀ idx t, memory b !! idx = Some t -> next_state t = None).
  { intros idx t Ht. rewrite Hmem in Ht.
    apply lookup_replicate in Ht as [-> _]. reflexivity. }
  exists b.
  split; [exact Hrun|]. split; [exact Hreach|]. split; [lia|].
  intros random_sample Hu.
  assert (Hlen0 : 0 < len b) by (rewrite Hlen; unfold BATCH_SIZE; lia).
  pose proof (drawn_admissible b random_sample Hwf Hpos Hlen0 Hu) as Hadm.
  split.
  - destruct (sample_Ok b 0.4%R random_sample _ Hwf Hpos Hlen0 Hadm eq_refl)
      as (ts & m & Hts & _ & _ & _ & _ & Hsample).
    eexists. split; [exact Hsample|].
    cbn [next_states].
    assert (Hall : Forall (fun t => next_state t = None) ts).
    { apply Forall_lookup. intros i t Ht.
      destruct (Forall2_lookup_r _ _ _ _ _ Hts Ht) as (idx & _ & Hm).
      by apply (Hterm idx). }
    split.
    + rewrite map_fmap. apply Forall_fmap.
      eapply Forall_impl; [exact Hall|]. by intros t Ht.
    + unfold non_final_next_states. by rewrite present_all_None.
  - intros pn tn beta.
    apply (optimize_model_all_terminal pn tn b beta random_sample
             (drawn b random_sample)); try assumption.
    + lia.
    + reflexivity.
    + intros idx t _ Ht. by apply (Hterm idx).
Qed.

Lemma all_terminal_batch_raises_witness :
  BATCH_SIZE ≤ 64 ∧
  ∃ b,
    pushes (init 64 0.6%R) (replicate BATCH_SIZE t_final) = Ok b ∧
    BATCH_SIZE ≤ len b ∧
    ∀ (policy_net target_net : Net) (beta : R),
      optimize_model policy_net target_net b beta first_slot
      = Raise RuntimeError.
Proof.
  assert (H : BATCH_SIZE ≤ 64) by (unfold BATCH_SIZE; lia).
  split; [exact H|].
  destruct (all_terminal_batch_raises 64 0.6%R H)
    as (b & Hrun & _ & Hlen & Hraise).
  exists b. split; [exact Hrun|]. split; [exact Hlen|].
  apply Hraise. intros k. unfold first_slot. lra.
Defined.

(** ** The claims at concrete inputs *)

Lemma full_shape (alpha p0 : R) (ps : list R) :
  length ps = 31 ->
  wf {| prob_alpha := alpha; capacity := 32; memory := replicate 32 t_step;
        pos := 0; priorities := p0 :: ps |}.
Proof.
  intros Hps. unfold wf. simpl. rewrite Hps. repeat split; lia.
Qed.

Lemma full_buffer_wf : wf full_buffer.
Proof. by apply full_shape. Qed.

Lemma full_buffer_positive : positive_priorities full_buffer.
Proof.
  unfold positive_priorities, meaningful.
  apply Forall_take, Forall_replicate. lra.
Qed.

Lemma uniform_buffer_wf : wf uniform_buffer.
Proof. by apply full_shape. Qed.

Lemma uniform_buffer_positive : positive_priorities uniform_buffer.
Proof.
  unfold positive_priorities, meaningful.
  apply Forall_take, Forall_replicate. lra.
Qed.

Lemma skewed_buffer_wf : wf skewed_buffer.
Proof. by apply full_shape. Qed.

Lemma skewed_buffer_positive : positive_priorities skewed_buffer.
Proof.
  unfold positive_priorities, meaningful. apply Forall_take.
  constructor; [lra|]. apply Forall_replicate. lra.
Qed.

Lemma push_fifo_witness :
  0 < 3 ∧
  ∃ b, pushes (init 3 0.6%R)
         [marked 1; marked 2; marked 3; marked 4; marked 5] = Ok b ∧
       len b = 3 ∧ pos b = 2 ∧
       chron b = [marked 3; marked 4; marked 5] ∧
       memory b ≡ₚ [marked 3; marked 4; marked 5] ∧
       memory b !! 2 = Some (marked 3).
Proof.
  assert (H : 0 < 3) by lia. split; [exact H|].
  destruct (push_fifo 3 0.6%R
              [marked 1; marked 2; marked 3; marked 4; marked 5] H)
    as (b & Hrun & Hlen & Hpos & _ & Hchron & Hperm & _ & Hfull).
  exists b. simpl in Hlen, Hpos, Hchron, Hperm, Hfull.
  destruct Hfull as [Hold _]; [lia|]. rewrite Hpos in Hold.
  by repeat split.
Defined.

Lemma two_slots_wf : wf two_slots.
Proof. unfold wf. simpl. repeat split; lia. Qed.

Lemma push_priority_witness :
  wf two_slots ∧
  ∃ b' v, push two_slots t_step = Ok b' ∧
          priorities b' !! 0 = Some v ∧
          np_max [1%R; 1%R] = Ok v.
Proof.
  split; [exact two_slots_wf|].
  destruct (push_priority two_slots t_step two_slots_wf)
    as (b' & v & Hpush & Hv & _ & Hmax).
  exists b', v. split; [exact Hpush|]. split; [exact Hv|].
  apply Hmax. discriminate.
Defined.

Lemma full_buffer_admissible : admissible full_buffer (replicate BATCH_SIZE 0).
Proof.
  apply admissible_replicate;
    [exact full_buffer_wf|exact full_buffer_positive|].
  unfold len. simpl. lia.
Qed.

Lemma full_buffer_size : BATCH_SIZE ≤ len full_buffer.
Proof. unfold len, BATCH_SIZE. simpl. lia. Qed.

Lemma uniform_first_slot : uniform first_slot.
Proof. intros k. unfold first_slot. lra. Qed.

Lemma full_buffer_drawn :
  drawn full_buffer first_slot = replicate BATCH_SIZE 0.
Proof.
  apply drawn_first_slot;
    [exact full_buffer_wf|exact full_buffer_positive|].
  unfold len. simpl. lia.
Qed.


Lemma sample_distribution_witness :
  wf uniform_buffer ∧ positive_priorities uniform_buffer ∧
  0 < len uniform_buffer ∧ prob_alpha uniform_buffer = 0%R ∧
  sample_probs uniform_buffer = Ok (replicate 32 (1 / INR 32)%R).
Proof.
  assert (Hlen : 0 < len uniform_buffer) by (unfold len; simpl; lia).
  split; [exact uniform_buffer_wf|]. split; [exact uniform_buffer_positive|].
  split; [exact Hlen|]. split; [reflexivity|].
  destruct (sample_distribution uniform_buffer
              uniform_buffer_wf uniform_buffer_positive Hlen)
    as (Hprobs & _ & _ & _ & _ & _ & Huniform).
  rewrite Hprobs. f_equal. apply Huniform. reflexivity.
Defined.

Lemma one_pushed_reachable : reachable one_pushed.
Proof.
  apply (reach_push (init 2 0.6%R) one_pushed t_step).
  - apply reach_init. lia.
  - reflexivity.
Qed.

Lemma priorities_stay_positive_witness :
  reachable one_pushed ∧
  Forall (fun p => (0 < p)%R) (take (len one_pushed) (priorities one_pushed)) ∧
  ∃ probs, sample_probs one_pushed = Ok probs ∧ np_sum probs = 1%R.
Proof.
  split; [exact one_pushed_reachable|].
  destruct (priorities_stay_positive one_pushed one_pushed_reachable)
    as [Hpos Hdist].
  split; [exact Hpos|].
  destruct Hdist as (_ & probs & Hprobs & _ & _ & Hsum).
  - unfold len. simpl. lia.
  - exists probs. by split.
Defined.

Lemma admissible_in_range (b : PER) (draws : list nat) :
  wf b -> positive_priorities b ->
  length draws = BATCH_SIZE -> Forall (fun i => i < len b) draws ->
  draws ≠ [] ->
  admissible b draws.
Proof.
  intros Hwf Hpos Hn Hrange Hne.
  assert (Hlen : 0 < len b).
  { destruct draws as [|i ?]; [contradiction|].
    apply Forall_cons in Hrange as [Hi _]. simpl in Hi. lia. }
  exists (distribution (meaningful b) (prob_alpha b)).
  split; [by apply sample_probs_Ok|].
  assert (Hm : meaningful b ≠ []).
  { intros He. apply meaningful_length in Hwf. rewrite He in Hwf.
    simpl in Hwf. lia. }
  destruct (distribution_spec (meaningful b) (prob_alpha b) Hm Hpos)
    as (Hplen & Hppos & _ & _).
  rewrite meaningful_length in Hplen by exact Hwf.
  split; [exact Hn|].
  eapply Forall_impl; [exact Hrange|]. intros i Hi. simpl in Hi.
  split; [exact Hi|].
  destruct (lookup_lt_is_Some_2 (distribution (meaningful b) (prob_alpha b)) i)
    as [pi Hpi]; [lia|].
  exists pi. split; [exact Hpi|]. by eapply Forall_lookup_1.
Qed.




Lemma bootstrap_targets_witness :
  wf full_buffer ∧ positive_priorities full_buffer ∧
  BATCH_SIZE ≤ len full_buffer ∧
  uniform first_slot ∧
  ∃ batch e,
    sample full_buffer 0.4%R first_slot = Ok batch ∧
    expected_q_values zero_target (rewards batch) (next_states batch) = Ok e ∧
    e !! 0 = Some (0 + GAMMA * 0)%R.
Proof.
  split; [exact full_buffer_wf|]. split; [exact full_buffer_positive|].
  split; [exact full_buffer_size|]. split; [exact uniform_first_slot|].
  destruct (bootstrap_targets full_buffer 0.4%R first_slot
              zero_target (fun _ => [0%R])
              full_buffer_wf full_buffer_positive full_buffer_size
              uniform_first_slot)
    as (batch & Hs & Hrows & _ & _ & Hval & Htotal).
  - reflexivity.
  - discriminate.
  - assert (Hidx : indices batch !! 0 = Some 0).
    { assert (Hlen : 0 < len full_buffer) by (unfold len; simpl; lia).
      destruct (sample_Ok full_buffer 0.4%R first_slot _
                  full_buffer_wf full_buffer_positive Hlen
                  full_buffer_admissible full_buffer_drawn)
        as (ts & m & _ & _ & _ & _ & _ & Hs').
      rewrite Hs in Hs'. apply Ok_inj in Hs'. by rewrite Hs'. }
    destruct (Hrows 0 0 t_step) as [Hr Hn]; [exact Hidx|reflexivity|].
    destruct Htotal as [e He].
    { exists [1%R]. by eapply list_elem_of_lookup_2. }
    exists batch, e. split; [exact Hs|]. split; [exact He|].
    destruct (Hval e He) as [_ Hrow].
    destruct (Hrow 0 _ Hr) as [_ Hstep].
    destruct (Hstep _ Hn) as (m & Hm & He0).
    simpl in Hm. injection Hm as <-. exact He0.
Defined.

Lemma full_buffer_actions :
  Forall (fun t => action t < length [1%R]) (memory full_buffer).
Proof. apply Forall_replicate. simpl. lia. Qed.


Lemma skewed_buffer_size : BATCH_SIZE ≤ len skewed_buffer.
Proof. unfold len, BATCH_SIZE. simpl. lia. Qed.

Lemma skewed_draws_admissible : admissible skewed_buffer skewed_draws.
Proof.
  apply admissible_in_range;
    [exact skewed_buffer_wf|exact skewed_buffer_positive|reflexivity| |
     discriminate].
  unfold skewed_draws, len. simpl length.
  constructor; [lia|]. apply Forall_replicate. lia.
Qed.

(** [4 ** 0.6], the power of the priority of slot 0 of [skewed_buffer]. *)
Lemma skewed_power : (2 < Rpower 4 0.6 < 2.6)%R.
Proof.
  assert (H5 : (Rpower 4 0.6 ^ 5 = 64)%R).
  { rewrite <- Rpower_pow by apply Rpower_pos. rewrite Rpower_mult.
    replace (0.6 * INR 5)%R with (INR 3) by (simpl; lra).
    rewrite Rpower_pow by lra. lra. }
  pose proof (Rpower_pos 4 0.6) as Hpos. set (A := Rpower 4 0.6) in *.
  split.
  - destruct (Rlt_le_dec 2 A) as [H|H]; [exact H|].
    assert (A ^ 5 <= 2 ^ 5)%R by (apply pow_incr; lra). lra.
  - destruct (Rlt_le_dec A 2.6) as [H|H]; [exact H|].
    assert (2.6 ^ 5 <= A ^ 5)%R by (apply pow_incr; lra). lra.
Qed.

Lemma Rpower_base_one (a : R) : Rpower 1 a = 1%R.
Proof. unfold Rpower. by rewrite ln_1, Rmult_0_r, exp_0. Qed.

(** The sampling probabilities of [skewed_buffer]. *)
Lemma skewed_probs :
  distribution (meaningful skewed_buffer) 0.6%R
  = (Rpower 4 0.6 / (Rpower 4 0.6 + 31))%R
    :: replicate 31 (1 / (Rpower 4 0.6 + 31))%R.
Proof.
  assert (Hm : meaningful skewed_buffer = 4%R :: replicate 31 1%R)
    by reflexivity.
  rewrite Hm. unfold distribution. cbn [map].
  rewrite !map_fmap, !fmap_replicate, Rpower_base_one.
  cbn [np_sum foldr]. fold (np_sum (replicate 31 1%R)).
  rewrite np_sum_replicate.
  replace (INR 31 * 1)%R with 31%R by (simpl; lra).
  reflexivity.
Qed.

Lemma uniform_skewed_sample : uniform skewed_sample.
Proof. intros [|k]; simpl; lra. Qed.

(** The variates of [skewed_sample] select slot 0, then slot 1. *)
Lemma skewed_buffer_drawn : drawn skewed_buffer skewed_sample = skewed_draws.
Proof.
  assert (Hlen : 0 < len skewed_buffer) by (unfold len; simpl; lia).
  destruct (distribution_chosen skewed_buffer skewed_buffer_wf
              skewed_buffer_positive Hlen) as (Hplen & _ & Hp0 & Hpsum).
  rewrite drawn_Ok
    by (exact skewed_buffer_wf || exact skewed_buffer_positive || exact Hlen).
  change (prob_alpha skewed_buffer) with 0.6%R in *.
  pose proof skewed_power as [HA1 HA2].
  set (A := Rpower 4 0.6) in *.
  assert (HS : (0 < A + 31)%R) by lra.
  assert (Hc0 : chosen (distribution (meaningful skewed_buffer) 0.6) 0 = 0).
  { apply chosen_iff; [assumption|assumption|lra|].
    split; [lia|]. rewrite skewed_probs. fold A. simpl.
    assert (0 < A / (A + 31))%R by (by apply Rdiv_lt_0_compat; lra). lra. }
  assert (Hc1 : chosen (distribution (meaningful skewed_buffer) 0.6) 0.08 = 1).
  { apply chosen_iff; [assumption|assumption|lra|].
    split; [change (len skewed_buffer) with 32 in Hplen; lia|].
    rewrite skewed_probs. fold A. simpl.
    assert (Hq0 : (A / (A + 31) <= 0.08)%R).
    { apply (Rmult_le_reg_r (A + 31)); [exact HS|].
      unfold Rdiv. rewrite Rmult_assoc, Rinv_l by lra. lra. }
    assert (Hq1 : (0.08 < A / (A + 31) + 1 / (A + 31))%R).
    { replace (A / (A + 31) + 1 / (A + 31))%R
        with ((A + 1) / (A + 31))%R by (field; lra).
      apply (Rmult_lt_reg_r (A + 31)); [exact HS|].
      unfold Rdiv. rewrite Rmult_assoc, Rinv_l by lra. lra. }
    lra. }
  unfold skewed_draws. change (seq 0 BATCH_SIZE) with (0 :: seq 1 31).
  cbn [map skewed_sample]. rewrite Hc0. f_equal.
  transitivity (map (fun _ : nat => 1) (seq 1 31));
    [|by rewrite map_const, length_seq].
  apply map_ext_in. intros k Hk. apply in_seq in Hk.
  destruct k as [|k]; [lia|]. exact Hc1.
Qed.







(** * Further properties of the code *)

(** ** push: seeding of priorities *)

(** A buffer built with capacity 0 accepts no push: the write into the
    empty memory raises IndexError, whatever is pushed. *)
Theorem pushes_capacity_zero (alpha : R) (t : Transition)
    (ts : list Transition) :
  push (init 0 alpha) t = Raise IndexError ∧
  pushes (init 0 alpha) (t :: ts) = Raise IndexError.
Proof. split; reflexivity. Qed.

Lemma np_max_seeded (size c : nat) :
  0 < size -> np_max (seeded_store size c) = Ok 1%R.
Proof.
  intros Hsize. unfold seeded_store.
  destruct (np_max (replicate size 1%R ++ replicate (c - size) 0%R))
    as [m| |] eqn:Hm.
  - apply np_max_spec in Hm as [Hin Hub]. f_equal.
    assert (H1 : (1 <= m)%R).
    { rewrite Forall_forall in Hub. apply Hub.
      apply elem_of_app. left. apply elem_of_replicate. split; [done|lia]. }
    apply elem_of_app in Hin as [Hin|Hin];
      apply elem_of_replicate in Hin as [-> _]; lra.
  - destruct size; [lia|discriminate].
  - destruct size; [lia|discriminate].
Qed.

Lemma push_seeded (b b' : PER) (t : Transition) :
  wf b -> priorities b = seeded_store (len b) (capacity b) ->
  push b t = Ok b' ->
  priorities b' = seeded_store (len b') (capacity b').
Proof.
  intros Hwf Hseed Hpush.
  destruct (push_shape b b' t Hwf Hpush) as (_ & Hcap & _ & _ & Hlen & _).
  destruct (push_Ok b t Hwf) as (m & Hm & Heq).
  rewrite Heq in Hpush. apply Ok_inj in Hpush. subst b'.
  simpl in *. rewrite Hlen. clear Hlen Heq.
  destruct Hwf as (Hc & Hp & Hpos & Hle & Hpre). unfold len in *.
  assert (Hm1 : m = 1%R).
  { destruct (decide (memory b = [])) as [He|Hne].
    - by apply Ok_inj in Hm.
    - rewrite Hseed, np_max_seeded in Hm.
      + by apply Ok_inj in Hm.
      + destruct (memory b); [contradiction|simpl; lia]. }
  subst m. rewrite Hseed. unfold seeded_store.
  destruct (decide (length (memory b) < capacity b)) as [Hlt|Hge].
  - rewrite (Hpre Hlt), Nat.min_l by lia.
    rewrite insert_app_r_alt by (rewrite length_replicate; lia).
    rewrite length_replicate, Nat.sub_diag.
    replace (capacity b - length (memory b))
      with (S (capacity b - (length (memory b) + 1))) by lia.
    simpl. rewrite Nat.add_1_r, replicate_S_end, <- app_assoc. reflexivity.
  - replace (capacity b - length (memory b)) with 0 by lia.
    rewrite Nat.min_r by lia.
    replace (capacity b - capacity b) with 0 by lia.
    simpl. rewrite !app_nil_r, insert_replicate. f_equal. lia.
Qed.

Lemma pushes_seeded (ts : list Transition) (b b' : PER) :
  wf b -> priorities b = seeded_store (len b) (capacity b) ->
  pushes b ts = Ok b' ->
  priorities b' = seeded_store (len b') (capacity b').
Proof.
  revert b. induction ts as [|t ts IH]; intros b Hwf Hseed; simpl.
  - intros H. apply Ok_inj in H. by subst b'.
  - intros H. apply bind_Ok in H as (b1 & Hpush & Hrun).
    apply (IH b1); [|by apply (push_seeded b b1 t)|exact Hrun].
    by apply (push_shape b b1 t).
Qed.

Lemma init_seeded (c : nat) (alpha : R) :
  priorities (init c alpha) = seeded_store (len (init c alpha)) c.
Proof. unfold seeded_store, len. simpl. by rewrite Nat.sub_0_r. Qed.

(** Pushes alone never produce a priority other than 1.0: after any run
    of pushes into a fresh buffer, the slots that hold a transition
    have priority exactly 1.0 and the others are still 0. *)
Theorem pushes_seed_priorities (c : nat) (alpha : R) (ts : list Transition) :
  0 < c ->
  ∃ b, pushes (init c alpha) ts = Ok b ∧
       priorities b
       = replicate (Nat.min (length ts) c) 1%R
         ++ replicate (c - length ts) 0%R.
Proof.
  intros Hc.
  destruct (pushes_shape ts (init c alpha) (init_wf c alpha Hc))
    as (b & Hrun & _ & Hcap & _ & _ & Hlen & _).
  exists b. split; [exact Hrun|].
  rewrite (pushes_seeded ts (init c alpha) b (init_wf c alpha Hc)
             (init_seeded c alpha) Hrun).
  simpl in Hcap, Hlen. rewrite Hcap, Hlen. unfold seeded_store.
  f_equal. f_equal. lia.
Qed.

Lemma pushes_seed_priorities_witness :
  0 < 3 ∧
  ∃ b, pushes (init 3 0.6%R) [marked 1; marked 2] = Ok b ∧
       priorities b = [1%R; 1%R; 0%R].
Proof.
  assert (H : 0 < 3) by lia. split; [exact H|].
  destruct (pushes_seed_priorities 3 0.6%R [marked 1; marked 2] H)
    as (b & Hrun & Hp).
  exists b. split; [exact Hrun|exact Hp].
Defined.

(** A reachable buffer that holds nothing still has its initial store. *)
Lemma reachable_empty (b : PER) :
  reachable b -> memory b = [] -> Forall (fun p => p = 0%R) (priorities b).
Proof.
  induction 1 as [c alpha Hc|b b' t Hb IH Hpush
                 |b b' pn tn beta draws loss Hb IH Hadm Hrun]; intros Hmem.
  - simpl. by apply Forall_replicate.
  - apply reachable_inv in Hb as [Hwf _].
    destruct (push_shape b b' t Hwf Hpush) as (_ & _ & _ & _ & Hlen & _).
    destruct Hwf as (Hc & _). unfold len in Hlen. rewrite Hmem in Hlen.
    simpl in Hlen. lia.
  - apply reachable_inv in Hb as [Hwf Hpos].
    destruct (optimize_model_inv pn tn b b' beta draws loss Hwf Hpos Hadm Hrun)
      as (_ & _ & Hm & _).
    rewrite Hmem in Hm. unfold optimize_model in Hrun.
    rewrite decide_True in Hrun
      by (unfold len, BATCH_SIZE; rewrite <- Hm; simpl; lia).
    injection Hrun as <- _. by apply IH.
Qed.

(** What [push] has just stored is the top priority of the store: in a
    buffer the program can build, after a push no slot has a larger
    priority than the slot just written. *)
Theorem pushed_slot_has_top_priority (b b' : PER) (t : Transition) :
  reachable b -> push b t = Ok b' ->
  ∃ v, priorities b' !! pos b = Some v ∧
       Forall (fun p => (p <= v)%R) (priorities b').
Proof.
  intros Hreach Hpush.
  pose proof (reachable_inv b Hreach) as [Hwf _].
  destruct (push_Ok b t Hwf) as (m & Hm & Heq).
  rewrite Heq in Hpush. apply Ok_inj in Hpush. subst b'. simpl.
  destruct Hwf as (Hc & Hp & Hpos & _).
  exists m. split; [apply list_lookup_insert_eq; lia|].
  apply Forall_insert; [|lra].
  destruct (decide (memory b = [])) as [He|Hne].
  - apply Ok_inj in Hm. subst m.
    eapply Forall_impl; [exact (reachable_empty b Hreach He)|].
    intros p ->. lra.
  - by apply np_max_spec in Hm as [_ Hub].
Qed.

Lemma pushed_slot_has_top_priority_witness :
  reachable one_pushed ∧
  ∃ b' v, push one_pushed t_final = Ok b' ∧
          priorities b' !! 1 = Some v ∧
          Forall (fun p => (p <= v)%R) (priorities b').
Proof.
  split; [exact one_pushed_reachable|].
  destruct (push_Ok one_pushed t_final) as (m & _ & Heq).
  { unfold wf. simpl. repeat split; lia. }
  destruct (pushed_slot_has_top_priority one_pushed _ t_final
              one_pushed_reachable Heq) as (v & Hv & Hall).
  eexists _, v. split; [exact Heq|]. split; [exact Hv|exact Hall].
Defined.

(** ** update_priorities: what is written, what is kept, what raises *)

Lemma np_set_length (p p' : list R) (idx : Z) (v : R) :
  np_set p idx v = Ok p' -> length p' = length p.
Proof.
  unfold np_set. intros H. apply bind_Ok in H as (i & _ & H).
  apply Ok_inj in H. subst p'. apply length_insert.
Qed.

Lemma update_loop_untouched (pairs : list (Z * list R)) (p p' : list R)
    (j : nat) :
  update_loop p pairs = Ok p' ->
  Forall (fun pair => np_index (length p) pair.1 ≠ Ok j) pairs ->
  p' !! j = p !! j.
Proof.
  revert p. induction pairs as [|[idx row] pairs IH]; intros p; simpl.
  - intros H _. apply Ok_inj in H. by subst.
  - intros Hrun Hall. apply Forall_cons in Hall as [Hne Hall]. simpl in Hne.
    apply bind_Ok in Hrun as (v & _ & Hrun).
    apply bind_Ok in Hrun as (p1 & Hset & Hrun).
    pose proof (np_set_length _ _ _ _ Hset) as Hl.
    rewrite (IH p1 Hrun) by (by rewrite Hl).
    unfold np_set in Hset. apply bind_Ok in Hset as (i & Hi & Hset).
    apply Ok_inj in Hset. subst p1.
    apply list_lookup_insert_ne. intros ->. by apply Hne.
Qed.

Lemma update_loop_last (pre post : list (Z * list R)) (idx : Z)
    (row p p' : list R) (j : nat) :
  update_loop p (pre ++ (idx, row) :: post) = Ok p' ->
  np_index (length p) idx = Ok j ->
  Forall (fun pair => np_index (length p) pair.1 ≠ Ok j) post ->
  p' !! j = row !! 0.
Proof.
  revert p. induction pre as [|[idx0 row0] pre IH]; intros p; simpl.
  - intros Hrun Hj Hpost.
    apply bind_Ok in Hrun as (v & Hv & Hrun).
    apply bind_Ok in Hrun as (p1 & Hset & Hrun).
    pose proof (np_set_length _ _ _ _ Hset) as Hl.
    rewrite (update_loop_untouched post p1 p' j Hrun) by (by rewrite Hl).
    unfold np_set in Hset. rewrite Hj in Hset. apply Ok_inj in Hset.
    subst p1. rewrite list_lookup_insert_eq by (by apply np_index_Ok in Hj).
    unfold get in Hv. destruct (row !! 0); [|discriminate].
    by apply Ok_inj in Hv as ->.
  - intros Hrun Hj Hpost.
    apply bind_Ok in Hrun as (v & _ & Hrun).
    apply bind_Ok in Hrun as (p1 & Hset & Hrun).
    pose proof (np_set_length _ _ _ _ Hset) as Hl.
    apply (IH p1 Hrun); by rewrite Hl.
Qed.

(** A call that returns has touched the priority store only: memory,
    cursor, capacity and alpha are as before and the store keeps its
    length. A slot no paired index points at keeps its priority; a
    slot that paired indices point at ends with the first element of
    the payload of the last such pair. *)
Theorem update_priorities_last_write_wins (b b' : PER) (idxs : list Z)
    (rows : list (list R)) :
  update_priorities b idxs rows = Ok b' ->
  let n := length (priorities b) in
  memory b' = memory b ∧ pos b' = pos b ∧ capacity b' = capacity b ∧
  prob_alpha b' = prob_alpha b ∧
  length (priorities b') = n ∧
  (∀ j, Forall (fun pair => np_index n pair.1 ≠ Ok j) (zip idxs rows) ->
        priorities b' !! j = priorities b !! j) ∧
  (∀ pre idx row post j,
     zip idxs rows = pre ++ (idx, row) :: post ->
     np_index n idx = Ok j ->
     Forall (fun pair => np_index n pair.1 ≠ Ok j) post ->
     priorities b' !! j = row !! 0).
Proof.
  intros Hrun n. unfold update_priorities in Hrun.
  apply bind_Ok in Hrun as (p' & Hloop & Hret).
  apply Ok_inj in Hret. subst b'. simpl.
  do 4 (split; [reflexivity|]).
  split.
  { eapply (update_loop_keeps (fun _ => True)) in Hloop as [Hl _];
      [exact Hl|]. apply Forall_forall. by intros. }
  split.
  - intros j Hall. by apply (update_loop_untouched _ _ _ _ Hloop).
  - intros pre idx row post j Hzip Hj Hpost. rewrite Hzip in Hloop.
    by apply (update_loop_last pre post idx row (priorities b)).
Qed.

Lemma update_priorities_last_write_wins_witness :
  update_priorities two_slots [0%Z; 1%Z; 0%Z] [[5%R]; [6%R]; [7%R]]
    = Ok {| prob_alpha := 0.6%R; capacity := 2;
            memory := [t_step; t_final]; pos := 0;
            priorities := [7%R; 6%R] |} ∧
  [7%R; 6%R] !! 0 = [7%R] !! 0.
Proof.
  assert (H : update_priorities two_slots [0%Z; 1%Z; 0%Z]
                [[5%R]; [6%R]; [7%R]]
              = Ok {| prob_alpha := 0.6%R; capacity := 2;
                      memory := [t_step; t_final]; pos := 0;
                      priorities := [7%R; 6%R] |}) by reflexivity.
  split; [exact H|].
  destruct (update_priorities_last_write_wins _ _ _ _ H)
    as (_ & _ & _ & _ & _ & _ & Hlast).
  apply (Hlast [(0%Z, [5%R]); (1%Z, [6%R])] 0%Z [7%R] [] 0);
    [reflexivity|reflexivity|constructor].
Defined.

Lemma update_loop_raises (pairs : list (Z * list R)) (p : list R) :
  Exists (fun pair => ¬ ((- Z.of_nat (length p) <= pair.1
                          < Z.of_nat (length p))%Z ∧ pair.2 ≠ [])) pairs ->
  update_loop p pairs = Raise IndexError.
Proof.
  revert p. induction pairs as [|[idx row] pairs IH]; intros p Hex.
  - by apply Exists_nil in Hex.
  - simpl. destruct row as [|v row]; [reflexivity|]. simpl.
    unfold np_set, np_index.
    destruct (decide (0 <= idx < Z.of_nat (length p))%Z) as [Hin|Hout].
    + simpl. apply IH. rewrite length_insert.
      apply Exists_cons in Hex as [Hbad|Hex]; [|exact Hex].
      exfalso. apply Hbad. simpl. split; [lia|discriminate].
    + destruct (decide (- Z.of_nat (length p) <= idx < 0)%Z) as [Hneg|Hout'].
      * simpl. apply IH. rewrite length_insert.
        apply Exists_cons in Hex as [Hbad|Hex]; [|exact Hex].
        exfalso. apply Hbad. simpl. split; [lia|discriminate].
      * reflexivity.
Qed.

(** [update_priorities] raises exactly when a paired index lies outside
    [-n, n) for a store of [n] slots or a paired payload is empty, and
    then it raises IndexError; otherwise it returns. *)
Theorem update_priorities_raises_iff (b : PER) (idxs : list Z)
    (rows : list (list R)) :
  let n := Z.of_nat (length (priorities b)) in
  let writable pair := (- n <= pair.1 < n)%Z ∧ pair.2 ≠ [] in
  (Forall writable (zip idxs rows) ->
   ∃ b', update_priorities b idxs rows = Ok b') ∧
  (¬ Forall writable (zip idxs rows) ->
   update_priorities b idxs rows = Raise IndexError).
Proof.
  intros n writable. split.
  - intros Hall. unfold update_priorities.
    destruct (update_loop_Ok (zip idxs rows) (priorities b) Hall) as [p' Hp'].
    rewrite Hp'. simpl. eauto.
  - intros Hnot. unfold update_priorities.
    rewrite update_loop_raises; [reflexivity|].
    apply not_Forall_Exists; [|exact Hnot].
    intros [idx row]. unfold writable. simpl.
    destruct (decide (- n <= idx < n)%Z); [|right; tauto].
    destruct row; [right; tauto|left; split; [done|discriminate]].
Qed.

Lemma update_priorities_raises_iff_witness :
  (∃ b', update_priorities two_slots [(-1)%Z] [[5%R]] = Ok b') ∧
  update_priorities two_slots [2%Z] [[5%R]] = Raise IndexError ∧
  update_priorities two_slots [0%Z] [[]] = Raise IndexError.
Proof.
  split; [|split].
  - apply (update_priorities_raises_iff two_slots [(-1)%Z] [[5%R]]).
    repeat constructor; simpl; [lia..|discriminate].
  - apply (update_priorities_raises_iff two_slots [2%Z] [[5%R]]).
    intros H. apply Forall_cons in H as [[H _] _]. simpl in H. lia.
  - apply (update_priorities_raises_iff two_slots [0%Z] [[]]).
    intros H. apply Forall_cons in H as [[_ H] _]. by apply H.
Defined.

Lemma np_index_wrap (n : nat) (i : Z) :
  (0 <= i < Z.of_nat n)%Z ->
  np_index n (i - Z.of_nat n) = np_index n i.
Proof.
  intros Hi. unfold np_index.
  rewrite (decide_True (P := (0 <= i < Z.of_nat n)%Z)) by exact Hi.
  rewrite decide_False by lia. rewrite decide_True by lia.
  f_equal. lia.
Qed.

Lemma update_loop_wrap (idxs : list Z) (rows : list (list R)) (p : list R) :
  Forall (fun i => (0 <= i < Z.of_nat (length p))%Z) idxs ->
  update_loop p (zip (map (fun i => (i - Z.of_nat (length p))%Z) idxs) rows)
  = update_loop p (zip idxs rows).
Proof.
  revert rows p. induction idxs as [|i idxs IH]; intros rows p Hall.
  - reflexivity.
  - apply Forall_cons in Hall as [Hi Hall].
    destruct rows as [|row rows]; [reflexivity|]. simpl.
    destruct (get row 0) as [v| |]; [|reflexivity..]. simpl.
    unfold np_set. rewrite np_index_wrap by exact Hi.
    destruct (np_index (length p) i) as [k| |]; [|reflexivity..]. simpl.
    rewrite <- (IH rows (<[k:=v]> p)) by (by rewrite length_insert).
    by rewrite length_insert.
Qed.

(** Negative indices count from the end of the store, as in numpy:
    addressing every slot [i] as [i - n] writes the same priorities. *)
Theorem update_priorities_negative_indices (b : PER) (idxs : list Z)
    (rows : list (list R)) :
  let n := Z.of_nat (length (priorities b)) in
  Forall (fun i => (0 <= i < n)%Z) idxs ->
  update_priorities b (map (fun i => (i - n)%Z) idxs) rows
  = update_priorities b idxs rows.
Proof.
  intros n Hall. unfold update_priorities.
  by rewrite update_loop_wrap.
Qed.

Lemma update_priorities_negative_indices_witness :
  update_priorities two_slots [(-2)%Z; (-1)%Z] [[5%R]; [6%R]]
  = update_priorities two_slots [0%Z; 1%Z] [[5%R]; [6%R]].
Proof.
  apply (update_priorities_negative_indices two_slots [0%Z; 1%Z]).
  repeat constructor; simpl; lia.
Defined.

(** ** sample: edge cases of the distribution *)

Lemma np_pow_zero_exponent (arr : list R) :
  np_pow arr 0 = Ok (replicate (length arr) 1%R).
Proof.
  assert (Hint : integral 0 = Some 0%Z).
  { unfold integral, Int_part.
    rewrite <- (tech_up 0 1) by lra.
    rewrite decide_True by reflexivity. reflexivity. }
  assert (Hpow : ∀ x, npow x 0 = Some 1%R).
  { intros x. unfold npow.
    destruct (decide (0 < x)%R) as [Hx|Hx]; [by rewrite Rpower_O|].
    destruct (decide (x = 0%R)) as [->|Hx0].
    - rewrite decide_False by lra. by rewrite decide_True.
    - rewrite Hint. reflexivity. }
  unfold np_pow. induction arr as [|x xs IH]; [reflexivity|].
  simpl. rewrite Hpow. simpl. rewrite IH. reflexivity.
Qed.

(** With [prob_alpha = 0] the probabilities are uniform whatever the
    stored priorities are, zero and negative ones included. *)
Theorem sample_uniform_for_alpha_zero (b : PER) :
  wf b -> 0 < len b -> prob_alpha b = 0%R ->
  sample_probs b = Ok (replicate (len b) (1 / INR (len b))%R).
Proof.
  intros Hwf Hlen Halpha. unfold sample_probs.
  rewrite sample_prios_wf, Halpha, np_pow_zero_exponent by exact Hwf.
  rewrite meaningful_length by exact Hwf. simpl.
  rewrite np_sum_replicate, Rmult_1_r. unfold np_div.
  rewrite decide_False.
  - by rewrite map_fmap, fmap_replicate.
  - apply not_0_INR. lia.
Qed.

Lemma sample_uniform_for_alpha_zero_witness :
  sample_probs {| prob_alpha := 0%R; capacity := 2;
                  memory := [t_step; t_final]; pos := 0;
                  priorities := [0%R; (-3)%R] |}
  = Ok [(1 / INR 2)%R; (1 / INR 2)%R].
Proof.
  apply (sample_uniform_for_alpha_zero
           {| prob_alpha := 0%R; capacity := 2;
              memory := [t_step; t_final]; pos := 0;
              priorities := [0%R; (-3)%R] |}).
  - unfold wf. simpl. repeat split; lia.
  - unfold len. simpl. lia.
  - reflexivity.
Defined.

Lemma np_random_choice_NonFinite (a size : nat) (random_sample : nat -> R) :
  np_random_choice a size NonFinite random_sample = Raise ValueError.
Proof. unfold np_random_choice. by case_decide. Qed.

Lemma np_random_choice_none (p : result (list R)) (random_sample : nat -> R) :
  np_random_choice 0 BATCH_SIZE p random_sample = Raise ValueError.
Proof.
  unfold np_random_choice. case_decide as H; [reflexivity|].
  exfalso. apply H. split; [reflexivity|]. unfold BATCH_SIZE. lia.
Qed.

Lemma np_random_choice_empty (a : nat) (random_sample : nat -> R) :
  np_random_choice a BATCH_SIZE (Ok []) random_sample = Raise ValueError.
Proof.
  unfold np_random_choice. case_decide as Ha; [reflexivity|].
  rewrite decide_True; [reflexivity|]. simpl. intros <-.
  apply Ha. split; [reflexivity|]. unfold BATCH_SIZE. lia.
Qed.

Lemma zero_powers_not_normalisable (n : nat) (alpha : R) :
  alpha ≠ 0%R ->
  (probs ← np_pow (replicate (S n) 0%R) alpha; np_div probs (np_sum probs))
  = NonFinite.
Proof.
  intros Ha. destruct (decide (0 < alpha)%R) as [Hpos|Hneg].
  - assert (Hpow : np_pow (replicate (S n) 0%R) alpha
                   = Ok (replicate (S n) 0%R)).
    { unfold np_pow. rewrite (mapR_total _ (fun _ => 0%R)).
      - by rewrite map_fmap, fmap_replicate.
      - apply Forall_replicate. unfold npow.
        repeat case_decide; try lra; done. }
    rewrite Hpow. cbn [mbind result_bind].
    rewrite np_sum_replicate, Rmult_0_r. unfold np_div.
    rewrite decide_True by reflexivity. by rewrite decide_False.
  - assert (Hn : npow 0 alpha = None).
    { unfold npow. repeat case_decide; try lra; done. }
    unfold np_pow. cbn [replicate mapR]. by rewrite Hn.
Qed.

(** [sample] raises ValueError on a buffer that holds no transition,
    and on a buffer whose meaningful priorities are all zero unless
    [prob_alpha] is 0: nothing in [update_priorities] keeps a caller
    from writing such priorities. *)
Theorem sample_raises_without_mass (b : PER) (beta : R)
    (random_sample : nat -> R) :
  (memory b = [] -> sample b beta random_sample = Raise ValueError) ∧
  (wf b -> prob_alpha b ≠ 0%R ->
   Forall (fun p => p = 0%R) (take (len b) (priorities b)) ->
   sample b beta random_sample = Raise ValueError).
Proof.
  split.
  - intros Hmem. unfold sample. rewrite Hmem. cbn [length].
    by rewrite np_random_choice_none.
  - intros Hwf Ha Hzero. unfold sample, sample_probs.
    rewrite sample_prios_wf by exact Hwf. unfold meaningful.
    fold (len b).
    destruct (take (len b) (priorities b)) as [|p ps] eqn:E.
    + assert (Hp : (probs ← np_pow [] (prob_alpha b);
                    np_div probs (np_sum probs)) = Ok []).
      { unfold np_pow, np_div. simpl. repeat case_decide; done. }
      by rewrite Hp, np_random_choice_empty.
    + assert (Hrep : p :: ps = replicate (S (length ps)) 0%R).
      { symmetry. apply replicate_as_Forall. split; [reflexivity|].
        eapply Forall_impl; [exact Hzero|]. by intros x ->. }
      rewrite Hrep, zero_powers_not_normalisable by exact Ha.
      by rewrite np_random_choice_NonFinite.
Qed.

Lemma sample_raises_without_mass_witness :
  sample (init 2 0.6%R) 0.4%R first_slot = Raise ValueError ∧
  sample {| prob_alpha := 0.6%R; capacity := 2;
            memory := [t_step; t_final]; pos := 0;
            priorities := [0%R; 0%R] |} 0.4%R first_slot
  = Raise ValueError.
Proof.
  split.
  - destruct (sample_raises_without_mass (init 2 0.6%R) 0.4%R first_slot)
      as [H _].
    by apply H.
  - destruct (sample_raises_without_mass
                {| prob_alpha := 0.6%R; capacity := 2;
                   memory := [t_step; t_final]; pos := 0;
                   priorities := [0%R; 0%R] |} 0.4%R first_slot) as [_ H].
    apply H.
    + unfold wf. simpl. repeat split; lia.
    + simpl. lra.
    + simpl. by repeat constructor.
Defined.

(** ** sample: batches from small buffers, and the shape of the weights *)

(** [sample] draws with replacement: whatever the generator hands out,
    it returns a full batch of [BATCH_SIZE] indices and states from any
    non-empty buffer, each index below the size, and from a buffer that
    holds fewer than [BATCH_SIZE] transitions the batch repeats an
    index. *)
Theorem sample_small_buffer (b : PER) (beta : R) (random_sample : nat -> R) :
  wf b -> positive_priorities b -> 0 < len b -> uniform random_sample ->
  ∃ batch, sample b beta random_sample = Ok batch ∧
           length (indices batch) = BATCH_SIZE ∧
           Forall (fun i => i < len b) (indices batch) ∧
           length (states batch) = BATCH_SIZE ∧
           (len b < BATCH_SIZE -> ¬ NoDup (indices batch)).
Proof.
  intros Hwf Hpos Hlen Hu.
  pose proof (drawn_admissible b random_sample Hwf Hpos Hlen Hu) as Hadm.
  set (draws := drawn b random_sample) in *.
  destruct (sample_Ok b beta random_sample draws Hwf Hpos Hlen Hadm eq_refl)
    as (ts & m & Hts & _ & _ & _ & _ & Hsample).
  pose proof (admissible_inv b draws Hwf Hpos Hlen Hadm) as [Hn Hdraws].
  eexists. split; [exact Hsample|].
  cbn [states actions rewards next_states weights indices].
  split; [exact Hn|].
  split. { eapply Forall_impl; [exact Hdraws|]. by intros i [Hi _]. }
  split; [apply Forall2_length in Hts; rewrite length_map; lia|].
  intros Hsmall Hnodup.
  assert (Hsub : draws ⊆+ seq 0 (len b)).
  { apply NoDup_submseteq; [exact Hnodup|]. intros i Hi.
    rewrite Forall_forall in Hdraws. destruct (Hdraws i Hi) as [Hlt _].
    apply elem_of_seq. simpl in Hlt. lia. }
  apply submseteq_length in Hsub. rewrite length_seq in Hsub. lia.
Qed.

Lemma one_pushed_wf : wf one_pushed.
Proof. unfold wf. simpl. repeat split; lia. Qed.

Lemma one_pushed_positive : positive_priorities one_pushed.
Proof.
  unfold positive_priorities, meaningful. simpl.
  constructor; [lra|constructor].
Qed.

Lemma sample_small_buffer_witness :
  wf one_pushed ∧ positive_priorities one_pushed ∧ 0 < len one_pushed ∧
  uniform first_slot ∧
  ∃ batch, sample one_pushed 0.4%R first_slot = Ok batch ∧
           length (indices batch) = BATCH_SIZE ∧
           ¬ NoDup (indices batch).
Proof.
  assert (Hlen : 0 < len one_pushed) by (unfold len; simpl; lia).
  split; [exact one_pushed_wf|]. split; [exact one_pushed_positive|].
  split; [exact Hlen|]. split; [exact uniform_first_slot|].
  destruct (sample_small_buffer one_pushed 0.4%R first_slot
              one_pushed_wf one_pushed_positive Hlen uniform_first_slot)
    as (batch & Hs & Hn & _ & _ & Hdup).
  exists batch. split; [exact Hs|]. split; [exact Hn|].
  apply Hdup. unfold len, BATCH_SIZE. simpl. lia.
Defined.

(** When every drawn slot has the same raw weight, every weight is 1. *)
Lemma sample_weights_all_one (b : PER) (beta : R) (random_sample : nat -> R)
    (draws : list nat) (r : R) :
  wf b -> positive_priorities b -> 0 < len b -> admissible b draws ->
  drawn b random_sample = draws ->
  Forall (fun i => raw_weight (len b)
                     (distribution (meaningful b) (prob_alpha b)) beta i = r)
         draws ->
  ∃ batch, sample b beta random_sample = Ok batch ∧
           weights batch = replicate BATCH_SIZE 1%R.
Proof.
  intros Hwf Hpos Hlen Hadm Hd Hraw.
  destruct (sample_Ok b beta random_sample draws Hwf Hpos Hlen Hadm Hd)
    as (ts & m & _ & Hm & Hmpos & _ & _ & Hsample).
  pose proof (admissible_inv b draws Hwf Hpos Hlen Hadm) as [Hn _].
  eexists. split; [exact Hsample|]. cbn [weights].
  apply np_max_spec in Hm as [Hin _].
  rewrite map_fmap in Hin. apply list_elem_of_fmap in Hin as (i0 & Hmi & Hi0).
  rewrite Forall_forall in Hraw. rewrite (Hraw i0 Hi0) in Hmi. subst m.
  rewrite <- Hn. symmetry. apply replicate_as_Forall.
  split; [by rewrite length_map|].
  rewrite map_fmap. apply Forall_fmap, Forall_forall. intros i Hi. simpl.
  rewrite (Hraw i Hi). rewrite <- round32_1. f_equal. field. lra.
Qed.

Lemma drawn_base_positive (b : PER) (draws : list nat) (i : nat) :
  wf b -> positive_priorities b -> 0 < len b -> admissible b draws ->
  i ∈ draws ->
  (0 < INR (len b)
       * nth i (distribution (meaningful b) (prob_alpha b)) 0)%R.
Proof.
  intros Hwf Hpos Hlen Hadm Hi.
  pose proof (admissible_inv b draws Hwf Hpos Hlen Hadm) as [_ Hdraws].
  rewrite Forall_forall in Hdraws.
  destruct (Hdraws i Hi) as (_ & pi & Hpi & Hpos').
  rewrite (nth_lookup_Some _ _ _ _ Hpi).
  apply Rmult_lt_0_compat; [|exact Hpos'].
  apply lt_0_INR. unfold len in *. lia.
Qed.

(** With [beta = 0] no correction is applied: every importance weight
    is exactly 1. *)
Theorem sample_weights_beta_zero (b : PER) (random_sample : nat -> R) :
  wf b -> positive_priorities b -> 0 < len b -> uniform random_sample ->
  ∃ batch, sample b 0 random_sample = Ok batch ∧
           weights batch = replicate BATCH_SIZE 1%R.
Proof.
  intros Hwf Hpos Hlen Hu.
  pose proof (drawn_admissible b random_sample Hwf Hpos Hlen Hu) as Hadm.
  apply (sample_weights_all_one b 0%R random_sample
           (drawn b random_sample) 1%R);
    try assumption; [reflexivity|].
  apply Forall_forall. intros i Hi. unfold raw_weight.
  rewrite Ropp_0. apply Rpower_O.
  by apply (drawn_base_positive b (drawn b random_sample)).
Qed.

Lemma sample_weights_beta_zero_witness :
  wf full_buffer ∧ positive_priorities full_buffer ∧ 0 < len full_buffer ∧
  uniform first_slot ∧
  ∃ batch, sample full_buffer 0 first_slot = Ok batch ∧
           weights batch = replicate BATCH_SIZE 1%R.
Proof.
  assert (Hlen : 0 < len full_buffer) by (unfold len; simpl; lia).
  split; [exact full_buffer_wf|]. split; [exact full_buffer_positive|].
  split; [exact Hlen|]. split; [exact uniform_first_slot|].
  exact (sample_weights_beta_zero full_buffer first_slot
           full_buffer_wf full_buffer_positive Hlen uniform_first_slot).
Defined.



Lemma sample_weight_lookup (b : PER) (beta : R) (random_sample : nat -> R)
    (draws : list nat) :
  wf b -> positive_priorities b -> 0 < len b -> admissible b draws ->
  drawn b random_sample = draws ->
  let probs := distribution (meaningful b) (prob_alpha b) in
  ∃ batch m,
    sample b beta random_sample = Ok batch ∧ indices batch = draws ∧
    (0 < m)%R ∧
    ∀ j i w, indices batch !! j = Some i -> weights batch !! j = Some w ->
             w = round32 (raw_weight (len b) probs beta i / m).
Proof.
  intros Hwf Hpos Hlen Hadm Hd probs.
  destruct (sample_Ok b beta random_sample draws Hwf Hpos Hlen Hadm Hd)
    as (ts & m & _ & _ & Hmpos & _ & _ & Hsample).
  eexists _, m. split; [exact Hsample|]. cbn [indices weights].
  split; [reflexivity|]. split; [exact Hmpos|].
  intros j i w Hi Hw. rewrite lookup_map, Hi in Hw. by injection Hw.
Qed.

(** With [beta = 1] the correction is full: the weight of a row is the
    float32 value of [k / p], with [p] the sampling probability of its
    slot and [k] the same positive number for every row of the batch;
    before the cast, weight times probability is constant. *)
Theorem sample_weights_beta_one (b : PER) (random_sample : nat -> R) :
  wf b -> positive_priorities b -> 0 < len b -> uniform random_sample ->
  ∃ batch probs k,
    sample b 1 random_sample = Ok batch ∧ sample_probs b = Ok probs ∧
    (0 < k)%R ∧
    ∀ j i w p, indices batch !! j = Some i -> weights batch !! j = Some w ->
               probs !! i = Some p ->
               (0 < p)%R ∧ w = round32 (k / p).
Proof.
  intros Hwf Hpos Hlen Hu.
  pose proof (drawn_admissible b random_sample Hwf Hpos Hlen Hu) as Hadm.
  set (draws := drawn b random_sample) in *.
  destruct (sample_weight_lookup b 1%R random_sample draws Hwf Hpos Hlen Hadm
              eq_refl)
    as (batch & m & Hs & Hidx & Hm & Hw).
  assert (HN : (0 < INR (len b))%R) by (apply lt_0_INR; lia).
  exists batch, (distribution (meaningful b) (prob_alpha b)),
         (/ (INR (len b) * m))%R.
  split; [exact Hs|]. split; [by apply sample_probs_Ok|].
  split; [apply Rinv_0_lt_compat; by apply Rmult_lt_0_compat|].
  intros j i w p Hi Hwj Hp. rewrite (Hw j i w Hi Hwj).
  assert (Hin : i ∈ draws).
  { rewrite <- Hidx. by eapply list_elem_of_lookup_2. }
  pose proof (drawn_base_positive b draws i Hwf Hpos Hlen Hadm Hin) as Hbase.
  unfold raw_weight. rewrite Rpower_Ropp, Rpower_1 by exact Hbase.
  rewrite (nth_lookup_Some _ _ _ _ Hp) in *.
  assert (Hppos : (0 < p)%R).
  { apply (Rmult_lt_reg_l (INR (len b))); [exact HN|]. lra. }
  split; [exact Hppos|]. f_equal. field. lra.
Qed.

Lemma sample_weights_beta_one_witness :
  wf skewed_buffer ∧ positive_priorities skewed_buffer ∧
  0 < len skewed_buffer ∧ uniform skewed_sample ∧
  ∃ batch, sample skewed_buffer 1 skewed_sample = Ok batch.
Proof.
  assert (Hlen : 0 < len skewed_buffer) by (unfold len; simpl; lia).
  split; [exact skewed_buffer_wf|]. split; [exact skewed_buffer_positive|].
  split; [exact Hlen|]. split; [exact uniform_skewed_sample|].
  destruct (sample_weights_beta_one skewed_buffer skewed_sample
              skewed_buffer_wf skewed_buffer_positive Hlen
              uniform_skewed_sample) as (batch & _ & _ & Hs & _).
  by exists batch.
Defined.

(** A slot of larger probability has no larger raw weight. *)
Lemma raw_weight_le (size : nat) (probs : list R) (beta : R) (i j : nat) :
  0 < size -> (0 <= beta)%R ->
  (0 < nth j probs 0 <= nth i probs 0)%R ->
  (raw_weight size probs beta i <= raw_weight size probs beta j)%R.
Proof.
  intros Hsize Hbeta [Hj Hij]. unfold raw_weight.
  assert (Hn : (0 < INR size)%R) by (apply lt_0_INR; lia).
  rewrite !Rpower_Ropp. apply Rinv_le_contravar; [apply Rpower_pos|].
  apply Rle_Rpower_l; [exact Hbeta|]. split.
  - by apply Rmult_lt_0_compat.
  - apply Rmult_le_compat_l; lra.
Qed.

(** For [beta >= 0] a row drawn with the larger probability never
    carries the larger importance weight. *)
Theorem sample_weights_antitone (b : PER) (beta : R)
    (random_sample : nat -> R) :
  wf b -> positive_priorities b -> 0 < len b -> uniform random_sample ->
  (0 <= beta)%R ->
  ∃ batch probs,
    sample b beta random_sample = Ok batch ∧ sample_probs b = Ok probs ∧
    ∀ j j' i i' w w' p p',
      indices batch !! j = Some i -> indices batch !! j' = Some i' ->
      weights batch !! j = Some w -> weights batch !! j' = Some w' ->
      probs !! i = Some p -> probs !! i' = Some p' ->
      (p <= p')%R -> (w' <= w)%R.
Proof.
  intros Hwf Hpos Hlen Hu Hbeta.
  pose proof (drawn_admissible b random_sample Hwf Hpos Hlen Hu) as Hadm.
  set (draws := drawn b random_sample) in *.
  destruct (sample_weight_lookup b beta random_sample draws Hwf Hpos Hlen
              Hadm eq_refl)
    as (batch & m & Hs & Hidx & Hm & Hw).
  exists batch, (distribution (meaningful b) (prob_alpha b)).
  split; [exact Hs|]. split; [by apply sample_probs_Ok|].
  intros j j' i i' w w' p p' Hi Hi' Hwj Hwj' Hp Hp' Hle.
  rewrite (Hw j i w Hi Hwj), (Hw j' i' w' Hi' Hwj').
  assert (Hin : i ∈ draws).
  { rewrite <- Hidx. by eapply list_elem_of_lookup_2. }
  pose proof (drawn_base_positive b draws i Hwf Hpos Hlen Hadm Hin) as Hbase.
  assert (HN : (0 < INR (len b))%R) by (apply lt_0_INR; lia).
  rewrite (nth_lookup_Some _ _ _ _ Hp) in Hbase.
  assert (Hppos : (0 < p)%R).
  { apply (Rmult_lt_reg_l (INR (len b))); [exact HN|]. lra. }
  assert (Hraw : (raw_weight (len b)
                    (distribution (meaningful b) (prob_alpha b)) beta i'
                  <= raw_weight (len b)
                       (distribution (meaningful b) (prob_alpha b)) beta i)%R).
  { apply raw_weight_le; [exact Hlen|exact Hbeta|].
    rewrite (nth_lookup_Some _ _ _ _ Hp), (nth_lookup_Some _ _ _ _ Hp').
    split; assumption. }
  pose proof (Rinv_0_lt_compat _ Hm) as Hinv.
  apply round32_mono. split.
  - unfold Rdiv. apply Rmult_le_pos; [left; apply Rpower_pos|lra].
  - unfold Rdiv. apply Rmult_le_compat_r; [lra|exact Hraw].
Qed.

Lemma sample_weights_antitone_witness :
  wf skewed_buffer ∧ positive_priorities skewed_buffer ∧
  0 < len skewed_buffer ∧ uniform skewed_sample ∧
  (0 <= 0.4)%R ∧
  ∃ batch, sample skewed_buffer 0.4%R skewed_sample = Ok batch.
Proof.
  assert (Hlen : 0 < len skewed_buffer) by (unfold len; simpl; lia).
  assert (Hbeta : (0 <= 0.4)%R) by lra.
  split; [exact skewed_buffer_wf|]. split; [exact skewed_buffer_positive|].
  split; [exact Hlen|]. split; [exact uniform_skewed_sample|].
  split; [exact Hbeta|].
  destruct (sample_weights_antitone skewed_buffer 0.4%R skewed_sample
              skewed_buffer_wf skewed_buffer_positive Hlen
              uniform_skewed_sample Hbeta) as (batch & _ & Hs & _).
  by exists batch.
Defined.

(** ** sample: how priorities shape the probabilities *)

Lemma np_sum_scale (c : R) (xs : list R) :
  np_sum (map (Rmult c) xs) = (c * np_sum xs)%R.
Proof.
  induction xs as [|x xs IH]; simpl; [ring|]. rewrite IH. ring.
Qed.

Lemma distribution_scale (prios : list R) (alpha c : R) :
  (0 < c)%R -> prios ≠ [] -> Forall (fun x => (0 < x)%R) prios ->
  distribution (map (Rmult c) prios) alpha = distribution prios alpha.
Proof.
  intros Hc Hne Hpos.
  destruct (distribution_spec prios alpha Hne Hpos) as (_ & _ & _ & Hnorm).
  unfold distribution.
  assert (Hraw : map (fun x => Rpower x alpha) (map (Rmult c) prios)
                 = map (Rmult (Rpower c alpha))
                     (map (fun x => Rpower x alpha) prios)).
  { rewrite !map_map. apply map_ext_in. intros x Hx.
    rewrite Forall_forall in Hpos.
    symmetry. apply Rpower_mult_distr; [exact Hc|].
    apply Hpos. by apply list_elem_of_In. }
  rewrite Hraw, np_sum_scale, map_map. apply map_ext. intros y.
  pose proof (Rpower_pos c alpha). field. split; lra.
Qed.

(** Only the ratios of the priorities matter: multiplying every
    priority of the store by the same positive factor leaves the
    sampling probabilities as they were. *)
Theorem sample_probs_scale_invariant (b : PER) (c : R) :
  wf b -> positive_priorities b -> 0 < len b -> (0 < c)%R ->
  sample_probs {| prob_alpha := prob_alpha b; capacity := capacity b;
                  memory := memory b; pos := pos b;
                  priorities := map (Rmult c) (priorities b) |}
  = sample_probs b.
Proof.
  intros Hwf Hpos Hlen Hc.
  set (b' := {| prob_alpha := prob_alpha b; capacity := capacity b;
                memory := memory b; pos := pos b;
                priorities := map (Rmult c) (priorities b) |}).
  assert (Hm : meaningful b' = map (Rmult c) (meaningful b)).
  { unfold meaningful, b'. simpl. by rewrite !map_fmap, fmap_take. }
  assert (Hwf' : wf b').
  { unfold wf, b' in *. simpl. by rewrite length_map. }
  assert (Hpos' : positive_priorities b').
  { unfold positive_priorities. rewrite Hm, map_fmap. apply Forall_fmap.
    eapply Forall_impl; [exact Hpos|]. intros x Hx. simpl.
    by apply Rmult_lt_0_compat. }
  rewrite (sample_probs_Ok b') by assumption.
  rewrite (sample_probs_Ok b) by assumption.
  rewrite Hm. f_equal. apply distribution_scale; try assumption.
  intros He. apply meaningful_length in Hwf. rewrite He in Hwf.
  simpl in Hwf. lia.
Qed.

Lemma sample_probs_scale_invariant_witness :
  wf skewed_buffer ∧ positive_priorities skewed_buffer ∧
  0 < len skewed_buffer ∧ (0 < 10)%R ∧
  sample_probs {| prob_alpha := 0.6%R; capacity := 32;
                  memory := replicate 32 t_step; pos := 0;
                  priorities := map (Rmult 10) (4%R :: replicate 31 1%R) |}
  = sample_probs skewed_buffer.
Proof.
  assert (Hlen : 0 < len skewed_buffer) by (unfold len; simpl; lia).
  assert (Hc : (0 < 10)%R) by lra.
  split; [exact skewed_buffer_wf|]. split; [exact skewed_buffer_positive|].
  split; [exact Hlen|]. split; [exact Hc|].
  exact (sample_probs_scale_invariant skewed_buffer 10%R
           skewed_buffer_wf skewed_buffer_positive Hlen Hc).
Defined.

(** With [prob_alpha = 1] a slot is sampled in proportion to its
    priority: its probability is its priority over the sum of the
    meaningful priorities. *)
Theorem sample_probs_alpha_one (b : PER) :
  wf b -> positive_priorities b -> 0 < len b -> prob_alpha b = 1%R ->
  let prios := take (len b) (priorities b) in
  sample_probs b = Ok (map (fun x => (x / np_sum prios)%R) prios).
Proof.
  intros Hwf Hpos Hlen Halpha prios.
  rewrite sample_probs_Ok by assumption. f_equal.
  change prios with (meaningful b). unfold distribution. rewrite Halpha.
  assert (Hraw : map (fun x => Rpower x 1) (meaningful b) = meaningful b).
  { rewrite <- (map_id (meaningful b)) at 2. apply map_ext_in. intros x Hx.
    apply Rpower_1. unfold positive_priorities in Hpos.
    rewrite Forall_forall in Hpos. apply Hpos. by apply list_elem_of_In. }
  by rewrite Hraw.
Qed.

Lemma sample_probs_alpha_one_witness :
  sample_probs {| prob_alpha := 1%R; capacity := 2;
                  memory := [t_step; t_final]; pos := 0;
                  priorities := [5%R; 1%R] |}
  = Ok [(5 / (5 + (1 + 0)))%R; (1 / (5 + (1 + 0)))%R].
Proof.
  apply (sample_probs_alpha_one
           {| prob_alpha := 1%R; capacity := 2;
              memory := [t_step; t_final]; pos := 0;
              priorities := [5%R; 1%R] |}).
  - unfold wf. simpl. repeat split; lia.
  - unfold positive_priorities, meaningful. simpl.
    repeat constructor; lra.
  - unfold len. simpl. lia.
  - reflexivity.
Defined.

(** For [prob_alpha >= 0] a slot of larger priority is never sampled
    with smaller probability. *)
Theorem sample_probs_monotone (b : PER) :
  wf b -> positive_priorities b -> 0 < len b -> (0 <= prob_alpha b)%R ->
  ∃ probs, sample_probs b = Ok probs ∧
    ∀ i j x y p q,
      i < len b -> j < len b ->
      priorities b !! i = Some x -> priorities b !! j = Some y ->
      probs !! i = Some p -> probs !! j = Some q ->
      (x <= y)%R -> (p <= q)%R.
Proof.
  intros Hwf Hpos Hlen Halpha.
  exists (distribution (meaningful b) (prob_alpha b)).
  split; [by apply sample_probs_Ok|].
  intros i j x y p q Hi Hj Hx Hy Hp Hq Hle.
  assert (Hne : meaningful b ≠ []).
  { intros He. apply meaningful_length in Hwf. rewrite He in Hwf.
    simpl in Hwf. lia. }
  destruct (distribution_spec (meaningful b) (prob_alpha b) Hne Hpos)
    as (_ & _ & _ & Hnorm).
  assert (Hmx : meaningful b !! i = Some x)
    by (unfold meaningful; by rewrite lookup_take_lt).
  assert (Hmy : meaningful b !! j = Some y)
    by (unfold meaningful; by rewrite lookup_take_lt).
  unfold distribution in Hp, Hq.
  rewrite !lookup_map, Hmx in Hp. rewrite !lookup_map, Hmy in Hq.
  injection Hp as <-. injection Hq as <-.
  assert (Hxpos : (0 < x)%R) by (by apply (Forall_lookup_1 _ _ _ _ Hpos Hmx)).
  unfold Rdiv. apply Rmult_le_compat_r.
  - left. by apply Rinv_0_lt_compat.
  - apply Rle_Rpower_l; [exact Halpha|]. by split.
Qed.

Lemma sample_probs_monotone_witness :
  wf skewed_buffer ∧ positive_priorities skewed_buffer ∧
  0 < len skewed_buffer ∧ (0 <= prob_alpha skewed_buffer)%R ∧
  ∃ probs, sample_probs skewed_buffer = Ok probs.
Proof.
  assert (Hlen : 0 < len skewed_buffer) by (unfold len; simpl; lia).
  assert (Ha : (0 <= prob_alpha skewed_buffer)%R) by (simpl; lra).
  split; [exact skewed_buffer_wf|]. split; [exact skewed_buffer_positive|].
  split; [exact Hlen|]. split; [exact Ha|].
  destruct (sample_probs_monotone skewed_buffer skewed_buffer_wf
              skewed_buffer_positive Hlen Ha) as (probs & Hp & _).
  by exists probs.
Defined.

(** ** optimize_model: what a training step changes *)

Lemma np_index_of_nat (n k j : nat) :
  np_index n (Z.of_nat k) = Ok j -> k = j.
Proof.
  unfold np_index. intros Hj.
  repeat case_decide; try discriminate; apply Ok_inj in Hj; lia.
Qed.

(** A slot that some pair points at ends with a written value. *)
Lemma update_loop_written (P : R -> Prop) (pairs : list (Z * list R))
    (p p' : list R) (j : nat) :
  update_loop p pairs = Ok p' ->
  Forall (fun pair => ∀ v, pair.2 !! 0 = Some v -> P v) pairs ->
  (∃ v, p !! j = Some v ∧ P v)
  ∨ Exists (fun pair => np_index (length p) pair.1 = Ok j) pairs ->
  ∃ v, p' !! j = Some v ∧ P v.
Proof.
  revert p. induction pairs as [|[idx row] pairs IH]; intros p; simpl.
  - intros H _ [Hv|Hex]; [|by apply Exists_nil in Hex].
    apply Ok_inj in H. by subst p'.
  - intros Hrun Hall Hor. apply Forall_cons in Hall as [Hrow Hall].
    apply bind_Ok in Hrun as (v & Hv & Hrun).
    apply bind_Ok in Hrun as (p1 & Hset & Hrun).
    pose proof (np_set_length _ _ _ _ Hset) as Hl.
    unfold get in Hv. destruct (row !! 0) as [v'|] eqn:Hr; [|discriminate].
    apply Ok_inj in Hv. subst v'.
    unfold np_set in Hset. apply bind_Ok in Hset as (i & Hi & Hset).
    apply Ok_inj in Hset. subst p1.
    apply (IH _ Hrun Hall). rewrite length_insert.
    destruct (decide (i = j)) as [->|Hne].
    + left. exists v. split; [|by apply Hrow].
      apply list_lookup_insert_eq. by apply np_index_Ok in Hi.
    + destruct Hor as [(v0 & Hv0 & HP)|Hex].
      * left. exists v0. split; [|exact HP].
        by rewrite list_lookup_insert_ne.
      * apply Exists_cons in Hex as [Hhead|Hex]; [|by right].
        simpl in Hhead. rewrite Hi in Hhead. apply Ok_inj in Hhead.
        contradiction.
Qed.

(** During warm-up (fewer than [BATCH_SIZE] transitions) a training
    step returns the buffer as it is, with no loss. A step that returns
    never adds, drops or moves a transition; beyond warm-up it hands
    back a loss and has rewritten priorities at sampled slots only:
    every slot outside the batch keeps its priority and every slot of
    the batch ends with a strictly positive priority. *)
Theorem optimize_model_touches_drawn_slots (policy_net target_net : Net)
    (b : PER) (beta : R) (random_sample : nat -> R) :
  wf b -> positive_priorities b -> uniform random_sample ->
  (len b < BATCH_SIZE ->
   optimize_model policy_net target_net b beta random_sample = Ok (b, None)) ∧
  ∀ b' loss,
    optimize_model policy_net target_net b beta random_sample
    = Ok (b', loss) ->
    memory b' = memory b ∧ pos b' = pos b ∧ capacity b' = capacity b ∧
    prob_alpha b' = prob_alpha b ∧
    length (priorities b') = length (priorities b) ∧
    (BATCH_SIZE ≤ len b ->
       ∃ batch l,
         sample b beta random_sample = Ok batch ∧ loss = Some l ∧
         (∀ j, j ∉ indices batch ->
            priorities b' !! j = priorities b !! j) ∧
         (∀ j, j ∈ indices batch ->
            ∃ v, priorities b' !! j = Some v ∧ (0 < v)%R)).
Proof.
  intros Hwf Hpos Hu. split.
  { intros Hsmall. unfold optimize_model. by rewrite decide_True. }
  intros b' loss Hrun.
  destruct (decide (len b < BATCH_SIZE)) as [Hsmall|Hbig].
  { unfold optimize_model in Hrun. rewrite decide_True in Hrun by exact Hsmall.
    injection Hrun as <- <-.
    do 5 (split; [reflexivity|]). intros. lia. }
  assert (Hsize : BATCH_SIZE ≤ len b) by lia.
  assert (Hlen : 0 < len b) by (unfold BATCH_SIZE in Hsize; lia).
  pose proof (drawn_admissible b random_sample Hwf Hpos Hlen Hu) as Hadm.
  set (draws := drawn b random_sample) in *.
  destruct (optimize_model_prios _ _ _ _ _ _ draws _ Hwf Hpos Hsize Hadm
              eq_refl Hrun)
    as (batch & q & e & prios & l & Hs & Hl & _ & _ & Hlq & Hle & Hsig & Hupd
        & Hqe).
  destruct (sample_Ok b beta random_sample draws Hwf Hpos Hlen Hadm eq_refl)
    as (ts & m & _ & _ & _ & Hw & _ & Hsample).
  rewrite Hs in Hsample. apply Ok_inj in Hsample. subst batch.
  cbn [indices weights] in *.
  apply training_signal_Ok in Hsig as (q' & e' & diff & _ & _ & _ & Hprios).
  cbn [weights] in Hprios.
  pose proof (admissible_inv b draws Hwf Hpos Hlen Hadm) as [Hn Hdraws].
  unfold update_priorities in Hupd.
  apply bind_Ok in Hupd as (p' & Hloop & Hret).
  apply Ok_inj in Hret. subst b'. simpl.
  do 4 (split; [reflexivity|]).
  assert (Hrows : Forall (fun pair : Z * list R =>
                    ∀ v, pair.2 !! 0 = Some v -> (0 < v)%R)
                    (zip (map Z.of_nat draws) prios)).
  { apply Forall_forall. intros [idx row] Hin. simpl.
    apply elem_of_zip_r in Hin. subst prios.
    assert (Hw0 : Forall (fun w => (0 <= w)%R)
              (map (fun i => round32 (raw_weight (len b)
                                (distribution (meaningful b) (prob_alpha b))
                                beta i / m)) draws)).
    { eapply Forall_impl; [exact Hw|]. simpl. intros w Hw0. lra. }
    pose proof (loss_prios_positive diff _ Hw0) as Hfloor.
    rewrite Forall_forall in Hfloor. by apply Hfloor. }
  split.
  { by eapply (update_loop_keeps (fun _ => True)) in Hloop as [Hlp _];
      [|apply Forall_forall]. }
  intros _. eexists _, l. split; [exact Hs|]. cbn [indices].
  split; [exact Hl|]. split.
  - intros j Hj. apply (update_loop_untouched _ _ _ _ Hloop).
    apply Forall_forall. intros [idx row] Hin Heq. simpl in Heq.
    apply elem_of_zip_l in Hin. rewrite map_fmap in Hin.
    apply list_elem_of_fmap in Hin as (k & -> & Hk).
    apply np_index_of_nat in Heq. by subst k.
  - intros j Hj.
    apply (update_loop_written _ _ _ _ j Hloop Hrows). right.
    apply list_elem_of_lookup in Hj as [i Hi].
    assert (Hi' : i < BATCH_SIZE).
    { rewrite <- Hn. by eapply lookup_lt_Some. }
    destruct (lookup_lt_is_Some_2 q i) as [qi Hqi]; [lia|].
    destruct (lookup_lt_is_Some_2 e i) as [ei Hei]; [lia|].
    pose proof (Hqe i qi ei Hqi Hei) as Hrow.
    set (row := map _ _) in Hrow.
    apply Exists_exists. exists (Z.of_nat j, row). split.
    + apply list_elem_of_lookup. exists i.
      by rewrite lookup_zip_with, lookup_map, Hi, Hrow.
    + simpl. apply np_index_nat.
      rewrite Forall_forall in Hdraws.
      destruct (Hdraws j) as [Hlt _]; [by eapply list_elem_of_lookup_2|].
      destruct Hwf as (_ & Hp & _ & Hcap & _). unfold len in *. lia.
Qed.

Lemma full_buffer_step_returns :
  ∃ b' loss,
    optimize_model unit_policy zero_target full_buffer 0.4%R first_slot
    = Ok (b', Some loss).
Proof.
  apply (optimize_model_total unit_policy zero_target
           (fun _ => [1%R]) (fun _ => [0%R]) full_buffer 0.4%R first_slot
           (replicate BATCH_SIZE 0));
    [exact full_buffer_wf|exact full_buffer_positive|exact full_buffer_size
    |exact full_buffer_admissible|exact full_buffer_drawn
    |reflexivity|reflexivity|discriminate
    |exact full_buffer_actions|].
  exists 0, t_step, [1%R]. split; [apply list_elem_of_here|]. by split.
Qed.

Lemma full_buffer_indices (beta : R) (batch : Batch) :
  sample full_buffer beta first_slot = Ok batch ->
  indices batch = replicate BATCH_SIZE 0.
Proof.
  intros Hs.
  destruct (sample_Ok full_buffer beta first_slot _
              full_buffer_wf full_buffer_positive
              ltac:(unfold len; simpl; lia)
              full_buffer_admissible full_buffer_drawn)
    as (ts & m & _ & _ & _ & _ & _ & Hs').
  rewrite Hs in Hs'. apply Ok_inj in Hs'. by rewrite Hs'.
Qed.

Lemma optimize_model_touches_drawn_slots_witness :
  wf full_buffer ∧ positive_priorities full_buffer ∧
  uniform first_slot ∧
  ∃ b' loss v,
    optimize_model unit_policy zero_target full_buffer 0.4%R first_slot
      = Ok (b', Some loss) ∧
    memory b' = memory full_buffer ∧
    priorities b' !! 1 = priorities full_buffer !! 1 ∧
    priorities b' !! 0 = Some v ∧ (0 < v)%R.
Proof.
  split; [exact full_buffer_wf|]. split; [exact full_buffer_positive|].
  split; [exact uniform_first_slot|].
  destruct full_buffer_step_returns as (b' & loss & Hrun).
  destruct (optimize_model_touches_drawn_slots unit_policy zero_target
              full_buffer 0.4%R first_slot
              full_buffer_wf full_buffer_positive uniform_first_slot)
    as [_ Hstep].
  destruct (Hstep b' (Some loss) Hrun) as (Hmem & _ & _ & _ & _ & Hbig).
  destruct (Hbig full_buffer_size) as (batch & l & Hs & _ & Hkeep & Hfloor).
  rewrite (full_buffer_indices _ _ Hs) in Hkeep, Hfloor.
  destruct (Hfloor 0) as (v & Hv & Hle); [apply list_elem_of_here|].
  exists b', loss, v. split; [exact Hrun|]. split; [exact Hmem|].
  split; [|by split]. apply Hkeep.
  intros Hin. apply elem_of_replicate in Hin as [Hin _]. discriminate.
Defined.

Lemma column_times_vector_sum (col vec : list R) :
  np_sum (concat (column_times_vector col vec)) = (np_sum col * np_sum vec)%R ∧
  length (concat (column_times_vector col vec)) = length col * length vec.
Proof.
  unfold column_times_vector. induction col as [|c col [IHs IHl]]; simpl.
  - split; [ring|reflexivity].
  - rewrite np_sum_app, length_app, length_map, IHs, IHl.
    split; [|reflexivity].
    change (fun w : R => (c * w)%R) with (Rmult c).
    rewrite np_sum_scale. ring.
Qed.

Lemma training_signal_loss (policy_net target_net : Net) (batch : Batch)
    (prios : list (list R)) (loss : R) :
  training_signal policy_net target_net batch = Ok (prios, loss) ->
  ∃ q e diff,
    taken_q_values policy_net (states batch) (actions batch) = Ok q ∧
    expected_q_values target_net (rewards batch) (next_states batch) = Ok e ∧
    broadcast2 Rminus q e = Ok diff ∧
    mean (column_times_vector (map (fun d => (d * d)%R) diff) (weights batch))
      = Ok loss.
Proof.
  unfold training_signal. intros H.
  apply bind_Ok in H as (nf & _ & H).
  apply bind_Ok in H as (q & Hq & H).
  apply bind_Ok in H as (e & He & H).
  apply bind_Ok in H as (l & Hl & H).
  apply bind_Ok in H as (l' & Hmean & H).
  injection H as _ <-.
  unfold loss_matrix in Hl. apply bind_Ok in Hl as (diff & Hdiff & Hl).
  apply Ok_inj in Hl. subst l.
  exists q, e, diff. by repeat split.
Qed.

(** The loss a training step returns is the mean of the squared TD
    errors times the mean of the importance weights: [loss] is a
    [BATCH_SIZE] by [BATCH_SIZE] matrix, every error times every
    weight, and [loss.mean()] averages all of its entries. *)
Theorem optimize_model_loss_is_product_of_means (policy_net target_net : Net)
    (b : PER) (beta : R) (random_sample : nat -> R) :
  wf b -> positive_priorities b -> BATCH_SIZE ≤ len b ->
  uniform random_sample ->
  ∀ b' loss,
    optimize_model policy_net target_net b beta random_sample
    = Ok (b', loss) ->
    ∃ batch q e,
      sample b beta random_sample = Ok batch ∧
      taken_q_values policy_net (states batch) (actions batch) = Ok q ∧
      expected_q_values target_net (rewards batch) (next_states batch) = Ok e ∧
      loss = Some
        (np_sum (zip_with (fun qi ei => ((qi - ei) * (qi - ei))%R) q e)
           / INR BATCH_SIZE
         * (np_sum (weights batch) / INR BATCH_SIZE))%R.
Proof.
  intros Hwf Hpos Hsize Hu b' loss Hrun.
  assert (Hlen : 0 < len b) by (unfold BATCH_SIZE in Hsize; lia).
  pose proof (drawn_admissible b random_sample Hwf Hpos Hlen Hu) as Hadm.
  set (draws := drawn b random_sample) in *.
  destruct (optimize_model_prios _ _ _ _ _ _ draws _ Hwf Hpos Hsize Hadm
              eq_refl Hrun)
    as (batch & q & e & prios & l & Hs & Hl & Hq & He & Hlq & Hle & Hsig & _).
  pose proof Hsig as Hsig'.
  apply training_signal_loss in Hsig'
    as (q' & e' & diff & Hq' & He' & Hdiff & Hmean).
  rewrite Hq in Hq'. apply Ok_inj in Hq'. subst q'.
  rewrite He in He'. apply Ok_inj in He'. subst e'.
  rewrite broadcast2_same in Hdiff by lia. apply Ok_inj in Hdiff. subst diff.
  exists batch, q, e. do 3 (split; [assumption|]).
  rewrite Hl. f_equal.
  assert (Hlw : length (weights batch) = BATCH_SIZE).
  { destruct (sample_Ok b beta random_sample draws Hwf Hpos Hlen Hadm
                eq_refl)
      as (ts & m & _ & _ & _ & _ & _ & Hsample).
    pose proof (admissible_inv b draws Hwf Hpos Hlen Hadm) as [Hn _].
    rewrite Hs in Hsample. apply Ok_inj in Hsample. subst batch.
    cbn [weights]. by rewrite length_map. }
  unfold mean in Hmean.
  destruct (column_times_vector_sum
              (map (fun d => (d * d)%R) (zip_with Rminus q e)) (weights batch))
    as [Hsum Hcount].
  case_decide as Hnil; [discriminate|].
  apply Ok_inj in Hmean. subst l.
  rewrite Hsum, Hcount, length_map, length_zip_with, Hlq, Hle, Hlw.
  rewrite Nat.min_id, mult_INR.
  assert (Hsq : map (fun d => (d * d)%R) (zip_with Rminus q e)
                = zip_with (fun qi ei => ((qi - ei) * (qi - ei))%R) q e).
  { clear. revert e. induction q as [|x q IH]; intros [|y e]; simpl;
      try reflexivity. by rewrite IH. }
  rewrite Hsq.
  assert (HB : (0 < INR BATCH_SIZE)%R)
    by (apply lt_0_INR; unfold BATCH_SIZE; lia).
  field. lra.
Qed.

Lemma optimize_model_loss_is_product_of_means_witness :
  wf full_buffer ∧ positive_priorities full_buffer ∧
  BATCH_SIZE ≤ len full_buffer ∧
  uniform first_slot ∧
  ∃ b' loss batch q e,
    optimize_model unit_policy zero_target full_buffer 0.4%R first_slot
      = Ok (b', Some loss) ∧
    sample full_buffer 0.4%R first_slot = Ok batch ∧
    loss = (np_sum (zip_with (fun qi ei => ((qi - ei) * (qi - ei))%R) q e)
              / INR BATCH_SIZE
            * (np_sum (weights batch) / INR BATCH_SIZE))%R.
Proof.
  split; [exact full_buffer_wf|]. split; [exact full_buffer_positive|].
  split; [exact full_buffer_size|]. split; [exact uniform_first_slot|].
  destruct full_buffer_step_returns as (b' & loss & Hrun).
  destruct (optimize_model_loss_is_product_of_means unit_policy zero_target
              full_buffer 0.4%R first_slot
              full_buffer_wf full_buffer_positive full_buffer_size
              uniform_first_slot b' (Some loss) Hrun)
    as (batch & q & e & Hs & _ & _ & Hloss).
  exists b', loss, batch, q, e. split; [exact Hrun|]. split; [exact Hs|].
  by injection Hloss.
Defined.

(** The priority a training step leaves in a drawn slot: the squared TD
    error of the last row of the batch that drew the slot, times the
    importance weight of the first row of the batch, plus [1e-5]. The
    first row's weight is used for every row: row [i] of [prios] holds
    the products of error [i] with all the weights, and
    [update_priorities] reads its first entry. *)
Theorem optimize_model_stored_priority (policy_net target_net : Net)
    (b : PER) (beta : R) (random_sample : nat -> R) :
  wf b -> positive_priorities b -> BATCH_SIZE ≤ len b ->
  uniform random_sample ->
  ∀ b' loss,
    optimize_model policy_net target_net b beta random_sample
    = Ok (b', loss) ->
    ∃ batch q e w0,
      sample b beta random_sample = Ok batch ∧
      taken_q_values policy_net (states batch) (actions batch) = Ok q ∧
      expected_q_values target_net (rewards batch) (next_states batch) = Ok e ∧
      weights batch !! 0 = Some w0 ∧
      ∀ i j qi ei,
        indices batch !! i = Some j ->
        (∀ i', i < i' -> indices batch !! i' ≠ Some j) ->
        q !! i = Some qi -> e !! i = Some ei ->
        priorities b' !! j = Some ((qi - ei) * (qi - ei) * w0 + 1e-5)%R.
Proof.
  intros Hwf Hpos Hsize Hu b' loss Hrun.
  assert (Hlen : 0 < len b) by (unfold BATCH_SIZE in Hsize; lia).
  pose proof (drawn_admissible b random_sample Hwf Hpos Hlen Hu) as Hadm.
  set (draws := drawn b random_sample) in *.
  destruct (optimize_model_prios _ _ _ _ _ _ draws _ Hwf Hpos Hsize Hadm
              eq_refl Hrun)
    as (batch & q & e & prios & l & Hs & _ & Hq & He & Hlq & Hle & _ & Hupd
        & Hqe).
  destruct (sample_Ok b beta random_sample draws Hwf Hpos Hlen Hadm eq_refl)
    as (ts & m & _ & _ & _ & _ & _ & Hsample).
  pose proof (admissible_inv b draws Hwf Hpos Hlen Hadm) as [Hn Hdraws].
  assert (Hidx : indices batch = draws).
  { rewrite Hs in Hsample. apply Ok_inj in Hsample. by subst batch. }
  assert (Hlw : length (weights batch) = BATCH_SIZE).
  { rewrite Hs in Hsample. apply Ok_inj in Hsample. subst batch.
    cbn [weights]. by rewrite length_map. }
  destruct (lookup_lt_is_Some_2 (weights batch) 0) as [w0 Hw0].
  { rewrite Hlw. unfold BATCH_SIZE. lia. }
  exists batch, q, e, w0. do 4 (split; [assumption|]).
  intros i j qi ei Hi Hlast Hqi Hei.
  rewrite Hidx in *.
  unfold update_priorities in Hupd.
  apply bind_Ok in Hupd as (p' & Hloop & Hret).
  apply Ok_inj in Hret. subst b'. simpl.
  set (row := map (fun w => ((qi - ei) * (qi - ei) * w + 1e-5)%R)
                (weights batch)).
  assert (Hpair : zip (map Z.of_nat draws) prios !! i
                  = Some (Z.of_nat j, row)).
  { by rewrite lookup_zip_with, lookup_map, Hi, (Hqe i qi ei Hqi Hei). }
  rewrite <- (take_drop_middle _ _ _ Hpair) in Hloop.
  rewrite (update_loop_last _ _ _ _ _ _ j Hloop).
  - unfold row. by rewrite lookup_map, Hw0.
  - apply np_index_nat. rewrite Forall_forall in Hdraws.
    destruct (Hdraws j) as [Hlt _]; [by eapply list_elem_of_lookup_2|].
    destruct Hwf as (_ & Hp & _ & Hcap & _). unfold len in *. lia.
  - apply Forall_lookup. intros t [idx r] Ht Heq. simpl in Heq.
    rewrite lookup_drop in Ht.
    apply lookup_zip_with_Some in Ht as (z & r' & Hzr & Hz & _).
    injection Hzr as -> ->.
    rewrite lookup_map in Hz.
    destruct (draws !! (S i + t)) as [k|] eqn:Hk; [|discriminate].
    injection Hz as <-. apply np_index_of_nat in Heq. subst k.
    apply (Hlast (S i + t)); [lia|exact Hk].
Qed.

Lemma skewed_buffer_indices (beta : R) (batch : Batch) :
  sample skewed_buffer beta skewed_sample = Ok batch ->
  indices batch = skewed_draws.
Proof.
  intros Hs.
  destruct (sample_Ok skewed_buffer beta skewed_sample skewed_draws
              skewed_buffer_wf skewed_buffer_positive
              ltac:(unfold len; simpl; lia)
              skewed_draws_admissible skewed_buffer_drawn)
    as (ts & m & _ & _ & _ & _ & _ & Hs').
  rewrite Hs in Hs'. apply Ok_inj in Hs'. by rewrite Hs'.
Qed.

Lemma optimize_model_stored_priority_witness :
  wf skewed_buffer ∧ positive_priorities skewed_buffer ∧
  BATCH_SIZE ≤ len skewed_buffer ∧ uniform skewed_sample ∧
  ∃ b' loss batch (q e : list R) w0 qi ei,
    optimize_model unit_policy zero_target skewed_buffer 0.4%R skewed_sample
      = Ok (b', Some loss) ∧
    sample skewed_buffer 0.4%R skewed_sample = Ok batch ∧
    weights batch !! 0 = Some w0 ∧
    q !! 0 = Some qi ∧ e !! 0 = Some ei ∧
    priorities b' !! 0 = Some ((qi - ei) * (qi - ei) * w0 + 1e-5)%R.
Proof.
  split; [exact skewed_buffer_wf|]. split; [exact skewed_buffer_positive|].
  split; [exact skewed_buffer_size|]. split; [exact uniform_skewed_sample|].
  destruct (optimize_model_total unit_policy zero_target
              (fun _ => [1%R]) (fun _ => [0%R]) skewed_buffer 0.4%R
              skewed_sample skewed_draws
              skewed_buffer_wf skewed_buffer_positive
              skewed_buffer_size skewed_draws_admissible skewed_buffer_drawn)
    as (b' & loss & Hrun);
    [reflexivity|reflexivity|discriminate
    |apply Forall_replicate; simpl; lia| |].
  { exists 0, t_step, [1%R]. split; [apply list_elem_of_here|]. by split. }
  destruct (optimize_model_prios _ _ _ _ _ _ _ _ skewed_buffer_wf
              skewed_buffer_positive skewed_buffer_size
              skewed_draws_admissible skewed_buffer_drawn Hrun)
    as (batch0 & q0 & e0 & _ & _ & Hs0 & _ & Hq0 & He0 & Hlq & Hle & _).
  destruct (optimize_model_stored_priority unit_policy zero_target
              skewed_buffer 0.4%R skewed_sample skewed_buffer_wf
              skewed_buffer_positive skewed_buffer_size
              uniform_skewed_sample b' (Some loss) Hrun)
    as (batch & q & e & w0 & Hs & Hq & He & Hw0 & Hstored).
  destruct (lookup_lt_is_Some_2 q 0) as [qi Hqi].
  { rewrite Hs0 in Hs. apply Ok_inj in Hs. subst batch0.
    rewrite Hq0 in Hq. apply Ok_inj in Hq. subst q0.
    rewrite Hlq. unfold BATCH_SIZE. lia. }
  destruct (lookup_lt_is_Some_2 e 0) as [ei Hei].
  { rewrite Hs0 in Hs. apply Ok_inj in Hs. subst batch0.
    rewrite He0 in He. apply Ok_inj in He. subst e0.
    rewrite Hle. unfold BATCH_SIZE. lia. }
  exists b', loss, batch, q, e, w0, qi, ei.
  split; [exact Hrun|]. split; [exact Hs|]. split; [exact Hw0|].
  split; [exact Hqi|]. split; [exact Hei|].
  pose proof (skewed_buffer_indices _ _ Hs) as Hidx.
  apply (Hstored 0 0 qi ei); [| |exact Hqi|exact Hei].
  - by rewrite Hidx.
  - intros i' Hi'. rewrite Hidx. unfold skewed_draws.
    destruct i' as [|i']; [lia|].
    change (replicate 31 1 !! i' ≠ Some 0). intros Hrep.
    apply lookup_replicate in Hrep as [Hrep _]. discriminate.
Defined.

(** ** The training loop during warm-up *)

Lemma store_and_learn_warm_up (its : list Iteration) (b0 : PER) :
  wf b0 -> len b0 + length its < BATCH_SIZE ->
  ∃ b, store_and_learn_all b0 its = Ok (b, replicate (length its) None) ∧
       pushes b0 (map it_transition its) = Ok b.
Proof.
  revert b0. induction its as [|it its IH]; intros b0 Hwf Hfew.
  - exists b0. by split.
  - destruct (push_Ok b0 (it_transition it) Hwf) as (m & _ & Hpush).
    set (b1 := {| prob_alpha := prob_alpha b0 |}) in Hpush.
    destruct (push_shape b0 b1 _ Hwf Hpush) as (Hwf1 & _ & _ & _ & Hlen1 & _).
    simpl in Hfew.
    destruct (IH b1 Hwf1) as (b & Hall & Hrun); [lia|].
    exists b. cbn [store_and_learn_all map pushes length replicate].
    unfold store_and_learn. rewrite Hpush. cbn [mbind result_bind].
    unfold optimize_model. rewrite decide_True by lia.
    cbn [mbind result_bind]. rewrite Hall. cbn [mbind result_bind].
    by split.
Qed.

(** During warm-up the loop only stores: as long as fewer than
    [BATCH_SIZE] transitions have been observed, every iteration
    returns no loss, whatever the networks, the step counters and the
    output of the generator,
    and the buffer is the one the pushes alone build. *)
Theorem warm_up_only_stores (c : nat) (alpha : R) (its : list Iteration) :
  0 < c -> length its < BATCH_SIZE ->
  ∃ b, store_and_learn_all (init c alpha) its
         = Ok (b, replicate (length its) None) ∧
       pushes (init c alpha) (map it_transition its) = Ok b.
Proof.
  intros Hc Hfew. apply store_and_learn_warm_up; [by apply init_wf|].
  unfold len. simpl. lia.
Qed.

Lemma warm_up_only_stores_witness :
  0 < 3 ∧ 2 < BATCH_SIZE ∧
  ∃ b, store_and_learn_all (init 3 0.6%R)
         [mkIteration (marked 1) 1 first_slot unit_policy zero_target;
          mkIteration (marked 2) 2 first_slot unit_policy zero_target]
       = Ok (b, [None; None]).
Proof.
  assert (Hc : 0 < 3) by lia.
  assert (Hfew : 2 < BATCH_SIZE) by (unfold BATCH_SIZE; lia).
  split; [exact Hc|]. split; [exact Hfew|].
  destruct (warm_up_only_stores 3 0.6%R
              [mkIteration (marked 1) 1 first_slot unit_policy zero_target;
               mkIteration (marked 2) 2 first_slot unit_policy zero_target]
              Hc Hfew) as (b & Hall & _).
  by exists b.
Defined.

(** ** Action selection *)

Lemma eps_threshold_decay (s : Z) :
  eps_threshold s = (0.05 + 0.85 * exp (- IZR s / 200))%R.
Proof.
  unfold eps_threshold, EPS_END, EPS_START, EPS_DECAY.
  replace (-1 * IZR s / 200)%R with (- IZR s / 200)%R by lra. lra.
Qed.

Lemma eps_threshold_above_end (s : Z) : (EPS_END < eps_threshold s)%R.
Proof.
  rewrite eps_threshold_decay. unfold EPS_END.
  pose proof (exp_pos (- IZR s / 200)). lra.
Qed.

(** The exploration threshold starts at [EPS_START], never rises as
    steps accumulate, and from step 0 on stays between [EPS_END] and
    [EPS_START]. *)
Theorem eps_threshold_decays :
  eps_threshold 0 = EPS_START ∧
  (∀ s s', (s <= s')%Z -> (eps_threshold s' <= eps_threshold s)%R) ∧
  (∀ s, (0 <= s)%Z -> (EPS_END <= eps_threshold s <= EPS_START)%R).
Proof.
  assert (Hmono : ∀ s s', (s <= s')%Z ->
            (eps_threshold s' <= eps_threshold s)%R).
  { intros s s' Hle. rewrite !eps_threshold_decay. apply IZR_le in Hle.
    destruct (Req_dec (IZR s) (IZR s')) as [->|Hne]; [lra|].
    assert (exp (- IZR s' / 200) < exp (- IZR s / 200))%R
      by (apply exp_increasing; lra).
    lra. }
  assert (H0 : eps_threshold 0 = EPS_START).
  { rewrite eps_threshold_decay. unfold EPS_START.
    replace (- 0 / 200)%R with 0%R by lra. rewrite exp_0. lra. }
  split; [exact H0|]. split; [exact Hmono|].
  intros s Hs. split.
  - rewrite eps_threshold_decay. unfold EPS_END.
    pose proof (exp_pos (- IZR s / 200)). lra.
  - rewrite <- H0. by apply Hmono.
Qed.

Lemma eps_threshold_decays_witness :
  (eps_threshold 1000 <= eps_threshold 0)%R ∧
  (EPS_END <= eps_threshold 1000 <= EPS_START)%R.
Proof.
  destruct eps_threshold_decays as (_ & Hmono & Hrange).
  split; [apply Hmono; lia|apply Hrange; lia].
Defined.

Lemma argmax_from_spec (xs : list R) :
  ∀ best besti i,
    let k := argmax_from best besti i xs in
    (k = besti ∧ Forall (fun x => (x <= best)%R) xs)
    ∨ ∃ t v, k = i + t ∧ xs !! t = Some v ∧ (best < v)%R ∧
             Forall (fun x => (x <= v)%R) xs ∧
             ∀ t' w, t' < t -> xs !! t' = Some w -> (w < v)%R.
Proof.
  induction xs as [|x xs IH]; intros best besti i; simpl.
  - left. by split.
  - destruct (decide (best < x)%R) as [Hlt|Hge].
    + destruct (IH x i (S i)) as [[Hk Hall]|(t & v & Hk & Hv & Hxv & Hall & Hearly)].
      * right. exists 0, x. rewrite Hk.
        split; [lia|]. split; [reflexivity|]. split; [exact Hlt|].
        split; [constructor; [lra|exact Hall]|]. intros; lia.
      * right. exists (S t), v. rewrite Hk.
        split; [lia|]. split; [exact Hv|]. split; [lra|].
        split; [constructor; [lra|exact Hall]|].
        intros [|t'] w Ht' Hw; simpl in Hw.
        -- injection Hw as <-. exact Hxv.
        -- apply (Hearly t'); [lia|exact Hw].
    + destruct (IH best besti (S i))
        as [[Hk Hall]|(t & v & Hk & Hv & Hbv & Hall & Hearly)].
      * left. split; [exact Hk|]. constructor; [lra|exact Hall].
      * right. exists (S t), v. rewrite Hk.
        split; [lia|]. split; [exact Hv|]. split; [exact Hbv|].
        split; [constructor; [lra|exact Hall]|].
        intros [|t'] w Ht' Hw; simpl in Hw.
        -- injection Hw as <-. lra.
        -- apply (Hearly t'); [lia|exact Hw].
Qed.

Lemma argmax_spec (row : list R) (a : nat) :
  argmax row = Ok a ->
  ∃ v, row !! a = Some v ∧ Forall (fun x => (x <= v)%R) row ∧
       ∀ k w, k < a -> row !! k = Some w -> (w < v)%R.
Proof.
  destruct row as [|x xs]; [discriminate|]. simpl. intros H.
  apply Ok_inj in H. subst a.
  destruct (argmax_from_spec xs x 0 1)
    as [[Hk Hall]|(t & v & Hk & Hv & Hxv & Hall & Hearly)]; simpl in Hk.
  - rewrite Hk. exists x. split; [reflexivity|].
    split; [constructor; [lra|exact Hall]|]. intros; lia.
  - rewrite Hk. exists v. split; [exact Hv|].
    split; [constructor; [lra|exact Hall]|].
    intros [|k] w Hk' Hw; simpl in Hw.
    + injection Hw as <-. exact Hxv.
    + apply (Hearly k); [lia|exact Hw].
Qed.

(** [select_action] advances [steps_done] by exactly one on either
    branch. It explores, returning what [randrange] drew, when the
    random sample is not above the threshold, which is always so for a
    sample of at most [EPS_END]; otherwise it returns the first action
    whose value is the largest of the policy's row for the state. *)
Theorem select_action_spec (policy_net : Net) (n_actions : nat)
    (state : Tensor) (steps_done : Z) (sample : R) (randrange : nat) :
  (∀ a steps_done',
     select_action policy_net n_actions state steps_done sample randrange
       = Ok (a, steps_done') ->
     steps_done' = (steps_done + 1)%Z ∧
     (((sample <= eps_threshold steps_done)%R ∧ a = randrange)
      ∨ ((eps_threshold steps_done < sample)%R ∧
         ∃ row v, policy_net [state] = [row] ∧ row !! a = Some v ∧
                  Forall (fun x => (x <= v)%R) row ∧
                  ∀ k w, k < a -> row !! k = Some w -> (w < v)%R))) ∧
  ((0 <= steps_done)%Z -> (sample <= EPS_END)%R -> n_actions ≠ 0 ->
   select_action policy_net n_actions state steps_done sample randrange
     = Ok (randrange, (steps_done + 1)%Z)) ∧
  (∀ row, (eps_threshold steps_done < sample)%R ->
     policy_net [state] = [row] -> row ≠ [] ->
     ∃ a, select_action policy_net n_actions state steps_done sample randrange
            = Ok (a, (steps_done + 1)%Z)).
Proof.
  split; [|split].
  - intros a s' Hrun. unfold select_action in Hrun.
    destruct (decide (eps_threshold steps_done < sample)%R) as [Hgreedy|Hexp].
    + apply bind_Ok in Hrun as (best & Hbest & Hrun).
      destruct best as [|a0 [|? ?]]; try discriminate.
      injection Hrun as -> <-. split; [reflexivity|]. right.
      split; [exact Hgreedy|].
      destruct (policy_net [state]) as [|row rows] eqn:Hnet; [discriminate|].
      simpl in Hbest. apply bind_Ok in Hbest as (a1 & Ha1 & Hbest).
      apply bind_Ok in Hbest as (rest & Hrest & Hbest).
      injection Hbest as -> ->.
      destruct rows as [|row' rows].
      * destruct (argmax_spec row a Ha1) as (v & Hv & Hall & Hearly).
        by exists row, v.
      * simpl in Hrest. apply bind_Ok in Hrest as (? & _ & Hrest).
        apply bind_Ok in Hrest as (? & _ & Hrest). discriminate.
    + case_decide; [discriminate|]. injection Hrun as <- <-.
      split; [reflexivity|]. left. split; [lra|reflexivity].
  - intros Hs Hsample Hn. unfold select_action.
    pose proof (eps_threshold_above_end steps_done) as Hfloor.
    rewrite decide_False by lra. by rewrite decide_False.
  - intros row Hgreedy Hnet Hrow. unfold select_action.
    rewrite decide_True by exact Hgreedy. rewrite Hnet.
    destruct row as [|x xs]; [contradiction|]. simpl. eauto.
Qed.

Lemma select_action_spec_witness :
  (0 <= 7)%Z ∧ (0.01 <= EPS_END)%R ∧ 5 ≠ 0 ∧
  select_action unit_policy 5 [0%R] 7 0.01%R 3 = Ok (3, 8%Z) ∧
  (eps_threshold 0 < 0.95)%R ∧
  ∃ a, select_action unit_policy 1 [0%R] 0 0.95%R 0 = Ok (a, 1%Z).
Proof.
  assert (Hs : (0 <= 7)%Z) by lia.
  assert (Hsample : (0.01 <= EPS_END)%R) by (unfold EPS_END; lra).
  assert (Hn : 5 ≠ 0) by lia.
  assert (Hgreedy : (eps_threshold 0 < 0.95)%R).
  { rewrite eps_threshold_decay.
    replace (- 0 / 200)%R with 0%R by lra. rewrite exp_0. lra. }
  split; [exact Hs|]. split; [exact Hsample|]. split; [exact Hn|].
  split; [|split; [exact Hgreedy|]].
  - destruct (select_action_spec unit_policy 5 [0%R] 7 0.01%R 3)
      as (_ & Hexplore & _).
    by apply Hexplore.
  - destruct (select_action_spec unit_policy 1 [0%R] 0 0.95%R 0)
      as (_ & _ & Hreturns).
    by apply (Hreturns [1%R]).
Defined.

(** ** Layer sizes *)

(** For a positive stride the output size is at least 1 exactly when
    the kernel fits into the input, and it never shrinks when the input
    grows; a zero stride raises ZeroDivisionError. *)
Theorem conv2d_size_out_fits (size kernel_size stride : Z) :
  (stride = 0%Z ->
   conv2d_size_out size kernel_size stride = Raise ZeroDivisionError) ∧
  ((0 < stride)%Z ->
   ∃ n, conv2d_size_out size kernel_size stride = Ok n ∧
        ((1 <= n)%Z ↔ (kernel_size <= size)%Z) ∧
        ∀ size' n', (size <= size')%Z ->
          conv2d_size_out size' kernel_size stride = Ok n' -> (n <= n')%Z).
Proof.
  split.
  - intros ->. reflexivity.
  - intros Hs. unfold conv2d_size_out. rewrite decide_False by lia.
    eexists. split; [reflexivity|]. split.
    + split.
      * intros Hn. destruct (decide (kernel_size <= size)%Z); [done|].
        assert ((size - (kernel_size - 1) - 1) / stride < 0)%Z; [|lia].
        apply Z.div_lt_upper_bound; lia.
      * intros Hfit.
        assert (0 <= (size - (kernel_size - 1) - 1) / stride)%Z; [|lia].
        apply Z.div_pos; lia.
    + intros size' n' Hle Hn'. rewrite decide_False in Hn' by lia.
      apply Ok_inj in Hn'. subst n'.
      assert ((size - (kernel_size - 1) - 1) / stride
              <= (size' - (kernel_size - 1) - 1) / stride)%Z; [|lia].
      apply Z.div_le_mono; lia.
Qed.

Lemma conv2d_size_out_fits_witness :
  (0 < 2)%Z ∧ ∃ n, conv2d_size_out 100 5 2 = Ok n ∧ (1 <= n)%Z.
Proof.
  assert (Hs : (0 < 2)%Z) by lia. split; [exact Hs|].
  destruct (conv2d_size_out_fits 100 5 2) as [_ Hpos].
  destruct (Hpos Hs) as (n & Hn & Hfit & _).
  exists n. split; [exact Hn|]. apply Hfit. lia.
Defined.

Lemma conv_of_quotient (a d : Z) :
  (0 < d)%Z ->
  conv2d_size_out (a / d) 5 2 = Ok ((a - 3 * d) / (d * 2))%Z.
Proof.
  intros Hd. unfold conv2d_size_out. rewrite decide_False by lia. f_equal.
  rewrite <- Z.div_div by lia.
  replace (a - 3 * d)%Z with (a + (-3) * d)%Z by lia.
  rewrite Z.div_add by lia. generalize (a / d)%Z. intros x.
  replace (x - (5 - 1) - 1)%Z with (x + -3 + (-1) * 2)%Z by lia.
  rewrite Z.div_add by lia. lia.
Qed.

Lemma conv_stack_closed (size : Z) : conv_stack size = Ok ((size - 21) / 8)%Z.
Proof.
  unfold conv_stack.
  rewrite <- (Z.div_1_r size) at 1.
  rewrite conv_of_quotient by lia. cbn [mbind result_bind].
  rewrite conv_of_quotient by lia. cbn [mbind result_bind].
  rewrite conv_of_quotient by lia. f_equal. f_equal; lia.
Qed.

Lemma reduced_side_sign (s : Z) :
  ((29 <= s)%Z -> (1 <= (s - 21) / 8)%Z) ∧
  ((21 <= s < 29)%Z -> ((s - 21) / 8 = 0)%Z) ∧
  ((s <= 20)%Z -> ((s - 21) / 8 <= -1)%Z).
Proof.
  split; [|split].
  - intros H. apply Z.div_le_lower_bound; lia.
  - intros H. apply Z.div_small. lia.
  - intros H.
    assert ((s - 21) / 8 < 0)%Z; [|lia].
    apply Z.div_lt_upper_bound; lia.
Qed.

(** The three stacked convolutions take a side of [s] pixels to
    [(s - 21) // 8]. The size of the linear head is the product of the
    two reduced sides times 32: it is positive when both sides are at
    least 29, and also when both are at most 20, where each reduced
    side is negative. *)
Theorem linear_input_size_sign (h w : Z) :
  conv_stack h = Ok ((h - 21) / 8)%Z ∧
  linear_input_size h w = Ok ((w - 21) / 8 * ((h - 21) / 8) * 32)%Z ∧
  ∀ n, linear_input_size h w = Ok n ->
    ((0 < n)%Z ↔ (29 <= h ∧ 29 <= w)%Z ∨ (h <= 20 ∧ w <= 20)%Z).
Proof.
  split; [apply conv_stack_closed|].
  assert (Hsize : linear_input_size h w
                  = Ok ((w - 21) / 8 * ((h - 21) / 8) * 32)%Z).
  { unfold linear_input_size. by rewrite !conv_stack_closed. }
  split; [exact Hsize|]. intros n Hn. rewrite Hsize in Hn.
  apply Ok_inj in Hn. subst n.
  destruct (reduced_side_sign h) as (Hh1 & Hh0 & Hhn).
  destruct (reduced_side_sign w) as (Hw1 & Hw0 & Hwn).
  generalize dependent ((h - 21) / 8)%Z. intros y Hy1 Hy0 Hyn.
  generalize dependent ((w - 21) / 8)%Z. intros x Hx1 Hx0 Hxn.
  destruct (Z_lt_le_dec h 21) as [Hh|Hh];
    destruct (Z_lt_le_dec w 21) as [Hw|Hw];
    destruct (Z_lt_le_dec h 29) as [Hh'|Hh'];
    destruct (Z_lt_le_dec w 29) as [Hw'|Hw'];
    try lia;
    try (specialize (Hy1 ltac:(lia))); try (specialize (Hx1 ltac:(lia)));
    try (specialize (Hy0 ltac:(lia))); try (specialize (Hx0 ltac:(lia)));
    try (specialize (Hyn ltac:(lia))); try (specialize (Hxn ltac:(lia)));
    split; intros; nia.
Qed.

Lemma linear_input_size_sign_witness :
  linear_input_size 100 400 = Ok 13536%Z ∧
  ((0 < 13536)%Z ↔ (29 <= 100 ∧ 29 <= 400)%Z ∨ (100 <= 20 ∧ 400 <= 20)%Z).
Proof.
  destruct (linear_input_size_sign 100 400) as (_ & Hsize & Hsign).
  split; [exact Hsize|]. by apply Hsign.
Defined.

(** ** The running average of the plot *)

(** From 100 episodes on, the plotted averages line up with the
    episodes: there is one per episode, the first 99 are zero, and the
    one at episode [i >= 99] is the mean of the 100 durations ending
    at [i]. Below 100 episodes nothing is averaged. *)
Theorem plotted_means_aligned (durations : list R) :
  (length durations < 100 -> plotted_means durations = None) ∧
  (100 ≤ length durations ->
   ∃ means, plotted_means durations = Some means ∧
     length means = length durations ∧
     (∀ i, i < 99 -> means !! i = Some 0%R) ∧
     ∀ i, 99 ≤ i < length durations ->
       means !! i
       = Some (np_sum (take 100 (drop (i - 99) durations)) / 100)%R ∧
       length (take 100 (drop (i - 99) durations)) = 100).
Proof.
  split.
  - intros Hlt. unfold plotted_means. by rewrite decide_False by lia.
  - intros Hge. unfold plotted_means. rewrite decide_True by exact Hge.
    eexists. split; [reflexivity|].
    split; [|split].
    + unfold window_means.
      rewrite length_app, length_replicate, length_map, length_seq. lia.
    + intros i Hi. rewrite lookup_app_l by (rewrite length_replicate; lia).
      apply lookup_replicate. by split.
    + intros i Hi. split.
      * rewrite lookup_app_r by (rewrite length_replicate; lia).
        rewrite length_replicate. unfold window_means.
        rewrite lookup_map, lookup_seq_lt by lia. reflexivity.
      * rewrite length_take, length_drop. lia.
Qed.

Lemma plotted_means_aligned_witness :
  100 ≤ length (replicate 120 7%R) ∧
  ∃ means, plotted_means (replicate 120 7%R) = Some means ∧
           length means = 120.
Proof.
  assert (H : 100 ≤ length (replicate 120 7%R))
    by (rewrite length_replicate; lia).
  split; [exact H|].
  destruct (plotted_means_aligned (replicate 120 7%R)) as [_ Hbig].
  destruct (Hbig H) as (means & Hm & Hl & _).
  exists means. split; [exact Hm|]. by rewrite Hl, length_replicate.
Defined.
